(** * Kaminario K2 volume driver (cinder/volume/drivers/kaminario/kaminario_common.py)

    A shallow embedding of the driver's name derivation, resilient REST
    client, replication orchestration and statistics code, together with
    the properties its specification states about them. *)

From Stdlib Require Import ZArith QArith Qround Ascii String.
From stdpp Require Import gmap strings list fin_maps pretty.

Local Open Scope string_scope.

(** ** Python strings

    Strings are sequences of characters; the helpers below are the few
    [str] operations the driver relies on. *)
Module PyStr.

(** [s[:n]] *)
Fixpoint slice_to (n : nat) (s : string) : string :=
  match n, s with
  | O, _ => EmptyString
  | S _, EmptyString => EmptyString
  | S n', String c s' => String c (slice_to n' s')
  end.

(** [s[i]] when [i] is in range *)
Fixpoint char_at (i : nat) (s : string) : option ascii :=
  match s, i with
  | EmptyString, _ => None
  | String c _, O => Some c
  | String _ s', S i' => char_at i' s'
  end.

Fixpoint all_chars (p : ascii -> bool) (s : string) : bool :=
  match s with
  | EmptyString => true
  | String c s' => p c && all_chars p s'
  end.

Fixpoint map_chars (f : ascii -> ascii) (s : string) : string :=
  match s with
  | EmptyString => EmptyString
  | String c s' => String (f c) (map_chars f s')
  end.

Fixpoint starts_with (p s : string) : bool :=
  match p, s with
  | EmptyString, _ => true
  | String _ _, EmptyString => false
  | String a p', String b s' => if ascii_dec a b then starts_with p' s' else false
  end.

(** [sub in s] *)
Fixpoint contains (sub s : string) : bool :=
  starts_with sub s ||
  match s with
  | EmptyString => false
  | String _ s' => contains sub s'
  end.

End PyStr.

(** ** Name derivation (lines 604-642) *)
Module Names.
Import PyStr.

(** The complement of the class [[^0-9a-zA-Z-_]]: digits, letters, and
    the two literals [-] and [_]. *)
Definition allowed_char (c : ascii) : bool :=
  let n := nat_of_ascii c in
  (((48 <=? n) && (n <=? 57)) || ((97 <=? n) && (n <=? 122))
   || ((65 <=? n) && (n <=? 90)) || (n =? 45) || (n =? 95))%nat.

Arguments allowed_char : simpl never.

Definition sanitize_char (c : ascii) : ascii :=
  if allowed_char c then c else "_"%char.
Arguments sanitize_char : simpl never.

(** [re.sub('[^0-9a-zA-Z-_]', '_', s)] *)
Definition re_sub_disallowed (s : string) : string := map_chars sanitize_char s.

(** [connector.get('host', '')] *)
Definition connector_host (connector : gmap string string) : string :=
  default "" (connector !! "host").

Definition get_initiator_host_name (connector : gmap string string) : string :=
  slice_to 32 (re_sub_disallowed (connector_host connector)).

Definition get_volume_group_name (vid : string) : string := "cvg-" +:+ vid.
Definition get_volume_name (vid : string) : string := "cv-" +:+ vid.
Definition get_session_name (vid : string) : string := "ssn-" +:+ vid.
Definition get_snap_name (sid : string) : string := "cs-" +:+ sid.
Definition get_view_name (vid : string) : string := "cview-" +:+ vid.
Definition get_rep_name (name : string) : string := "r" +:+ name.

End Names.

(** ** The K2 management API as the driver sees it

    The driver talks to two arrays (the configured SAN and, when
    replication is configured, the replica) through the [krest] SDK:
    collections addressed by URL, objects with free-form attributes,
    [search] by attribute filters, [save], [delete] and [refresh]. *)
Module K2.

(** Attribute values of REST objects. [VRef] is a reference to another
    object of the same array, [VRefs] a result set used as a filter. *)
Inductive value :=
| VNone
| VStr (s : string)
| VInt (z : Z)
| VBool (b : bool)
| VRef (id : nat)
| VRefs (ids : list nat).

#[global] Instance value_eq_dec : EqDecision value.
Proof. solve_decision. Defined.

(** Which array a [KrestWrap] endpoint object is connected to. *)
Inductive endpoint := Source | Target.

#[global] Instance endpoint_eq_dec : EqDecision endpoint.
Proof. solve_decision. Defined.

(** An object as the array stores it. *)
Record k2_object := K2Object {
  oid : nat;
  fields : gmap string value
}.

(** One array: its collections by URL, and the next identifier it will
    hand out. *)
Record array := Array {
  objects : gmap string (list k2_object);
  next_id : nat
}.

Definition collection (a : array) (url : string) : list k2_object :=
  default [] (objects a !! url).

Definition set_collection (url : string) (l : list k2_object) (a : array) : array :=
  {| objects := <[url := l]> (objects a); next_id := next_id a |}.

(** A filter [k=v] accepts an object whose attribute [k] equals [v], or,
    when [v] is a result set, refers to one of its hits. *)
Definition filter_accepts (o : k2_object) (kv : string * value) : bool :=
  match fields o !! kv.1, kv.2 with
  | Some (VRef i), VRefs ids => bool_decide (i ∈ ids)
  | Some v, w => bool_decide (v = w)
  | None, _ => false
  end.

Definition accepts (filters : list (string * value)) (o : k2_object) : bool :=
  forallb (filter_accepts o) filters.

Inductive request :=
| Search (url : string) (filters : list (string * value))
| Create (url : string) (attrs : gmap string value)
| Update (url : string) (id : nat) (attrs : gmap string value)
| Delete (url : string) (id : nat)
| Refresh (url : string) (id : nat).

Inductive response :=
| Hits (l : list k2_object)
| Object (o : k2_object)
| Done.

Definition has_id (id : nat) (o : k2_object) : bool := bool_decide (oid o = id).

Definition patch (id : nat) (attrs : gmap string value) (o : k2_object) : k2_object :=
  if has_id id o then {| oid := oid o; fields := attrs ∪ fields o |} else o.

(** What an array does with a request it accepts: [None] when the
    addressed object does not exist (answered with HTTP 404).  Deleting
    an identifier that is already gone is accepted. *)
Definition serve (r : request) (a : array) : option (response * array) :=
  match r with
  | Search url filters => Some (Hits (List.filter (accepts filters) (collection a url)), a)
  | Create url attrs =>
      let o := {| oid := next_id a; fields := attrs |} in
      Some (Object o,
            {| objects := <[url := (collection a url ++ [o])%list]> (objects a);
               next_id := S (next_id a) |})
  | Update url id attrs =>
      match List.find (has_id id) (collection a url) with
      | Some o => Some (Object (patch id attrs o),
                        set_collection url (List.map (patch id attrs) (collection a url)) a)
      | None => None
      end
  | Delete url id =>
      Some (Done, set_collection url (List.filter (fun o => negb (has_id id o)) (collection a url)) a)
  | Refresh url id =>
      match List.find (has_id id) (collection a url) with
      | Some o => Some (Object o, a)
      | None => None
      end
  end.

End K2.

(** ** Exceptions and the driver's effects *)
Module Eff.
Import K2.

Inductive exn :=
| K2HTTPError (message : string) (status_code : Z) (text : string)
| KaminarioRetryableException (reason : string)
| KaminarioCinderDriverException (reason : string)
| UnableToFailOver (reason : string)
| ManageExistingInvalidReference (reason : string)
| IndexError
| AttributeError (name : string)
| OtherError (message : string).

(** [ex.message] *)
Definition message (e : exn) : string :=
  match e with
  | K2HTTPError m _ _ => m
  | KaminarioRetryableException r => r
  | KaminarioCinderDriverException r => r
  | UnableToFailOver r => r
  | ManageExistingInvalidReference r => r
  | IndexError => "list index out of range"
  | AttributeError n => n
  | OtherError m => m
  end.

(** A call returns, raises, or (a [while] loop that was given too little
    fuel) has not finished. *)
Inductive result (A : Type) :=
| Ok (a : A)
| Raise (e : exn)
| Diverge.
Arguments Ok {A} a.
Arguments Raise {A} e.
Arguments Diverge {A}.

Inductive outcome :=
| Answered (r : response)
| Failed (e : exn).

Inductive event :=
| Acquire (ep : endpoint)
| Release (ep : endpoint)
| Call (ep : endpoint) (r : request) (out : outcome)
| Sleep (seconds : nat).

(** [Replication]: the configured replica (lines 124-129). *)
Record Replication := {
  backend_id : string;
  login : string;
  password : string;
  rpo : value
}.

Record configuration := {
  auto_calc_max_oversubscription_ratio : bool;
  max_over_subscription_ratio : Q
}.

(** The [stats] dictionary written by [update_volume_stats]. *)
Record stats_dict := {
  QoS_support : bool;
  free_capacity_gb : Q;
  total_capacity_gb : Q;
  thin_provisioning_support : bool;
  sparse_copy_volume : bool;
  total_volumes : Z;
  thick_provisioning_support : bool;
  provisioned_capacity_gb : Q;
  max_oversubscription_ratio : Q;
  thin_prov_type : string;
  replication_enabled : bool;
  kaminario_replication : bool
}.

(** Everything a driver call can read or change: the two arrays, what the
    arrays do on their own while a second passes, the outcome the network
    has in store for the coming transport calls ([Some e]: the call
    raises [e]; [None] or an exhausted list: the array answers), the
    endpoint locks, the log of what happened, and the attributes of the
    driver instance. *)
Record state := State {
  source_array : array;
  target_array : array;
  elapse : array * array -> array * array;
  faults : list (option exn);
  source_locked : bool;
  target_locked : bool;
  trace : list event;
  client : endpoint;
  target : option endpoint;
  replica : option Replication;
  conf : configuration;
  stats : option stats_dict
}.

Definition array_of (ep : endpoint) (st : state) : array :=
  match ep with Source => source_array st | Target => target_array st end.

(** Whether the [krestlock] of an endpoint is held. *)
Definition locked (st : state) (ep : endpoint) : bool :=
  match ep with Source => source_locked st | Target => target_locked st end.

Definition set_arrays (aa : array * array) (st : state) : state :=
  State aa.1 aa.2 (elapse st) (faults st) (source_locked st) (target_locked st)
        (trace st) (client st) (target st) (replica st) (conf st) (stats st).

Definition set_array (ep : endpoint) (a : array) (st : state) : state :=
  match ep with
  | Source => set_arrays (a, target_array st) st
  | Target => set_arrays (source_array st, a) st
  end.

Definition set_faults (f : list (option exn)) (st : state) : state :=
  State (source_array st) (target_array st) (elapse st) f
        (source_locked st) (target_locked st)
        (trace st) (client st) (target st) (replica st) (conf st) (stats st).

Definition set_locked (ep : endpoint) (b : bool) (st : state) : state :=
  State (source_array st) (target_array st) (elapse st) (faults st)
        (match ep with Source => b | Target => source_locked st end)
        (match ep with Source => target_locked st | Target => b end)
        (trace st) (client st) (target st) (replica st) (conf st) (stats st).

Definition log (ev : event) (st : state) : state :=
  State (source_array st) (target_array st) (elapse st) (faults st)
        (source_locked st) (target_locked st)
        (trace st ++ [ev])%list (client st) (target st) (replica st) (conf st) (stats st).

Definition set_client (ep : endpoint) (st : state) : state :=
  State (source_array st) (target_array st) (elapse st) (faults st)
        (source_locked st) (target_locked st)
        (trace st) ep (target st) (replica st) (conf st) (stats st).

Definition set_stats (s : stats_dict) (st : state) : state :=
  State (source_array st) (target_array st) (elapse st) (faults st)
        (source_locked st) (target_locked st)
        (trace st) (client st) (target st) (replica st) (conf st) (Some s).

Definition M (A : Type) : Type := state -> result A * state.

Definition ret {A} (a : A) : M A := fun st => (Ok a, st).
Definition raise {A} (e : exn) : M A := fun st => (Raise e, st).

Definition bind {A B} (m : M A) (k : A -> M B) : M B :=
  fun st =>
    match m st with
    | (Ok a, st') => k a st'
    | (Raise e, st') => (Raise e, st')
    | (Diverge, st') => (Diverge, st')
    end.

(** [try: m  except Exception as ex: h ex] *)
Definition try_except {A} (m : M A) (h : exn -> M A) : M A :=
  fun st =>
    match m st with
    | (Raise e, st') => h e st'
    | r => r
    end.

(** [try: m  finally: f] *)
Definition try_finally {A} (m : M A) (f : M unit) : M A :=
  fun st =>
    match m st with
    | (Diverge, st') => (Diverge, st')
    | (r, st') =>
        match f st' with
        | (Ok _, st'') => (r, st'')
        | (Raise e, st'') => (Raise e, st'')
        | (Diverge, st'') => (Diverge, st'')
        end
    end.

Definition get {A} (f : state -> A) : M A := fun st => (Ok (f st), st).
Definition modify (f : state -> state) : M unit := fun st => (Ok tt, f st).

(** [for x in l: body x] *)
Fixpoint for_each {A} (l : list A) (body : A -> M unit) : M unit :=
  match l with
  | [] => ret tt
  | x :: l' => bind (body x) (fun _ => for_each l' body)
  end.

End Eff.

Declare Scope eff_scope.
Delimit Scope eff_scope with eff.
Notation "'let*' x ':=' m 'in' k" := (Eff.bind m (fun x => k))
  (at level 10, x name, m at level 100, k at level 200) : eff_scope.
Notation "'exec' m ';;;' k" := (Eff.bind m (fun _ => k))
  (at level 10, m at level 100, k at level 200) : eff_scope.

(** ** The resilient client: [KrestWrap] (lines 64-99) *)
Module KrestWrap.
Import K2 Eff PyStr.
Local Open Scope eff_scope.

Definition MAX_K2_RETRY : nat := 5.

Definition K2_RETRY_ERRORS : list string :=
  ["MC_ERR_BUSY"; "MC_ERR_BUSY_SPECIFIC"; "MC_ERR_INPROGRESS"; "MC_ERR_START_TIMEOUT"].

Definition _should_retry (err_code : Z) (err_msg : string) : bool :=
  if (err_code =? 400)%Z
  then existsb (fun er => contains er err_msg) K2_RETRY_ERRORS
  else false.

Definition not_found : exn := K2HTTPError "404 Client Error" 404 "Not Found".

(** [krest.EndPoint._request]: one exchange with an array.  The next
    entry of [faults] decides whether the exchange fails before the array
    acts on the request. *)
Definition transport (ep : endpoint) (r : request) : M response :=
  fun st =>
    match faults st with
    | Some e :: rest => (Raise e, log (Call ep r (Failed e)) (set_faults rest st))
    | _ =>
        let st1 := set_faults (tail (faults st)) st in
        match serve r (array_of ep st1) with
        | Some (resp, a) => (Ok resp, log (Call ep r (Answered resp)) (set_array ep a st1))
        | None => (Raise not_found, log (Call ep r (Failed not_found)) st1)
        end
    end.

Definition krestlock_acquire (ep : endpoint) : M unit :=
  fun st =>
    if locked st ep then (Diverge, st)
    else (Ok tt, log (Acquire ep) (set_locked ep true st)).

Definition krestlock_release (ep : endpoint) : M unit :=
  modify (fun st => log (Release ep) (set_locked ep false st)).

(** The body of [_request], before the [retry] decorator. *)
Definition _request_body (ep : endpoint) (r : request) : M response :=
  try_finally
    (try_except
       (exec krestlock_acquire ep ;;; transport ep r)
       (fun err =>
          match err with
          | K2HTTPError _ err_code err_msg =>
              if _should_retry err_code err_msg
              then raise (KaminarioRetryableException err_msg)
              else raise err
          | _ => raise err
          end))
    (krestlock_release ep).

(** Modelled from the spec: [cinder.utils.retry], the decorator applied to
    [_request], which is not part of this file.  A call that raises the
    given retryable error is made again, up to [retries] attempts in all;
    any other outcome, and the outcome of the last attempt, is the
    outcome of the call. *)
Fixpoint retry_attempts {A} (again : nat) (f : M A) : M A :=
  fun st =>
    match f st, again with
    | (Raise (KaminarioRetryableException _), st'), S n => retry_attempts n f st'
    | r, _ => r
    end.

Definition retry {A} (retries : nat) (f : M A) : M A :=
  retry_attempts (Nat.pred retries) f.

Definition _request (ep : endpoint) (r : request) : M response :=
  retry MAX_K2_RETRY (_request_body ep r).

(** *** [krest] objects on the driver's side *)

Record RestObject := {
  ro_ep : endpoint;
  ro_url : string;
  ro_id : option nat;
  ro_attrs : gmap string value
}.

Record ResultSet := {
  hits : list RestObject;
  total : nat
}.

Definition of_k2 (ep : endpoint) (url : string) (o : k2_object) : RestObject :=
  {| ro_ep := ep; ro_url := url; ro_id := Some (oid o); ro_attrs := fields o |}.

Definition unexpected {A} : M A := raise (OtherError "unexpected response").

(** [ep.search(url, **filters)] *)
Definition search (ep : endpoint) (url : string) (filters : list (string * value))
  : M ResultSet :=
  let* resp := _request ep (Search url filters) in
  match resp with
  | Hits l => ret {| hits := List.map (of_k2 ep url) l; total := List.length l |}
  | _ => unexpected
  end.

(** [ep.new(url, **attrs)] *)
Definition new (ep : endpoint) (url : string) (attrs : list (string * value)) : RestObject :=
  {| ro_ep := ep; ro_url := url; ro_id := None; ro_attrs := list_to_map attrs |}.

(** [obj.attr = v] *)
Definition setattr (o : RestObject) (k : string) (v : value) : RestObject :=
  {| ro_ep := ro_ep o; ro_url := ro_url o; ro_id := ro_id o;
     ro_attrs := <[k := v]> (ro_attrs o) |}.

(** [obj.attr] *)
Definition getattr (o : RestObject) (k : string) : M value :=
  match ro_attrs o !! k with
  | Some v => ret v
  | None => raise (AttributeError k)
  end.

(** A reference to [o] as an attribute or filter value. *)
Definition ref (o : RestObject) : value :=
  match ro_id o with Some i => VRef i | None => VNone end.

Definition refs (rs : ResultSet) : value :=
  VRefs (omap ro_id (hits rs)).

(** [obj.save()] *)
Definition save (o : RestObject) : M RestObject :=
  let* resp :=
    _request (ro_ep o)
      (match ro_id o with
       | None => Create (ro_url o) (ro_attrs o)
       | Some i => Update (ro_url o) i (ro_attrs o)
       end) in
  match resp with
  | Object s => ret (of_k2 (ro_ep o) (ro_url o) s)
  | _ => unexpected
  end.

(** [obj.delete()] *)
Definition delete (o : RestObject) : M unit :=
  match ro_id o with
  | Some i => exec _request (ro_ep o) (Delete (ro_url o) i) ;;; ret tt
  | None => raise (AttributeError "id")
  end.

(** [obj.refresh()] *)
Definition refresh (o : RestObject) : M RestObject :=
  match ro_id o with
  | Some i =>
      let* resp := _request (ro_ep o) (Refresh (ro_url o) i) in
      match resp with
      | Object s => ret (of_k2 (ro_ep o) (ro_url o) s)
      | _ => unexpected
      end
  | None => raise (AttributeError "id")
  end.

(** [rs.hits[0]] *)
Definition first_hit (rs : ResultSet) : M RestObject :=
  match hits rs with
  | o :: _ => ret o
  | [] => raise IndexError
  end.

End KrestWrap.

(** ** The driver: [KaminarioCinderDriver] (lines 132-893) *)
Module Driver.
Import K2 Eff KrestWrap Names.
Local Open Scope eff_scope.

(** [units.Mi] *)
Definition Mi : Z := 1048576.

(** [fields.ReplicationStatus.FAILED_OVER] *)
Definition FAILED_OVER : string := "failed-over".

(** What the volume framework hands to the driver. *)
Record volume_type := {
  vt_name : string;
  extra_specs : option (gmap string string)
}.

Record cinder_volume := {
  id : string;
  size : Z;
  vol_type : option volume_type;
  replication_status : string
}.

(** A volume argument is a framework volume or an array object
    ([type(volume).__name__ == 'RestObject']). *)
Inductive volume_arg :=
| Framework (v : cinder_volume)
| Rest (o : RestObject).

Record volume_update := {
  volume_id : string;
  updates : list (string * string)
}.

(** Truth value of an attribute in a condition. *)
Definition truthy (v : value) : bool :=
  match v with
  | VNone => false
  | VStr s => negb (String.eqb s "")
  | VInt z => negb (z =? 0)%Z
  | VBool b => b
  | VRef _ => true
  | VRefs l => negb (Nat.eqb (List.length l) 0)
  end.

(** Numeric attributes. *)
Definition as_int (v : value) : M Z :=
  match v with
  | VInt z => ret z
  | VBool b => ret (if b then 1 else 0)%Z
  | _ => raise (OtherError "TypeError")
  end.

Definition self_client : M endpoint := get client.

(** [self.target], set at setup only when a replica is configured. *)
Definition self_target : M endpoint :=
  let* t := get target in
  match t with
  | Some ep => ret ep
  | None => raise (AttributeError "target")
  end.

(** [self.replica.<attr>] *)
Definition self_replica : M Replication :=
  let* r := get replica in
  match r with
  | Some rep => ret rep
  | None => raise (AttributeError "backend_id")
  end.

(** [_get_is_replica] (lines 772-779) *)
Definition _get_is_replica (vt : option volume_type) : M bool :=
  let* r := get replica in
  ret match vt with
      | Some t =>
          match extra_specs t with
          | Some specs =>
              if bool_decide (specs = ∅) then false
              else bool_decide (specs !! "kaminario:replication" = Some "enabled")
                   && bool_decide (is_Some r)
          | None => false
          end
      | None => false
      end.

(** [_get_is_dedup] (lines 755-770); [nodedup_substring] is
    [CONF.kaminario_nodedup_substring]. *)
Definition _get_is_dedup (nodedup_substring : string) (vt : option volume_type) : bool :=
  match vt with
  | Some t =>
      let specs_val := default ∅ (extra_specs t) !! "kaminario:thin_prov_type" in
      if bool_decide (specs_val = Some "nodedup") then false
      else if PyStr.contains nodedup_substring (vt_name t) then false
      else true
  | None => true
  end.

Definition kaminario_nodedup_substring : string := "K2-nodedup".

(** ["{0}".format(v)] *)
Definition format (v : value) : string :=
  match v with
  | VNone => "None"
  | VStr s => s
  | VInt z => pretty z
  | VBool b => if b then "True" else "False"
  | VRef i => "<RestObject " +:+ pretty i +:+ ">"
  | VRefs _ => "<ResultSet>"
  end.

(** [_delete_by_ref] (lines 293-297) *)
Definition _delete_by_ref (device : endpoint) (url : string) (name : value) : M unit :=
  let* rs := search device url [("name", name)] in
  for_each (hits rs) delete.

(** [create_volume], lines 206-229: the group and the volume. *)
Definition create_group_and_volume (volume : cinder_volume) : M (RestObject * RestObject) :=
  let vg_name := get_volume_group_name (id volume) in
  let vol_name := get_volume_name (id volume) in
  let prov_type := _get_is_dedup kaminario_nodedup_substring (vol_type volume) in
  try_except
    (let* c := self_client in
     let* vg := save (new c "volume_groups"
                        [("name", VStr vg_name); ("quota", VInt 0);
                         ("is_dedup", VBool prov_type)]) in
     let* c := self_client in
     let* vol := save (new c "volumes"
                         [("name", VStr vol_name); ("size", VInt (size volume * Mi));
                          ("volume_group", ref vg)]) in
     ret (vg, vol))
    (fun ex =>
       let* c := self_client in
       let* vg_rs := search c "volume_groups" [("name", VStr vg_name)] in
       exec (if negb (Nat.eqb (total vg_rs) 0)
             then let* h := first_hit vg_rs in delete h
             else ret tt) ;;;
       raise (KaminarioCinderDriverException (message ex))).

(** The cleanup of [_create_volume_replica] (lines 280-291). *)
Definition replica_rollback (session_name rsession_name rvol_name : string)
                            (vol_name : value) (rvg_name : string) (vg_name : value)
                            (ex : exn) : M unit :=
  let* c := self_client in
  exec _delete_by_ref c "replication/sessions" (VStr session_name) ;;;
  let* t := self_target in
  exec _delete_by_ref t "replication/sessions" (VStr rsession_name) ;;;
  let* t := self_target in
  exec _delete_by_ref t "volumes" (VStr rvol_name) ;;;
  let* c := self_client in
  exec _delete_by_ref c "volumes" vol_name ;;;
  let* t := self_target in
  exec _delete_by_ref t "volume_groups" (VStr rvg_name) ;;;
  let* c := self_client in
  exec _delete_by_ref c "volume_groups" vg_name ;;;
  raise (KaminarioCinderDriverException (message ex)).

(** [_create_volume_replica] (lines 235-291) *)
Definition _create_volume_replica (volume : cinder_volume) (vg vol : RestObject)
                                  (rpo : value) : M unit :=
  let session_name := get_session_name (id volume) in
  let rsession_name := get_rep_name session_name in
  let* vg_name := getattr vg "name" in
  let rvg_name := get_rep_name (format vg_name) in
  let* vol_name := getattr vol "name" in
  let rvol_name := get_rep_name (format vol_name) in
  let* c := self_client in
  let* rep := self_replica in
  let* k2peer_rs := search c "replication/peer_k2arrays"
                      [("mgmt_host", VStr (backend_id rep))] in
  let* k2peer :=
    (if negb (Nat.eqb (total k2peer_rs) 0)
     then first_hit k2peer_rs
     else raise (KaminarioCinderDriverException "Unable to find K2peer in source K2:")) in
  try_except
    (let* c := self_client in
     let src_ssn := new c "replication/sessions" [] in
     let src_ssn := setattr src_ssn "replication_peer_k2array" (ref k2peer) in
     let src_ssn := setattr src_ssn "auto_configure_peer_volumes" (VStr "False") in
     let src_ssn := setattr src_ssn "local_volume_group" (ref vg) in
     let src_ssn := setattr src_ssn "replication_peer_volume_group_name" (VStr rvg_name) in
     let src_ssn := setattr src_ssn "remote_replication_session_name" (VStr rsession_name) in
     let src_ssn := setattr src_ssn "name" (VStr session_name) in
     let src_ssn := setattr src_ssn "rpo" rpo in
     let* src_ssn := save src_ssn in
     let* c := self_client in
     exec save (new c "replication/peer_volumes"
                  [("local_volume", ref vol); ("name", VStr rvol_name);
                   ("replication_session", ref src_ssn)]) ;;;
     let src_ssn := setattr src_ssn "state" (VStr "in_sync") in
     exec save src_ssn ;;;
     ret tt)
    (replica_rollback session_name rsession_name rvol_name vol_name rvg_name vg_name).

(** [create_volume] (lines 200-232) *)
Definition create_volume (volume : cinder_volume) : M unit :=
  let* created := create_group_and_volume volume in
  let* is_replica := _get_is_replica (vol_type volume) in
  let* r := get replica in
  match is_replica, r with
  | true, Some rep => _create_volume_replica volume created.1 created.2 (rpo rep)
  | _, _ => ret tt
  end.

(** [_failover_volume] (lines 300-310) *)
Definition _failover_volume (v : cinder_volume) : M unit :=
  let session_name := get_session_name (id v) in
  let rsession_name := get_rep_name session_name in
  let* t := self_target in
  let* rs := search t "replication/sessions" [("name", VStr rsession_name)] in
  let* tgt_ssn := first_hit rs in
  let* state := getattr tgt_ssn "state" in
  if bool_decide (state = VStr "in_sync")
  then exec save (setattr tgt_ssn "state" (VStr "failed_over")) ;;; ret tt
  else ret tt.

(** The loop of [failover_host] (lines 322-334). *)
Fixpoint failover_volumes (volumes : list cinder_volume)
                          (volume_updates : list volume_update)
  : M (list volume_update) :=
  match volumes with
  | [] => ret volume_updates
  | v :: rest =>
      let vol_name := get_volume_name (id v) in
      let rv := get_rep_name vol_name in
      let* t := self_target in
      let* rs := search t "volumes" [("name", VStr rv)] in
      if negb (Nat.eqb (total rs) 0)
      then
        exec _failover_volume v ;;;
        failover_volumes rest
          (volume_updates ++
           [{| volume_id := id v;
               updates := [("replication_status", FAILED_OVER)] |}])%list
      else
        failover_volumes rest
          (volume_updates ++
           [{| volume_id := id v; updates := [("status", "error")] |}])%list
  end.

(** [failover_host] (lines 313-336); an absent or empty [secondary_id] is
    false in the guard. *)
Definition failover_host (volumes : list cinder_volume) (secondary_id : option string)
  : M (string * list volume_update) :=
  let given := match secondary_id with
               | Some s => negb (String.eqb s "")
               | None => false
               end in
  let* rejected :=
    (if given
     then let* rep := self_replica in
          ret (negb (bool_decide (secondary_id = Some (backend_id rep))))
     else ret false) in
  if rejected
  then raise (UnableToFailOver "Failover requested on non replicated backend.")
  else
    let* volume_updates := failover_volumes volumes [] in
    let* rep := self_replica in
    ret (backend_id rep, volume_updates).

Definition diverge {A} : M A := fun st => (Diverge, st).

(** [eventlet.sleep(seconds)]: time passes, and the arrays do in it what
    they do on their own. *)
Definition sleep (seconds : nat) : M unit :=
  modify (fun st =>
            log (Sleep seconds)
                (set_arrays (Nat.iter seconds (elapse st) (source_array st, target_array st)) st)).

(** [_check_for_status] (lines 503-506); [fuel] bounds the number of
    iterations of the [while] loop. *)
Fixpoint _check_for_status (fuel : nat) (obj : RestObject) (status : string)
  : M RestObject :=
  let* state := getattr obj "state" in
  if bool_decide (state = VStr status) then ret obj
  else
    match fuel with
    | O => diverge
    | S fuel' =>
        let* obj := refresh obj in
        exec sleep 1 ;;;
        _check_for_status fuel' obj status
    end.

(** [_delete_volume_replica] (lines 469-500) *)
Definition _delete_volume_replica (fuel : nat) (volume : cinder_volume)
                                  (vg_name vol_name : string) : M unit :=
  let rvg_name := get_rep_name vg_name in
  let rvol_name := get_rep_name vol_name in
  let session_name := get_session_name (id volume) in
  let rsession_name := get_rep_name session_name in
  let* c := self_client in
  let* src_rs := search c "replication/sessions" [("name", VStr session_name)] in
  let* src_ssn := first_hit src_rs in
  let* t := self_target in
  let* tgt_rs := search t "replication/sessions" [("name", VStr rsession_name)] in
  let* tgt_ssn := first_hit tgt_rs in
  let* src_ssn := save (setattr src_ssn "state" (VStr "suspended")) in
  let* tgt_ssn := _check_for_status fuel tgt_ssn "suspended" in
  let* src_ssn := save (setattr src_ssn "state" (VStr "idle")) in
  let* tgt_ssn := _check_for_status fuel tgt_ssn "idle" in
  exec delete tgt_ssn ;;;
  exec delete src_ssn ;;;
  let* c := self_client in
  let* vg := search c "volume_groups" [("name", VStr vg_name)] in
  let* t := self_target in
  let* rvg := search t "volume_groups" [("name", VStr rvg_name)] in
  let* c := self_client in
  let* snaps := search c "snapshots" [("volume_group", refs vg)] in
  exec for_each (hits snaps) delete ;;;
  let* t := self_target in
  let* rsnaps := search t "snapshots" [("volume_group", refs rvg)] in
  exec for_each (hits rsnaps) delete ;;;
  let* t := self_target in
  exec _delete_by_ref t "volumes" (VStr rvol_name) ;;;
  let* t := self_target in
  _delete_by_ref t "volume_groups" (VStr rvg_name).

(** [delete_volume] (lines 443-466) *)
Definition delete_volume (fuel : nat) (volume : cinder_volume) : M unit :=
  let vg_name := get_volume_group_name (id volume) in
  let vol_name := get_volume_name (id volume) in
  try_except
    (let* is_replica := _get_is_replica (vol_type volume) in
     let* r := get replica in
     exec (if is_replica && bool_decide (is_Some r)
           then _delete_volume_replica fuel volume vg_name vol_name
           else ret tt) ;;;
     let* c := self_client in
     let* vol_rs := search c "volumes" [("name", VStr vol_name)] in
     exec (if negb (Nat.eqb (total vol_rs) 0)
           then let* h := first_hit vol_rs in delete h
           else ret tt) ;;;
     let* c := self_client in
     let* vg_rs := search c "volume_groups" [("name", VStr vg_name)] in
     if negb (Nat.eqb (total vg_rs) 0)
     then let* h := first_hit vg_rs in delete h
     else ret tt)
    (fun ex => raise (KaminarioCinderDriverException (message ex))).

(** [update_volume_stats] (lines 579-602).  [/] is division of numbers:
    the quotients are rationals. *)
Definition update_volume_stats : M unit :=
  let* conf := get conf in
  let* c := self_client in
  let* cap_rs := search c "system/capacity" [] in
  let* cap := first_hit cap_rs in
  let* c := self_client in
  let* vols := search c "volumes" [] in
  let total_volumes := (Z.of_nat (total vols) - 1)%Z in
  let* provisioned_vol := getattr cap "provisioned_volumes" in
  let* auto :=
    (if auto_calc_max_oversubscription_ratio conf
     then let* provisioned := getattr cap "provisioned" in
          if truthy provisioned
          then let* cap_total := getattr cap "total" in
               let* cap_total := as_int cap_total in
               let* cap_free := getattr cap "free" in
               let* cap_free := as_int cap_free in
               ret (negb (cap_total - cap_free =? 0)%Z)
          else ret false
     else ret false) in
  let* ratio :=
    (if auto : bool
     then let* cap_total := getattr cap "total" in
          let* cap_total := as_int cap_total in
          let* cap_free := getattr cap "free" in
          let* cap_free := as_int cap_free in
          let* provisioned_vol := as_int provisioned_vol in
          ret (inject_Z provisioned_vol / inject_Z (cap_total - cap_free))%Q
     else ret (max_over_subscription_ratio conf)) in
  let* cap_free := getattr cap "free" in
  let* cap_free := as_int cap_free in
  let* cap_total := getattr cap "total" in
  let* cap_total := as_int cap_total in
  let* provisioned_vol := as_int provisioned_vol in
  modify (set_stats {| QoS_support := false;
                       free_capacity_gb := (inject_Z cap_free / inject_Z Mi)%Q;
                       total_capacity_gb := (inject_Z cap_total / inject_Z Mi)%Q;
                       thin_provisioning_support := true;
                       sparse_copy_volume := true;
                       total_volumes := total_volumes;
                       thick_provisioning_support := false;
                       provisioned_capacity_gb := (inject_Z provisioned_vol / inject_Z Mi)%Q;
                       max_oversubscription_ratio := ratio;
                       thin_prov_type := "dedup/nodedup";
                       replication_enabled := true;
                       kaminario_replication := true |}).

(** [manage_existing_get_size] (lines 828-838): [vol.size / units.Mi] is
    the exact quotient and [math.ceil] its ceiling. *)
Definition manage_existing_get_size (existing_ref : gmap string string) : M Z :=
  match existing_ref !! "source-name" with
  | None => raise (OtherError "KeyError")
  | Some vol_name =>
      let* c := self_client in
      let* v_rs := search c "volumes" [("name", VStr vol_name)] in
      if negb (Nat.eqb (total v_rs) 0)
      then
        let* vol := first_hit v_rs in
        let* sz := getattr vol "size" in
        let* sz := as_int sz in
        let size := (inject_Z sz / inject_Z Mi)%Q in
        ret (Qceiling size)
      else
        raise (ManageExistingInvalidReference "Unable to get size of manage volume.")
  end.

(** The lookup shared by [_get_volume_object] and [terminate_connection]:
    the name to search for, after [self.client = self.target] for a
    failed-over volume (lines 666-669 and 698-701). *)
Definition volume_lookup_name (volume : cinder_volume) : M string :=
  let vol_name := get_volume_name (id volume) in
  if bool_decide (replication_status volume = "failed-over")
  then
    let vol_name := get_rep_name vol_name in
    let* t := self_target in
    exec modify (set_client t) ;;;
    ret vol_name
  else ret vol_name.

(** [_get_volume_object] (lines 665-676) *)
Definition _get_volume_object (volume : cinder_volume) : M RestObject :=
  let* vol_name := volume_lookup_name volume in
  let* c := self_client in
  let* vol_rs := search c "volumes" [("name", VStr vol_name)] in
  if Nat.eqb (total vol_rs) 0
  then raise (KaminarioCinderDriverException
                ("Unable to find volume: " +:+ vol_name +:+ " from K2."))
  else first_hit vol_rs.

(** A volume argument as a filter value; a framework volume refers to no
    object of the array. *)
Definition volume_filter (volume : volume_arg) : value :=
  match volume with
  | Framework _ => VNone
  | Rest o => ref o
  end.

(** [terminate_connection] (lines 694-723) *)
Definition terminate_connection (volume : volume_arg) (connector : gmap string string)
  : M unit :=
  let* volume :=
    match volume with
    | Framework v =>
        let* vol_name := volume_lookup_name v in
        let* c := self_client in
        let* volume_rs := search c "volumes" [("name", VStr vol_name)] in
        if negb (Nat.eqb (total volume_rs) 0)
        then let* h := first_hit volume_rs in ret (Rest h)
        else ret volume
    | Rest o => exec getattr o "name" ;;; ret volume
    end in
  let host_name := get_initiator_host_name connector in
  let* c := self_client in
  let* host_rs := search c "hosts" [("name", VStr host_name)] in
  if negb (Nat.eqb (total host_rs) 0)
  then
    let* host := first_hit host_rs in
    let* c := self_client in
    let* map_rs := search c "mappings" [("volume", volume_filter volume); ("host", ref host)] in
    exec (if negb (Nat.eqb (total map_rs) 0)
          then let* h := first_hit map_rs in delete h
          else ret tt) ;;;
    let* c := self_client in
    let* left := search c "mappings" [("host", ref host)] in
    if Nat.eqb (total left) 0 then delete host else ret tt
  else ret tt.

(** [units.Ki] *)
Definition Ki : Z := 1024.

(** *** Cloning (lines 401-440)

    Attaching and copying are done by collaborators outside this file:
    the connector properties, [initialize_connection] of the protocol
    subclass, [_connect_device] of the base driver and
    [vol_utils.copy_volume]. *)
Section Clone.
Variables conn attach_info : Type.
Variable brick_get_connector_properties : M (gmap string string).
Variable initialize_connection : volume_arg -> gmap string string -> M conn.
Variable _connect_device : conn -> M attach_info.
Variable copy_volume : attach_info -> attach_info -> Z -> M unit.

Definition clone_rejected : string :=
  "K2 driver does not support clone of a attached volume. "
  +:+ "To get this done, create a snapshot from the attached "
  +:+ "volume and then create a volume from the snapshot.".

Definition create_cloned_volume (fuel : nat) (volume src_vref : cinder_volume) : M unit :=
  let src_name := get_volume_name (id src_vref) in
  let* c := self_client in
  let* src_vol := search c "volumes" [("name", VStr src_name)] in
  let* c := self_client in
  let* src_map := search c "mappings" [("volume", refs src_vol)] in
  if negb (Nat.eqb (total src_map) 0)
  then raise (KaminarioCinderDriverException clone_rejected)
  else
    (* [properties] is bound by the first statement of the [try]; the
       handler cannot name it when that statement raised *)
    let* properties :=
      try_except brick_get_connector_properties
                 (fun _ => raise (OtherError "UnboundLocalError")) in
    try_except
      (let* conn := initialize_connection (Framework src_vref) properties in
       let* src_attach_info := _connect_device conn in
       exec create_volume volume ;;;
       let* conn := initialize_connection (Framework volume) properties in
       let* dest_attach_info := _connect_device conn in
       exec copy_volume src_attach_info dest_attach_info (size src_vref * Ki) ;;;
       exec terminate_connection (Framework volume) properties ;;;
       terminate_connection (Framework src_vref) properties)
      (fun ex =>
         exec terminate_connection (Framework src_vref) properties ;;;
         exec terminate_connection (Framework volume) properties ;;;
         exec delete_volume fuel volume ;;;
         raise (KaminarioCinderDriverException (message ex))).
End Clone.

(** The calls of the volume framework modelled above. *)
Inductive operation :=
| CreateVolume (volume : cinder_volume)
| DeleteVolume (fuel : nat) (volume : cinder_volume)
| FailoverHost (volumes : list cinder_volume) (secondary_id : option string)
| UpdateVolumeStats
| ManageExistingGetSize (existing_ref : gmap string string)
| GetVolumeObject (volume : cinder_volume)
| TerminateConnection (volume : volume_arg) (connector : gmap string string).

Definition perform (op : operation) : M unit :=
  match op with
  | CreateVolume v => create_volume v
  | DeleteVolume fuel v => delete_volume fuel v
  | FailoverHost vs sid => exec failover_host vs sid ;;; ret tt
  | UpdateVolumeStats => update_volume_stats
  | ManageExistingGetSize r => exec manage_existing_get_size r ;;; ret tt
  | GetVolumeObject v => exec _get_volume_object v ;;; ret tt
  | TerminateConnection v c => terminate_connection v c
  end.

(** *** Snapshots, resizing, retyping *)

(** A snapshot as the volume framework hands it over: [snapshot.id] and
    [snapshot.volume_id]. *)
Record cinder_snapshot := {
  snap_id : string;
  snap_volume_id : string
}.

(** [get_policy] (lines 653-662) *)
Definition get_policy : M RestObject :=
  try_except
    (let* c := self_client in
     let* rs := search c "retention_policies" [("name", VStr "Best_Effort_Retention")] in
     first_hit rs)
    (fun ex => raise (KaminarioCinderDriverException (message ex))).

(** [create_snapshot] (lines 531-547) *)
Definition create_snapshot (snapshot : cinder_snapshot) : M unit :=
  let vg_name := get_volume_group_name (snap_volume_id snapshot) in
  let snap_name := get_snap_name (snap_id snapshot) in
  let* rpolicy := get_policy in
  try_except
    (let* c := self_client in
     let* rs := search c "volume_groups" [("name", VStr vg_name)] in
     let* vg := first_hit rs in
     let* c := self_client in
     exec save (new c "snapshots"
                  [("short_name", VStr snap_name); ("source", ref vg);
                   ("retention_policy", ref rpolicy);
                   ("is_auto_deleteable", VBool false)]) ;;;
     ret tt)
    (fun ex => raise (KaminarioCinderDriverException (message ex))).

(** [delete_snapshot] (lines 550-561) *)
Definition delete_snapshot (snapshot : cinder_snapshot) : M unit :=
  let snap_name := get_snap_name (snap_id snapshot) in
  try_except
    (let* c := self_client in
     let* snap_rs := search c "snapshots" [("short_name", VStr snap_name)] in
     if negb (Nat.eqb (total snap_rs) 0)
     then let* h := first_hit snap_rs in delete h
     else ret tt)
    (fun ex => raise (KaminarioCinderDriverException (message ex))).

(** [extend_volume] (lines 564-576) *)
Definition extend_volume (volume : cinder_volume) (new_size : Z) : M unit :=
  let vol_name := get_volume_name (id volume) in
  try_except
    (let* c := self_client in
     let* rs := search c "volumes" [("name", VStr vol_name)] in
     let* vol := first_hit rs in
     let vol := setattr vol "size" (VInt (new_size * Mi)) in
     exec save vol ;;;
     ret tt)
    (fun ex => raise (KaminarioCinderDriverException (message ex))).

(** [_get_replica_status] (lines 781-787) *)
Definition _get_replica_status (vg_name : string) : M bool :=
  let* c := self_client in
  let* rs := search c "volume_groups" [("name", VStr vg_name)] in
  let* vg := first_hit rs in
  let* c := self_client in
  let* ssn := search c "replication/sessions" [("local_volume_group", ref vg)] in
  ret (negb (Nat.eqb (total ssn) 0)).

(** [_add_replication] (lines 879-888) *)
Definition _add_replication (volume : cinder_volume) : M unit :=
  let vg_name := get_volume_group_name (id volume) in
  let vol_name := get_volume_name (id volume) in
  let* c := self_client in
  let* rs := search c "volume_groups" [("name", VStr vg_name)] in
  let* vg := first_hit rs in
  let* c := self_client in
  let* rs := search c "volumes" [("name", VStr vol_name)] in
  let* vol := first_hit rs in
  let* r := get replica in
  match r with
  | Some rep => _create_volume_replica volume vg vol (rpo rep)
  | None => raise (AttributeError "rpo")
  end.

(** [_delete_replication] (lines 890-893) *)
Definition _delete_replication (fuel : nat) (volume : cinder_volume) : M unit :=
  let vg_name := get_volume_group_name (id volume) in
  let vol_name := get_volume_name (id volume) in
  _delete_volume_replica fuel volume vg_name vol_name.

(** [retype] (lines 853-877).  The result is [None] where the function
    ends without a [return]. *)
Definition retype (fuel : nat) (volume : cinder_volume) (new_type : option volume_type)
  : M (option bool) :=
  let old_type := vol_type volume in
  let vg_name := get_volume_group_name (id volume) in
  let* old_rep_type := _get_replica_status vg_name in
  let* new_rep_type := _get_is_replica new_type in
  let new_prov_type := _get_is_dedup kaminario_nodedup_substring new_type in
  let old_prov_type := _get_is_dedup kaminario_nodedup_substring old_type in
  if Bool.eqb new_prov_type old_prov_type
  then
    if negb old_rep_type && new_rep_type
    then exec _add_replication volume ;;; ret (Some true)
    else if old_rep_type && negb new_rep_type
    then exec _delete_replication fuel volume ;;; ret (Some true)
    else ret None
  else if negb new_rep_type && negb old_rep_type
  then ret (Some false)
  else ret (Some false).

End Driver.

(** ** Vocabulary of the properties: states reached, what a log shows *)
Module Obs.
Import K2 Eff KrestWrap Driver Names.

(** [st] with [evs] added to its log. *)
Definition extend (evs : list event) (st : state) : state :=
  State (source_array st) (target_array st) (elapse st) (faults st)
        (source_locked st) (target_locked st)
        (trace st ++ evs)%list (client st) (target st) (replica st) (conf st) (stats st).

(** One attempt of [_request] as the log shows it. *)
Definition attempt (ep : endpoint) (r : request) (out : outcome) : list event :=
  [Acquire ep; Call ep r out; Release ep].

(** The state after an attempt that the network failed with [e]. *)
Definition failed_attempt (ep : endpoint) (r : request) (e : exn) (st : state) : state :=
  extend (attempt ep r (Failed e)) (set_faults (tail (faults st)) st).

(** The state after an attempt that the array answered with [resp],
    becoming [a]. *)
Definition answered (ep : endpoint) (r : request) (resp : response) (a : array)
                    (st : state) : state :=
  extend (attempt ep r (Answered resp))
         (set_faults (tail (faults st)) (set_array ep a st)).

Fixpoint after_failures (ep : endpoint) (r : request) (es : list exn) (st : state) : state :=
  match es with
  | [] => st
  | e :: es' => after_failures ep r es' (failed_attempt ep r e st)
  end.

(** An HTTP 400 error whose body has one of the busy markers. *)
Definition transient_busy (e : exn) : bool :=
  match e with
  | K2HTTPError _ code text => _should_retry code text
  | _ => false
  end.

(** What [_request] raises for a failure [e] of the transport. *)
Definition surfaced (e : exn) : exn :=
  match e with
  | K2HTTPError _ code text =>
      if _should_retry code text then KaminarioRetryableException text else e
  | _ => e
  end.

Definition is_retryable (e : exn) : bool :=
  match e with KaminarioRetryableException _ => true | _ => false end.

(** The number of exchanges with an array that a log records. *)
Definition attempts (evs : list event) : nat :=
  List.length (List.filter (fun ev => match ev with Call _ _ _ => true | _ => false end) evs).

(** The network has no failure in store and no lock is held. *)
Definition quiet (st : state) : Prop :=
  faults st = [] /\ source_locked st = false /\ target_locked st = false.

(** The next exchange will reach the array. *)
Definition reaches_array (st : state) : bool :=
  match faults st with Some _ :: _ => false | _ => true end.

(** The objects of a collection that a search with [filters] finds. *)
Definition found (ep : endpoint) (url : string) (filters : list (string * value))
                 (st : state) : list k2_object :=
  List.filter (accepts filters) (collection (array_of ep st) url).

Definition result_set (ep : endpoint) (url : string) (l : list k2_object) : ResultSet :=
  {| hits := List.map (of_k2 ep url) l; total := List.length l |}.

(** *** Failover *)

Definition by_name (name : string) : list (string * value) := [("name", VStr name)].

(** The name of the target-side volume and session of a volume. *)
Definition target_volume_name (v : cinder_volume) : string :=
  get_rep_name (get_volume_name (id v)).

Definition target_session_name (v : cinder_volume) : string :=
  get_rep_name (get_session_name (id v)).

Definition has_target_volume (t : endpoint) (st : state) (v : cinder_volume) : bool :=
  negb (Nat.eqb (List.length (found t "volumes" (by_name (target_volume_name v)) st)) 0).

(** The update that [failover_host] is to report for a volume. *)
Definition expected_update (t : endpoint) (st : state) (v : cinder_volume) : volume_update :=
  if has_target_volume t st v
  then {| volume_id := id v; updates := [("replication_status", "failed-over")] |}
  else {| volume_id := id v; updates := [("status", "error")] |}.

Definition sessions (t : endpoint) (st : state) : list k2_object :=
  collection (array_of t st) "replication/sessions".

(** [o'] is [o], or [o] promoted from [in_sync] to [failed_over]. *)
Definition promoted (o o' : k2_object) : Prop :=
  oid o' = oid o
  /\ (fields o' = fields o
      \/ (fields o !! "state" = Some (VStr "in_sync")
          /\ fields o' = <[ "state" := VStr "failed_over" ]> (fields o))).

(** A [secondary_id] that passes the guard of [failover_host]. *)
Definition accepted_secondary (rep : Replication) (secondary_id : option string) : Prop :=
  secondary_id = None \/ secondary_id = Some "" \/ secondary_id = Some (backend_id rep).

(** *** Which endpoint the driver talks to *)

Definition on_endpoint (t : endpoint) (ev : event) : Prop :=
  match ev with
  | Acquire ep | Release ep | Call ep _ _ => ep = t
  | Sleep _ => True
  end.

(** From [st] to [st'] the driver's [client] and [target] are (still)
    the endpoint [t], and everything logged in between was done on [t]. *)
Definition stays (t : endpoint) (st st' : state) : Prop :=
  client st' = t /\ target st' = Some t
  /\ exists evs, trace st' = (trace st ++ evs)%list /\ Forall (on_endpoint t) evs.

(** Started with [client] and [target] both [t], the computation [m]
    stays on [t], and a value it returns satisfies [Q]. *)
Definition keeps {A} (t : endpoint) (m : M A) (Q : A -> Prop) : Prop :=
  forall st, client st = t -> target st = Some t ->
             stays t st (m st).2
             /\ match (m st).1 with Ok a => Q a | _ => True end.

Definition handle_on (t : endpoint) (o : RestObject) : Prop := ro_ep o = t.

Definition hits_on (t : endpoint) (rs : ResultSet) : Prop :=
  Forall (handle_on t) (hits rs).

(** *** Rollback *)

(** The requests that a log records, in order. *)
Definition calls (evs : list event) : list (endpoint * request) :=
  omap (fun ev => match ev with Call ep r _ => Some (ep, r) | _ => None end) evs.

(** What [_delete_by_ref] sends: the search by name, then one deletion
    per hit. *)
Definition deletion (ep : endpoint) (url : string) (name : value)
                    (found_objects : list k2_object) : list (endpoint * request) :=
  (ep, Search url [("name", name)])
    :: ((fun o => (ep, Delete url (oid o))) <$> found_objects).

Definition without (ids : list nat) (l : list k2_object) : list k2_object :=
  List.filter (fun o => negb (bool_decide (oid o ∈ ids))) l.

(** Every collection of [st'] is the collection of [st] less some
    objects. *)
Definition shrunk (st st' : state) : Prop :=
  forall ep url, exists ids,
    collection (array_of ep st') url = without ids (collection (array_of ep st) url).

(** From [st] to [st'] the driver sent the requests [cs], all answered,
    which only removed objects; the driver's attributes are unchanged and
    the network is quiet. *)
Definition cleaned (st st' : state) (cs : list (endpoint * request)) : Prop :=
  quiet st' /\ client st' = client st /\ target st' = target st
  /\ replica st' = replica st /\ shrunk st st'
  /\ exists evs, trace st' = (trace st ++ evs)%list /\ calls evs = cs.

(** The request that [obj.save()] sends. *)
Definition save_request (o : RestObject) : request :=
  match ro_id o with
  | None => Create (ro_url o) (ro_attrs o)
  | Some i => Update (ro_url o) i (ro_attrs o)
  end.

(** No object of the collection has the name. *)
Definition absent (ep : endpoint) (url : string) (name : value) (st : state) : Prop :=
  found ep url [("name", name)] st = [].

(** The locks are free and the next exchange reaches the array. *)
Definition ready (st : state) : Prop :=
  source_locked st = false /\ target_locked st = false /\ reaches_array st = true.

(** *** The teardown handshake, read off a log *)

Inductive handshake_phase := AwaitSuspended | AwaitIdle | MayDelete | Violated.

(** What is known after some prefix of a log: how far the handshake has
    come, and the identifier of the target session being watched. *)
Record watcher := {
  phase : handshake_phase;
  watched : option nat
}.

Definition sessions_url : string := "replication/sessions".

(** A state of the target session, seen in an answer of the array. *)
Definition observe (s : option value) (p : handshake_phase) : handshake_phase :=
  match p with
  | AwaitSuspended => if bool_decide (s = Some (VStr "suspended")) then AwaitIdle else p
  | AwaitIdle => if bool_decide (s = Some (VStr "idle")) then MayDelete else p
  | _ => p
  end.

(** One event of the log.  The target session is the first hit of the
    search by its name on the endpoint [t]; its state is seen in that
    answer and in the answers to refreshing it.  A deletion of a session,
    attempted on either endpoint before the target session has been seen
    [suspended] and then [idle], is a violation. *)
Definition watch (t : endpoint) (rname : string) (w : watcher) (ev : event) : watcher :=
  match phase w with
  | MayDelete | Violated => w
  | _ =>
      match ev with
      | Call ep (Search url filters) (Answered (Hits (o :: _))) =>
          if bool_decide (ep = t /\ url = sessions_url /\ filters = by_name rname)
          then {| phase := observe (fields o !! "state") (phase w);
                  watched := Some (oid o) |}
          else w
      | Call ep (Refresh url i) (Answered (Object o)) =>
          if bool_decide (ep = t /\ url = sessions_url /\ watched w = Some i)
          then {| phase := observe (fields o !! "state") (phase w);
                  watched := watched w |}
          else w
      | Call _ (Delete url _) _ =>
          if bool_decide (url = sessions_url)
          then {| phase := Violated; watched := watched w |}
          else w
      | _ => w
      end
  end.

Definition unwatched : watcher := {| phase := AwaitSuspended; watched := None |}.

Definition handshake (t : endpoint) (rname : string) (evs : list event) : watcher :=
  fold_left (watch t rname) evs unwatched.

(** Run from a state whose [target] is [t] and from a log read up to
    [w], the computation keeps [target], only adds to the log, and never
    brings the reading to [Violated]; a value it returns satisfies [Q]
    with the new reading. *)
Definition tracks {A} (t : endpoint) (rname : string) (m : M A) (w : watcher)
                  (Q : A -> watcher -> Prop) : Prop :=
  forall st, target st = Some t ->
    target (m st).2 = Some t
    /\ exists evs,
         trace (m st).2 = (trace st ++ evs)%list
         /\ let w' := fold_left (watch t rname) evs w in
            match (m st).1 with
            | Ok a => Q a w'
            | _ => phase w' <> Violated
            end.

(** A fake replica pair for one second: the target session [rname] takes
    the state that the source session [name] had. *)
Definition mirror_state (name rname : string) (aa : array * array) : array * array :=
  match List.find (accepts (by_name name)) (collection aa.1 sessions_url) with
  | Some s =>
      match fields s !! "state" with
      | Some v =>
          (aa.1,
           set_collection sessions_url
             (List.map (fun o => if accepts (by_name rname) o
                                 then {| oid := oid o; fields := <[ "state" := v ]> (fields o) |}
                                 else o)
                       (collection aa.2 sessions_url))
             aa.2)
      | None => aa
      end
  | None => aa
  end.

(** An event that leaves the reading [w] as it is. *)
Definition silent (t : endpoint) (rname : string) (w : watcher) (ev : event) : Prop :=
  watch t rname w ev = w.

(** A request that is not the deletion of a session. *)
Definition harmless (r : request) : Prop :=
  match r with Delete url _ => url <> sessions_url | _ => True end.

(** A request that may be sent under the reading [w]. *)
Definition permitted (w : watcher) (r : request) : Prop :=
  phase w <> Violated /\ (harmless r \/ phase w = MayDelete).

(** The exchanges that an array answered and the pauses, of a log. *)
Definition completed (ev : event) : bool :=
  match ev with
  | Call _ _ (Answered _) | Sleep _ => true
  | _ => false
  end.

Definition answers (evs : list event) : list event := List.filter completed evs.

(** Run with [client] being [c] and [target] being [t], the computation
    keeps both and only adds to the log; when it returns [a], [Q a l]
    holds of the answered exchanges and pauses [l] it added. *)
Definition emits {A} (c t : endpoint) (m : M A) (Q : A -> list event -> Prop) : Prop :=
  forall st, client st = c -> target st = Some t ->
    client (m st).2 = c /\ target (m st).2 = Some t
    /\ exists evs,
         trace (m st).2 = (trace st ++ evs)%list
         /\ match (m st).1 with Ok a => Q a (answers evs) | _ => True end.

(** One round of the polling loop: the session [i] is fetched again, with
    answer [s], and a second passes. *)
Definition poll (ep : endpoint) (i : nat) (s : k2_object) : list event :=
  [Call ep (Refresh sessions_url i) (Answered (Object s)); Sleep 1].

Definition polls (ep : endpoint) (i : nat) (seen : list k2_object) : list event :=
  List.flat_map (poll ep i) seen.

(** The polling went on exactly until [status] was seen: the state held
    before each round is not [status], and the last one seen is. *)
Fixpoint awaited (status : string) (cached : option value) (seen : list k2_object) : Prop :=
  match seen with
  | [] => cached = Some (VStr status)
  | s :: rest => cached <> Some (VStr status) /\ awaited status (fields s !! "state") rest
  end.

(** The answered exchanges and pauses of a teardown that returned, with
    [client] being [c] and [target] being [t]: both sessions are looked
    up; the source session is set to [suspended] and the target session
    polled until it is seen [suspended]; the source session is set to
    [idle] and the target session polled until it is seen [idle]; then
    the target session and the source session are deleted; [rest] is the
    removal of the snapshots, the target volume and the target group. *)
Definition teardown_log (c t : endpoint) (volume : cinder_volume) (l : list event) : Prop :=
  exists (s : k2_object) (ls : list k2_object) (o : k2_object) (lo : list k2_object)
         (s1 s2 : k2_object) (seen1 seen2 : list k2_object) (rest : list event),
    l = ([Call c (Search sessions_url (by_name (get_session_name (id volume))))
               (Answered (Hits (s :: ls)));
          Call t (Search sessions_url (by_name (target_session_name volume)))
               (Answered (Hits (o :: lo)));
          Call c (Update sessions_url (oid s) (<["state" := VStr "suspended"]> (fields s)))
               (Answered (Object s1))]
         ++ polls t (oid o) seen1
         ++ [Call c (Update sessions_url (oid s) (<["state" := VStr "idle"]> (fields s1)))
                  (Answered (Object s2))]
         ++ polls t (oid o) seen2
         ++ [Call t (Delete sessions_url (oid o)) (Answered Done);
             Call c (Delete sessions_url (oid s)) (Answered Done)]
         ++ rest)%list
    /\ awaited "suspended" (fields o !! "state") seen1
    /\ awaited "idle" (Some (VStr "suspended")) seen2.

(** The driver instance after a sequence of calls, whatever their
    outcomes. *)
Fixpoint perform_all (ops : list operation) (st : state) : state :=
  match ops with
  | [] => st
  | op :: rest => perform_all rest (perform op st).2
  end.

(** A driver instance with a replica, talking to two given arrays over a
    network with the given failures in store. *)
Definition the_replica : Replication :=
  {| backend_id := "10.0.0.2"; login := "admin"; password := "secret"; rpo := VInt 60 |}.

Definition the_conf (auto : bool) : configuration :=
  {| auto_calc_max_oversubscription_ratio := auto;
     max_over_subscription_ratio := 20 |}.

Definition driver_on (src tgt : array) (fs : list (option exn)) : state :=
  State src tgt (fun aa => aa) fs false false [] Source (Some Target)
        (Some the_replica) (the_conf true) None.

Definition empty_array : array := Array ∅ 0.

Definition busy : exn := K2HTTPError "400 Client Error" 400 "MC_ERR_BUSY".

Definition volume_object (i : nat) (name : string) (sz : Z) : k2_object :=
  {| oid := i; fields := list_to_map [("name", VStr name); ("size", VInt sz)] |}.

(** An array with one volume. *)
Definition one_volume_array (name : string) (sz : Z) : array :=
  {| objects := {[ "volumes" := [volume_object 0 name sz] ]}; next_id := 1 |}.

(** A replica array holding the target volume and session of volume [a]. *)
Definition replica_target_array : array :=
  {| objects :=
       {[ "volumes" := [volume_object 0 "rcv-a" 1048576];
          "replication/sessions" :=
            [{| oid := 1;
                fields := list_to_map [("name", VStr "rssn-a"); ("state", VStr "in_sync")] |}] ]};
     next_id := 2 |}.

Definition plain_volume (vid : string) : cinder_volume :=
  {| id := vid; size := 1; vol_type := None; replication_status := "enabled" |}.

(** A volume whose type asks for replication. *)
Definition replicated_volume : cinder_volume :=
  {| id := "v1"; size := 1;
     vol_type := Some {| vt_name := "replicated";
                         extra_specs := Some {[ "kaminario:replication" := "enabled" ]} |};
     replication_status := "enabled" |}.

(** A source array that knows the replica as its peer. *)
Definition peer_array : array :=
  {| objects :=
       {[ "replication/peer_k2arrays" :=
            [{| oid := 0; fields := {[ "mgmt_host" := VStr "10.0.0.2" ]} |}] ]};
     next_id := 1 |}.

Definition server_error (text : string) : exn := K2HTTPError text 500 text.

(** An array whose volume [cv-src] is mapped to a host. *)
Definition attached_volume_array : array :=
  {| objects :=
       {[ "volumes" := [volume_object 0 "cv-src" 1048576];
          "hosts" := [{| oid := 1; fields := {[ "name" := VStr "compute1" ]} |}];
          "mappings" := [{| oid := 2;
                            fields := list_to_map [("volume", VRef 0); ("host", VRef 1);
                                                   ("lun", VInt 1)] |}] ]};
     next_id := 3 |}.

(** An array reporting free=100, total=1000 and 50 provisioned volumes. *)
Definition capacity_object (provisioned : Z) : k2_object :=
  {| oid := 0;
     fields := list_to_map [("free", VInt 100); ("total", VInt 1000);
                            ("provisioned", VInt provisioned);
                            ("provisioned_volumes", VInt 50)] |}.

Definition capacity_array (provisioned : Z) : array :=
  {| objects := {[ "system/capacity" := [capacity_object provisioned] ]}; next_id := 1 |}.

Definition session_object (i : nat) (name state : string) : k2_object :=
  {| oid := i; fields := list_to_map [("name", VStr name); ("state", VStr state)] |}.

(** A replica pair holding the sessions of volume [v1], where the target
    session takes over the state of the source session one second late. *)
Definition lagging_pair : state :=
  State {| objects := {[ "replication/sessions" := [session_object 0 "ssn-v1" "in_sync"] ]};
           next_id := 1 |}
        {| objects := {[ "replication/sessions" := [session_object 0 "rssn-v1" "in_sync"] ]};
           next_id := 1 |}
        (mirror_state "ssn-v1" "rssn-v1") [] false false [] Source (Some Target)
        (Some the_replica) (the_conf true) None.

(** *** What a call sends *)

(** Events that change no array: taking and releasing a lock, a search,
    a refresh, and an exchange that failed. *)
Definition inert (ev : event) : Prop :=
  match ev with
  | Acquire _ | Release _ => True
  | Call _ (Search _ _) _ | Call _ (Refresh _ _) _ => True
  | Call _ _ (Failed _) => True
  | _ => False
  end.

(** The events of a computation that sends only requests in [R] and
    never pauses. *)
Definition allowing (R : request -> Prop) (ev : event) : Prop :=
  match ev with
  | Call _ r _ => R r
  | Sleep _ => False
  | _ => True
  end.

Definition arrays (st : state) : array * array := (source_array st, target_array st).

(** On every run, the computation [m] only adds to the log, sends only
    requests in [R], leaves the arrays as they are unless one of its
    requests that can change an array was answered, and returns only
    values satisfying [Q]. *)
Definition sends {A} (R : request -> Prop) (m : M A) (Q : A -> Prop) : Prop :=
  forall st, exists evs,
    trace (m st).2 = (trace st ++ evs)%list
    /\ Forall (allowing R) evs
    /\ (Forall inert evs -> arrays (m st).2 = arrays st)
    /\ match (m st).1 with Ok a => Q a | _ => True end.

Definition is_search (r : request) : Prop :=
  match r with Search _ _ => True | _ => False end.

(** The deletion of an object of one of the collections [urls]. *)
Definition deletes_from (urls : list string) (r : request) : Prop :=
  match r with Delete url _ => url ∈ urls | _ => False end.

(** An update of a replication session that sets its state to [state]. *)
Definition sets_session (state : string) (r : request) : Prop :=
  match r with
  | Update url _ attrs => url = sessions_url /\ attrs !! "state" = Some (VStr state)
  | _ => False
  end.

(** The outcomes of a driver call that reports its failures as
    [KaminarioCinderDriverException]. *)
Definition driver_outcome {A} (r : result A) : Prop :=
  match r with
  | Raise (KaminarioCinderDriverException _) => True
  | Raise _ => False
  | _ => True
  end.

(** On every run, [m] sends nothing but searches and leaves both arrays
    as they are. *)
Definition reads_only {A} (m : M A) : Prop :=
  forall st,
    arrays (m st).2 = arrays st
    /\ exists evs, trace (m st).2 = (trace st ++ evs)%list
                   /\ Forall (allowing is_search) evs.

(** *** Arrays before and after *)

(** The array [a] after it stored the new object [o] in [url]. *)
Definition added (url : string) (o : k2_object) (a : array) : array :=
  {| objects := <[url := (collection a url ++ [o])%list]> (objects a);
     next_id := S (next_id a) |}.

(** Every identifier in use is below the next one to be handed out. *)
Definition fresh_ids (a : array) : Prop :=
  forall url o, o ∈ collection a url -> oid o < next_id a.

(** The two arrays hold the same objects. *)
Definition same_objects (a b : array) : Prop :=
  forall url, collection a url = collection b url.

(** The group and the volume that [create_volume] stores for [volume] in
    an array whose next identifier is [n]. *)
Definition group_of (volume : cinder_volume) (n : nat) : k2_object :=
  {| oid := n;
     fields := list_to_map
                 [("name", VStr (get_volume_group_name (id volume)));
                  ("quota", VInt 0);
                  ("is_dedup", VBool (_get_is_dedup kaminario_nodedup_substring
                                                    (vol_type volume)))] |}.

Definition volume_of (volume : cinder_volume) (n : nat) : k2_object :=
  {| oid := S n;
     fields := list_to_map
                 [("name", VStr (get_volume_name (id volume)));
                  ("size", VInt (size volume * Mi));
                  ("volume_group", VRef n)] |}.

(** The array after the deletion of the first object of [url] that a
    search with [filters] finds, if there is one. *)
Definition without_first_hit (url : string) (filters : list (string * value)) (a : array)
  : array :=
  match List.filter (accepts filters) (collection a url) with
  | [] => a
  | o :: _ =>
      set_collection url (List.filter (fun x => negb (has_id (oid o) x)) (collection a url)) a
  end.

(** The snapshot that [create_snapshot] stores, of the group [g] under
    the retention policy [p], in an array whose next identifier is [n]. *)
Definition snapshot_of (snapshot : cinder_snapshot) (g p n : nat) : k2_object :=
  {| oid := n;
     fields := list_to_map
                 [("short_name", VStr (get_snap_name (snap_id snapshot)));
                  ("source", VRef g);
                  ("retention_policy", VRef p);
                  ("is_auto_deleteable", VBool false)] |}.

Definition by_short_name (name : string) : list (string * value) :=
  [("short_name", VStr name)].

(** The search of [get_policy]. *)
Definition best_effort : list (string * value) := by_name "Best_Effort_Retention".

(** What [hits[0]] of an empty result set raises, as the driver reports it. *)
Definition no_hit : exn := KaminarioCinderDriverException (message IndexError).

(** The array [a] after [terminate_connection] detached the array volume
    [vol] from the host named [host_name]: the first mapping of the volume
    to the first host of that name is removed, and then the host, if no
    mapping of it is left. *)
Definition detached (vol : nat) (host_name : string) (a : array) : array :=
  match List.filter (accepts (by_name host_name)) (collection a "hosts") with
  | [] => a
  | h :: _ =>
      let a1 := without_first_hit "mappings" [("volume", VRef vol); ("host", VRef (oid h))] a in
      match List.filter (accepts [("host", VRef (oid h))]) (collection a1 "mappings") with
      | [] =>
          set_collection "hosts"
            (List.filter (fun x => negb (has_id (oid h) x)) (collection a1 "hosts")) a1
      | _ :: _ => a1
      end
  end.

End Obs.

(** * Properties *)

Import PyStr Names K2 Eff KrestWrap Driver Obs.

(** ** Name derivation *)

Lemma append_injective (p s1 s2 : string) : p +:+ s1 = p +:+ s2 -> s1 = s2.
Proof.
  induction p as [|c p IH]; simpl; [auto|].
  intros H. injection H as H. auto.
Qed.

(** C9: the five derived names are the fixed prefix followed by the
    identifier, so different identifiers give different names of each kind;
    the replication name is ["r"] followed by the name and so begins with
    ["r"]. *)
Theorem derived_names_injective (id1 id2 name : string) (Hne : id1 <> id2) :
  (get_volume_group_name id1 = "cvg-" +:+ id1
   /\ get_volume_name id1 = "cv-" +:+ id1
   /\ get_session_name id1 = "ssn-" +:+ id1
   /\ get_snap_name id1 = "cs-" +:+ id1
   /\ get_view_name id1 = "cview-" +:+ id1)
  /\ (get_volume_group_name id1 <> get_volume_group_name id2
      /\ get_volume_name id1 <> get_volume_name id2
      /\ get_session_name id1 <> get_session_name id2
      /\ get_snap_name id1 <> get_snap_name id2
      /\ get_view_name id1 <> get_view_name id2)
  /\ get_rep_name name = "r" +:+ name
  /\ starts_with "r" (get_rep_name name) = true.
Proof.
  split; [repeat split|].
  split; [|split; [reflexivity|]].
  - unfold get_volume_group_name, get_volume_name, get_session_name,
      get_snap_name, get_view_name.
    repeat split; intros H; apply append_injective in H; contradiction.
  - unfold get_rep_name. simpl. destruct (ascii_dec "r" "r"); [reflexivity|contradiction].
Qed.

Lemma derived_names_injective_witness :
  "a" <> "b"
  /\ get_volume_name "a" <> get_volume_name "b"
  /\ starts_with "r" (get_rep_name "cv-a") = true.
Proof.
  split; [discriminate|].
  destruct (derived_names_injective "a" "b" "cv-a" ltac:(discriminate))
    as (_ & (_ & Hv & _) & _ & Hr).
  split; assumption.
Defined.

(** ** Host names *)

Lemma slice_to_length (n : nat) (s : string) : String.length (slice_to n s) <= n.
Proof.
  revert s; induction n as [|n IH]; intros [|c s]; simpl; try lia.
  specialize (IH s). lia.
Qed.

Lemma slice_to_all_chars (p : ascii -> bool) (n : nat) (s : string) :
  all_chars p s = true -> all_chars p (slice_to n s) = true.
Proof.
  revert s; induction n as [|n IH]; intros [|c s]; simpl; auto.
  intros [Hc Hs]%andb_prop. rewrite Hc. simpl. auto.
Qed.

Lemma slice_to_short (n : nat) (s : string) :
  String.length s <= n -> slice_to n s = s.
Proof.
  revert s; induction n as [|n IH]; intros [|c s]; simpl; try reflexivity; try lia.
  intros H. f_equal. apply IH. lia.
Qed.

Lemma char_at_slice_to (i n : nat) (s : string) :
  char_at i (slice_to n s) = if (i <? n)%nat then char_at i s else None.
Proof.
  revert i s; induction n as [|n IH]; intros [|i] [|c s]; simpl;
    try reflexivity.
  - change (S i <? S n)%nat with (i <? n)%nat. destruct (i <? n)%nat; reflexivity.
  - change (S i <? S n)%nat with (i <? n)%nat. apply IH.
Qed.

Lemma char_at_map_chars (f : ascii -> ascii) (i : nat) (s : string) :
  char_at i (map_chars f s) = f <$> char_at i s.
Proof.
  revert i; induction s as [|c s IH]; intros [|i]; simpl; auto.
Qed.

Lemma sanitize_char_allowed (c : ascii) : allowed_char (sanitize_char c) = true.
Proof.
  unfold sanitize_char. destruct (allowed_char c) eqn:E; [exact E|reflexivity].
Qed.

Lemma re_sub_all_allowed (s : string) : all_chars allowed_char (re_sub_disallowed s) = true.
Proof.
  unfold re_sub_disallowed.
  induction s as [|c s IH]; simpl; [reflexivity|].
  rewrite sanitize_char_allowed. exact IH.
Qed.

Lemma re_sub_fixed (s : string) :
  all_chars allowed_char s = true -> re_sub_disallowed s = s.
Proof.
  unfold re_sub_disallowed.
  induction s as [|c s IH]; simpl; [reflexivity|].
  intros [Hc Hs]%andb_prop. unfold sanitize_char. rewrite Hc.
  f_equal. apply IH, Hs.
Qed.


(** ** The resilient client *)

Lemma extend_extend (e1 e2 : list event) (st : state) :
  extend e2 (extend e1 st) = extend (e1 ++ e2) st.
Proof. unfold extend; simpl. rewrite <- app_assoc. reflexivity. Qed.

Lemma request_body_failed (ep : endpoint) (r : request) (st : state)
      (e : exn) (rest : list (option exn)) :
  locked st ep = false ->
  faults st = Some e :: rest ->
  _request_body ep r st = (Raise (surfaced e), failed_attempt ep r e st).
Proof.
  intros Hl Hf. destruct st as [sa ta el fs sl tl tr c t rp cf ss]; simpl in *; subst fs.
  unfold _request_body, try_finally, try_except, bind, krestlock_acquire,
    krestlock_release, transport, modify, raise, failed_attempt, attempt, extend, log,
    set_faults, set_locked, locked.
  destruct ep; simpl in *; subst; simpl;
    destruct e; simpl; try destruct (_should_retry _ _); simpl;
    rewrite <- ?app_assoc; reflexivity.
Qed.

Lemma request_body_answered (ep : endpoint) (r : request) (st : state)
      (resp : response) (a : array) :
  locked st ep = false ->
  reaches_array st = true ->
  serve r (array_of ep st) = Some (resp, a) ->
  _request_body ep r st = (Ok resp, answered ep r resp a st).
Proof.
  intros Hl Hf Hs. destruct st as [sa ta el fs sl tl tr c t rp cf ss]; simpl in *.
  unfold _request_body, try_finally, try_except, bind, krestlock_acquire,
    krestlock_release, transport, modify, raise, answered, attempt, extend, log,
    set_faults, set_array, set_arrays, set_locked, locked, reaches_array in *.
  destruct ep; simpl in *; subst; simpl;
    (destruct fs as [|[e|] fs]; [| discriminate |]); simpl; rewrite Hs; simpl;
    rewrite <- ?app_assoc; reflexivity.
Qed.

Lemma request_body_rejected (ep : endpoint) (r : request) (st : state) :
  locked st ep = false ->
  reaches_array st = true ->
  serve r (array_of ep st) = None ->
  _request_body ep r st = (Raise not_found, failed_attempt ep r not_found st).
Proof.
  intros Hl Hf Hs. destruct st as [sa ta el fs sl tl tr c t rp cf ss]; simpl in *.
  unfold _request_body, try_finally, try_except, bind, krestlock_acquire,
    krestlock_release, transport, modify, raise, failed_attempt, attempt, extend, log,
    set_faults, set_array, set_arrays, set_locked, locked, reaches_array in *.
  destruct ep; simpl in *; subst; simpl;
    (destruct fs as [|[e|] fs]; [| discriminate |]); simpl; rewrite Hs; simpl;
    rewrite <- ?app_assoc; reflexivity.
Qed.

Lemma failed_attempt_fields (ep : endpoint) (r : request) (e : exn) (st : state) :
  faults (failed_attempt ep r e st) = tail (faults st)
  /\ (forall ep', locked (failed_attempt ep r e st) ep' = locked st ep')
  /\ trace (failed_attempt ep r e st) = (trace st ++ attempt ep r (Failed e))%list
  /\ (forall ep', array_of ep' (failed_attempt ep r e st) = array_of ep' st)
  /\ client (failed_attempt ep r e st) = client st
  /\ target (failed_attempt ep r e st) = target st
  /\ replica (failed_attempt ep r e st) = replica st.
Proof. repeat split; intros []; reflexivity. Qed.

Lemma after_failures_fields (ep : endpoint) (r : request) (es : list exn) (st : state) :
  faults (after_failures ep r es st) = drop (List.length es) (faults st)
  /\ (forall ep', locked (after_failures ep r es st) ep' = locked st ep')
  /\ trace (after_failures ep r es st)
     = (trace st ++ List.flat_map (fun e => attempt ep r (Failed e)) es)%list
  /\ (forall ep', array_of ep' (after_failures ep r es st) = array_of ep' st)
  /\ client (after_failures ep r es st) = client st
  /\ target (after_failures ep r es st) = target st
  /\ replica (after_failures ep r es st) = replica st.
Proof.
  revert st; induction es as [|e es IH]; intros st.
  - simpl. rewrite app_nil_r. repeat split.
  - cbn [after_failures]. destruct (IH (failed_attempt ep r e st)) as (F & L & T & A & C & G & R).
    destruct (failed_attempt_fields ep r e st) as (F' & L' & T' & A' & C' & G' & R').
    repeat split.
    + rewrite F, F'. destruct (faults st); simpl; rewrite ?drop_nil; reflexivity.
    + intros ep'. rewrite L, L'. reflexivity.
    + rewrite T, T'. cbn [List.flat_map]. rewrite <- app_assoc. reflexivity.
    + intros ep'. rewrite A, A'. reflexivity.
    + congruence.
    + congruence.
    + congruence.
Qed.

Lemma retry_after_failures (ep : endpoint) (r : request) (es : list exn) :
  forall (again : nat) (st : state) (rest : list (option exn)),
    List.length es <= again ->
    locked st ep = false ->
    faults st = ((Some <$> es) ++ rest)%list ->
    Forall (fun e => transient_busy e = true) es ->
    retry_attempts again (_request_body ep r) st
    = retry_attempts (again - List.length es) (_request_body ep r)
                     (after_failures ep r es st).
Proof.
  induction es as [|e es IH]; intros again st rest Hlen Hl Hf Hb.
  - simpl. rewrite Nat.sub_0_r. reflexivity.
  - destruct again as [|again]; [simpl in Hlen; lia|].
    apply Forall_cons in Hb as [He Hb].
    cbn [retry_attempts after_failures List.length Nat.sub].
    rewrite (request_body_failed ep r st e _ Hl Hf).
    destruct e as [m code text| | | | | | |]; try discriminate He.
    simpl in He. cbn [surfaced]. rewrite He.
    destruct (failed_attempt_fields ep r (K2HTTPError m code text) st) as (F & L & _).
    apply (IH again _ rest).
    + simpl in Hlen. lia.
    + rewrite L. exact Hl.
    + rewrite F, Hf. reflexivity.
    + exact Hb.
Qed.

Lemma attempts_of_failures (ep : endpoint) (r : request) (es : list exn) :
  attempts (List.flat_map (fun e => attempt ep r (Failed e)) es) = List.length es.
Proof.
  unfold attempts. induction es as [|e es IH]; [reflexivity|].
  simpl in *. rewrite IH. reflexivity.
Qed.



Example two_busy_then_answered :
  let run := _request Source (Search "volumes" [])
               (driver_on empty_array empty_array [Some busy; Some busy]) in
  run.1 = Ok (Hits []) /\ attempts (trace run.2) = 3.
Proof. vm_compute. split; reflexivity. Qed.

Example five_busy_then_failure :
  let run := _request Source (Search "volumes" [])
               (driver_on empty_array empty_array (replicate 7 (Some busy))) in
  run.1 = Raise (KaminarioRetryableException "MC_ERR_BUSY")
  /\ attempts (trace run.2) = 5 /\ List.length (faults run.2) = 2.
Proof. vm_compute. repeat split; reflexivity. Qed.

Example other_error_not_retried :
  let e := K2HTTPError "500 Server Error" 500 "MC_ERR_BUSY" in
  let run := _request Source (Search "volumes" [])
               (driver_on empty_array empty_array [Some e; None]) in
  run.1 = Raise e /\ attempts (trace run.2) = 1.
Proof. vm_compute. split; reflexivity. Qed.

(** ** Running the driver on a quiet network *)

Lemma request_answered (ep : endpoint) (r : request) (st : state)
      (resp : response) (a : array) :
  locked st ep = false ->
  reaches_array st = true ->
  serve r (array_of ep st) = Some (resp, a) ->
  _request ep r st = (Ok resp, answered ep r resp a st).
Proof.
  intros Hl Hr Hs. unfold _request, retry. cbn [MAX_K2_RETRY Nat.pred retry_attempts].
  rewrite (request_body_answered ep r st resp a Hl Hr Hs). reflexivity.
Qed.

Lemma request_failed (ep : endpoint) (r : request) (st : state)
      (e : exn) (rest : list (option exn)) :
  locked st ep = false ->
  faults st = Some e :: rest ->
  transient_busy e = false ->
  is_retryable e = false ->
  _request ep r st = (Raise e, failed_attempt ep r e st).
Proof.
  intros Hl Hf Hb Hr. unfold _request, retry. cbn [MAX_K2_RETRY Nat.pred retry_attempts].
  rewrite (request_body_failed ep r st e rest Hl Hf).
  assert (Hs : surfaced e = e).
  { destruct e; try reflexivity. simpl in *. rewrite Hb. reflexivity. }
  rewrite Hs. destruct e; try reflexivity; discriminate Hr.
Qed.

Lemma quiet_locked (st : state) (ep : endpoint) : quiet st -> locked st ep = false.
Proof. intros (_ & Hs & Ht). destruct ep; assumption. Qed.

Lemma quiet_reaches (st : state) : quiet st -> reaches_array st = true.
Proof. intros (Hf & _). unfold reaches_array. rewrite Hf. reflexivity. Qed.

Lemma quiet_answered (ep : endpoint) (r : request) (resp : response) (a : array)
      (st : state) :
  quiet st -> quiet (answered ep r resp a st).
Proof.
  intros (Hf & Hs & Ht). unfold quiet. destruct ep; simpl; rewrite Hf; auto.
Qed.

Lemma quiet_set_client (ep : endpoint) (st : state) : quiet st -> quiet (set_client ep st).
Proof. intros H; exact H. Qed.

Create HintDb k2 discriminated.
#[export] Hint Resolve quiet_locked quiet_reaches quiet_answered quiet_set_client : k2.

Lemma search_answered (ep : endpoint) (url : string) (filters : list (string * value))
      (st : state) :
  locked st ep = false ->
  reaches_array st = true ->
  search ep url filters st
  = (Ok (result_set ep url (found ep url filters st)),
     answered ep (Search url filters) (Hits (found ep url filters st)) (array_of ep st) st).
Proof.
  intros Hl Hr. unfold search, bind.
  rewrite (request_answered ep (Search url filters) st _ _ Hl Hr eq_refl). reflexivity.
Qed.

Lemma search_quiet (ep : endpoint) (url : string) (filters : list (string * value))
      (st : state) :
  quiet st ->
  search ep url filters st
  = (Ok (result_set ep url (found ep url filters st)),
     answered ep (Search url filters) (Hits (found ep url filters st)) (array_of ep st) st).
Proof. intros H. apply search_answered; auto with k2. Qed.

Lemma array_of_answered_search (ep ep' : endpoint) (url : string)
      (filters : list (string * value)) (l : list k2_object) (st : state) :
  array_of ep' (answered ep (Search url filters) (Hits l) (array_of ep st) st)
  = array_of ep' st.
Proof. destruct ep, ep'; reflexivity. Qed.

Lemma found_all (ep : endpoint) (url : string) (st : state) :
  found ep url [] st = collection (array_of ep st) url.
Proof.
  unfold found. induction (collection (array_of ep st) url) as [|o l IH]; [reflexivity|].
  simpl. rewrite IH. reflexivity.
Qed.

Lemma bind_ok {A B} (m : M A) (k : A -> M B) (st st' : state) (a : A) :
  m st = (Ok a, st') -> bind m k st = k a st'.
Proof. intros H. unfold bind. rewrite H. reflexivity. Qed.

Lemma bind_raise {A B} (m : M A) (k : A -> M B) (st st' : state) (e : exn) :
  m st = (Raise e, st') -> bind m k st = (Raise e, st').
Proof. intros H. unfold bind. rewrite H. reflexivity. Qed.

Lemma bind_assoc {A B C} (m : M A) (k1 : A -> M B) (k2 : B -> M C) (st : state) :
  bind (bind m k1) k2 st = bind m (fun a => bind (k1 a) k2) st.
Proof. unfold bind. destruct (m st) as [[a|e|] st']; reflexivity. Qed.

Lemma getattr_some (o : RestObject) (k : string) (v : value) (st : state) :
  ro_attrs o !! k = Some v -> getattr o k st = (Ok v, st).
Proof. intros H. unfold getattr. rewrite H. reflexivity. Qed.

Ltac sim :=
  cbn [bind get ret raise modify try_except for_each
       self_client first_hit as_int
       result_set hits total of_k2 ro_attrs ro_id ro_ep ro_url ref refs
       fst snd List.map List.length negb Nat.eqb andb orb];
  repeat (rewrite bind_assoc;
          cbn [bind get ret raise modify try_except for_each
               self_client first_hit as_int
               result_set hits total of_k2 ro_attrs ro_id ro_ep ro_url ref refs
               fst snd List.map List.length negb Nat.eqb andb orb]).

Ltac attr_step H :=
  erewrite (bind_ok (getattr _ _)) by (apply getattr_some; exact H); sim.

Ltac search_step :=
  erewrite (bind_ok (search _ _ _)) by (apply search_quiet; eauto with k2); sim.

(** ** Statistics *)

(** C7 (as amended): on a refresh the reported ratio is the
    provisioned-volumes counter divided by (total - free) when
    auto-calculation is enabled, the array's [provisioned] counter is not
    zero and total - free is not zero; otherwise it is the configured
    ratio. *)
Theorem oversubscription_ratio_rule (st : state) (cap : k2_object) (others : list k2_object)
        (free total provisioned_vol : Z) (provisioned : value) :
  quiet st ->
  collection (array_of (client st) st) "system/capacity" = cap :: others ->
  fields cap !! "free" = Some (VInt free) ->
  fields cap !! "total" = Some (VInt total) ->
  fields cap !! "provisioned_volumes" = Some (VInt provisioned_vol) ->
  fields cap !! "provisioned" = Some provisioned ->
  exists st' s,
    update_volume_stats st = (Ok tt, st')
    /\ stats st' = Some s
    /\ max_oversubscription_ratio s
       = if auto_calc_max_oversubscription_ratio (conf st)
            && truthy provisioned && negb (total - free =? 0)%Z
         then (inject_Z provisioned_vol / inject_Z (total - free))%Q
         else max_over_subscription_ratio (conf st).
Proof.
  intros Hq Hc Hfree Htotal Hpv Hp.
  unfold update_volume_stats. sim.
  search_step. rewrite found_all, Hc. sim.
  search_step.
  attr_step Hpv.
  destruct (auto_calc_max_oversubscription_ratio (conf st)); sim.
  - attr_step Hp. destruct (truthy provisioned); sim.
    + attr_step Htotal. attr_step Hfree.
      destruct (total - free =? 0)%Z; sim.
      * attr_step Hfree. attr_step Htotal. eexists _, _. repeat split.
      * attr_step Htotal. attr_step Hfree. attr_step Hfree. attr_step Htotal.
        eexists _, _. repeat split.
    + attr_step Hfree. attr_step Htotal. eexists _, _. repeat split.
  - attr_step Hfree. attr_step Htotal. eexists _, _. repeat split.
Qed.

Lemma oversubscription_ratio_rule_witness :
  let st := driver_on (capacity_array 7) empty_array [] in
  quiet st
  /\ exists st' s,
       update_volume_stats st = (Ok tt, st')
       /\ stats st' = Some s
       /\ max_oversubscription_ratio s = (inject_Z 50 / inject_Z (1000 - 100))%Q.
Proof.
  intros st.
  assert (Hq : quiet st) by (repeat split).
  split; [exact Hq|].
  exact (oversubscription_ratio_rule st (capacity_object 7) [] 100 1000 50 (VInt 7)
           Hq eq_refl eq_refl eq_refl eq_refl eq_refl).
Defined.

(** With auto-calculation enabled, total - free = 900 and 50 provisioned
    volumes, an array whose [provisioned] counter is 0 gets the configured
    ratio, not 50/900. *)
Lemma oversubscription_ratio_counterexample :
  let st := driver_on (capacity_array 0) empty_array [] in
  auto_calc_max_oversubscription_ratio (conf st) = true
  /\ (1000 - 100 <> 0)%Z
  /\ exists st' s,
       update_volume_stats st = (Ok tt, st')
       /\ stats st' = Some s
       /\ max_oversubscription_ratio s = max_over_subscription_ratio (conf st)
       /\ ~ (max_oversubscription_ratio s == inject_Z 50 / inject_Z (1000 - 100))%Q.
Proof.
  intros st. split; [reflexivity|]. split; [discriminate|].
  destruct (update_volume_stats st) as [res st'] eqn:E.
  vm_compute in E. injection E as <- <-.
  eexists _, _. split; [reflexivity|]. split; [reflexivity|].
  split; [reflexivity|]. intros H. vm_compute in H. discriminate H.
Qed.

Example ratio_auto_calc_disabled :
  let st := State (capacity_array 7) empty_array (fun aa => aa) [] false false []
                  Source (Some Target) (Some the_replica) (the_conf false) None in
  (max_oversubscription_ratio <$> stats (update_volume_stats st).2) = Some 20%Q.
Proof. vm_compute. reflexivity. Qed.

(** ** Size of an existing volume *)

Lemma ceiling_of_quotient (sz : Z) :
  let n := Qceiling (inject_Z sz / inject_Z Mi) in
  ((n - 1) * Mi < sz <= n * Mi)%Z.
Proof.
  cbv zeta.
  assert (H : (inject_Z sz / inject_Z Mi == sz # 1048576)%Q).
  { unfold Qeq, Qdiv, Qmult, Qinv, inject_Z, Mi. simpl. lia. }
  rewrite H. unfold Qceiling, Qfloor, Qopp, Mi. simpl Qnum. simpl Qden.
  pose proof (Z.div_mod (- sz) 1048576 ltac:(lia)) as Hd.
  pose proof (Z.mod_pos_bound (- sz) 1048576 ltac:(lia)) as Hm.
  change (Z.pos 1048576) with 1048576%Z. lia.
Qed.



Example size_one_gib_and_one_kib :
  (manage_existing_get_size {[ "source-name" := "legacy" ]}
     (driver_on (one_volume_array "legacy" 1048577) empty_array [])).1 = Ok 2%Z.
Proof. vm_compute. reflexivity. Qed.

Example size_exactly_three_gib :
  (manage_existing_get_size {[ "source-name" := "legacy" ]}
     (driver_on (one_volume_array "legacy" (3 * 1048576)) empty_array [])).1 = Ok 3%Z.
Proof. vm_compute. reflexivity. Qed.

(** ** Cloning *)

Lemma client_answered (ep : endpoint) (r : request) (resp : response) (a : array)
      (st : state) :
  client (answered ep r resp a st) = client st.
Proof. destruct ep; reflexivity. Qed.

Lemma target_answered (ep : endpoint) (r : request) (resp : response) (a : array)
      (st : state) :
  target (answered ep r resp a st) = target st.
Proof. destruct ep; reflexivity. Qed.

Lemma replica_answered (ep : endpoint) (r : request) (resp : response) (a : array)
      (st : state) :
  replica (answered ep r resp a st) = replica st.
Proof. destruct ep; reflexivity. Qed.

Lemma conf_answered (ep : endpoint) (r : request) (resp : response) (a : array)
      (st : state) :
  conf (answered ep r resp a st) = conf st.
Proof. destruct ep; reflexivity. Qed.

Lemma trace_answered (ep : endpoint) (r : request) (resp : response) (a : array)
      (st : state) :
  trace (answered ep r resp a st) = (trace st ++ attempt ep r (Answered resp))%list.
Proof. destruct ep; reflexivity. Qed.

Create Rewrite HintDb k2_state.
#[export] Hint Rewrite client_answered target_answered replica_answered conf_answered
  : k2_state.

Ltac simst := sim; autorewrite with k2_state.

Lemma found_answered_search (ep ep' : endpoint) (url url' : string)
      (filters filters' : list (string * value)) (l : list k2_object) (st : state) :
  found ep url filters (answered ep' (Search url' filters') (Hits l) (array_of ep' st) st)
  = found ep url filters st.
Proof. unfold found. rewrite array_of_answered_search. reflexivity. Qed.

Lemma refs_result_set (ep : endpoint) (url : string) (l : list k2_object) :
  refs (result_set ep url l) = VRefs (oid <$> l).
Proof.
  unfold refs, result_set. cbn [hits]. f_equal.
  induction l as [|o l IH]; [reflexivity|]. cbn. f_equal. exact IH.
Qed.

(** C5: when the search for mappings of the source volume has a hit, the
    clone request raises the driver's validation error after the two
    searches and nothing else: no collaborator is called, no request other
    than the searches is sent, and both arrays are as they were. *)
Theorem clone_of_attached_volume_rejected
        (conn attach_info : Type)
        (brick_get_connector_properties : M (gmap string string))
        (initialize_connection : volume_arg -> gmap string string -> M conn)
        (_connect_device : conn -> M attach_info)
        (copy_volume : attach_info -> attach_info -> Z -> M unit)
        (fuel : nat) (volume src_vref : cinder_volume) (st : state) :
  let c := client st in
  let by_name := [("name", VStr (get_volume_name (id src_vref)))] in
  let src_vol := found c "volumes" by_name st in
  let by_volume := [("volume", VRefs (oid <$> src_vol))] in
  let src_map := found c "mappings" by_volume st in
  quiet st ->
  src_map <> [] ->
  exists st',
    create_cloned_volume conn attach_info brick_get_connector_properties
      initialize_connection _connect_device copy_volume fuel volume src_vref st
    = (Raise (KaminarioCinderDriverException clone_rejected), st')
    /\ source_array st' = source_array st
    /\ target_array st' = target_array st
    /\ trace st' = (trace st
                    ++ attempt c (Search "volumes" by_name) (Answered (Hits src_vol))
                    ++ attempt c (Search "mappings" by_volume) (Answered (Hits src_map)))%list.
Proof.
  intros c by_name src_vol by_volume src_map Hq Hm.
  unfold create_cloned_volume. sim.
  search_step. search_step. autorewrite with k2_state.
  rewrite refs_result_set, found_answered_search.
  fold c by_name src_vol by_volume src_map.
  destruct src_map as [|m ms] eqn:E; [contradiction|]. sim.
  eexists. split; [reflexivity|].
  split; [|split].
  - destruct c; reflexivity.
  - destruct c; reflexivity.
  - rewrite !trace_answered, <- app_assoc. reflexivity.
Qed.

Lemma clone_of_attached_volume_rejected_witness :
  let st := driver_on attached_volume_array empty_array [] in
  let src := {| id := "src"; size := 1; vol_type := None; replication_status := "disabled" |} in
  let new := {| id := "new"; size := 1; vol_type := None; replication_status := "disabled" |} in
  quiet st
  /\ found Source "mappings" [("volume", VRefs [0])] st <> []
  /\ exists st',
       create_cloned_volume unit unit (ret ∅) (fun _ _ => ret tt) (fun _ => ret tt)
         (fun _ _ _ => ret tt) 0 new src st
       = (Raise (KaminarioCinderDriverException clone_rejected), st')
       /\ source_array st' = source_array st.
Proof.
  intros st src new.
  assert (Hq : quiet st) by (repeat split).
  assert (Hm : found Source "mappings" [("volume", VRefs [0])] st <> [])
    by (vm_compute; discriminate).
  split; [exact Hq|]. split; [exact Hm|].
  destruct (clone_of_attached_volume_rejected unit unit (ret ∅) (fun _ _ => ret tt)
              (fun _ => ret tt) (fun _ _ _ => ret tt) 0 new src st Hq Hm)
    as (st' & Hrun & Hsrc & _).
  exists st'. split; assumption.
Defined.

(** ** Failover *)

Lemma request_quiet (ep : endpoint) (r : request) (st : state)
      (resp : response) (a : array) :
  quiet st ->
  serve r (array_of ep st) = Some (resp, a) ->
  _request ep r st = (Ok resp, answered ep r resp a st).
Proof. intros Hq Hs. apply request_answered; auto with k2. Qed.

Lemma accepts_by_name_promoted (name : string) (o o' : k2_object) :
  promoted o o' -> accepts (by_name name) o' = accepts (by_name name) o.
Proof.
  intros (_ & [H | (_ & H)]); unfold accepts, by_name, filter_accepts; cbn [forallb fst snd];
    rewrite H; [reflexivity|].
  rewrite lookup_insert_ne by discriminate. reflexivity.
Qed.

Lemma found_by_name_promoted (name : string) (l l' : list k2_object) :
  Forall2 promoted l l' ->
  Forall2 promoted (List.filter (accepts (by_name name)) l)
                   (List.filter (accepts (by_name name)) l').
Proof.
  induction 1 as [|o o' l l' Ho Hl IH]; [constructor|].
  cbn [List.filter]. rewrite (accepts_by_name_promoted name o o' Ho).
  destruct (accepts (by_name name) o); [constructor|]; assumption.
Qed.

Lemma promoted_refl (o : k2_object) : promoted o o.
Proof. split; [reflexivity|left; reflexivity]. Qed.

Lemma promoted_trans (o1 o2 o3 : k2_object) :
  promoted o1 o2 -> promoted o2 o3 -> promoted o1 o3.
Proof.
  intros (I12 & H12) (I23 & H23). split; [congruence|].
  destruct H12 as [E12 | (S1 & E12)], H23 as [E23 | (S2 & E23)].
  - left. congruence.
  - right. rewrite E12 in *. split; assumption.
  - right. split; [assumption|congruence].
  - rewrite E12, lookup_insert_eq in S2. discriminate S2.
Qed.

Lemma Forall2_promoted_refl (l : list k2_object) : Forall2 promoted l l.
Proof. induction l; constructor; auto using promoted_refl. Qed.

Lemma Forall2_promoted_trans (l1 l2 l3 : list k2_object) :
  Forall2 promoted l1 l2 -> Forall2 promoted l2 l3 -> Forall2 promoted l1 l3.
Proof.
  intros H12; revert l3; induction H12 as [|a b l1 l2 Hab H12 IH]; intros l3 H23;
    inversion H23; subst; constructor; eauto using promoted_trans.
Qed.

Lemma Forall2_promoted_oids (l l' : list k2_object) :
  Forall2 promoted l l' -> oid <$> l' = oid <$> l.
Proof.
  induction 1 as [|o o' l l' (Ho & _) Hl IH]; [reflexivity|].
  cbn. rewrite Ho, IH. reflexivity.
Qed.

Lemma NoDup_oid_eq (l : list k2_object) (x y : k2_object) :
  NoDup (oid <$> l) -> x ∈ l -> y ∈ l -> oid x = oid y -> x = y.
Proof.
  induction l as [|o l IH]; intros Hn Hx Hy Hxy; [inversion Hx|].
  cbn in Hn. apply NoDup_cons in Hn as [Ho Hn].
  apply elem_of_cons in Hx as [-> | Hx], Hy as [-> | Hy]; auto.
  - exfalso. apply Ho. rewrite Hxy. apply list_elem_of_fmap. eauto.
  - exfalso. apply Ho. rewrite <- Hxy. apply list_elem_of_fmap. eauto.
Qed.

Lemma find_has_id (l : list k2_object) (s : k2_object) :
  NoDup (oid <$> l) -> s ∈ l -> List.find (has_id (oid s)) l = Some s.
Proof.
  intros Hn Hs. destruct (List.find (has_id (oid s)) l) as [o|] eqn:E.
  - apply find_some in E as [Ho Hid]. unfold has_id in Hid.
    apply bool_decide_eq_true in Hid. apply list_elem_of_In in Ho.
    f_equal. eapply NoDup_oid_eq; eauto.
  - exfalso. apply list_elem_of_In in Hs.
    pose proof (find_none _ _ E s Hs) as H. unfold has_id in H.
    rewrite bool_decide_eq_false in H. auto.
Qed.

Lemma insert_union_self (k : string) (v : value) (m : gmap string value) :
  <[k := v]> m ∪ m = <[k := v]> m.
Proof.
  apply map_eq. intros j. rewrite lookup_union.
  destruct (decide (k = j)) as [->|Hne].
  - rewrite lookup_insert_eq. destruct (m !! j); reflexivity.
  - rewrite lookup_insert_ne by assumption. destruct (m !! j); reflexivity.
Qed.

Lemma patch_promotes (l : list k2_object) (s : k2_object) :
  NoDup (oid <$> l) -> s ∈ l ->
  fields s !! "state" = Some (VStr "in_sync") ->
  let attrs := <[ "state" := VStr "failed_over" ]> (fields s) in
  Forall2 promoted l (List.map (patch (oid s) attrs) l)
  /\ patch (oid s) attrs s ∈ List.map (patch (oid s) attrs) l
  /\ oid (patch (oid s) attrs s) = oid s
  /\ fields (patch (oid s) attrs s) = attrs.
Proof.
  intros Hn Hs Hst attrs.
  assert (Hp : forall o, o ∈ l -> promoted o (patch (oid s) attrs o)).
  { intros o Ho. unfold patch, has_id. case_bool_decide as Hid.
    - assert (o = s) as -> by (eapply NoDup_oid_eq; eauto).
      split; [reflexivity|]. right. split; [exact Hst|]. cbn.
      apply insert_union_self.
    - apply promoted_refl. }
  split; [|split; [|split]].
  - clear Hs Hn. induction l as [|o l IH]; [constructor|].
    cbn. constructor.
    + apply Hp. left.
    + apply IH. intros o' Ho'. apply Hp. right. exact Ho'.
  - apply list_elem_of_In, in_map, list_elem_of_In, Hs.
  - unfold patch, has_id. rewrite bool_decide_eq_true_2 by reflexivity. reflexivity.
  - unfold patch, has_id. rewrite bool_decide_eq_true_2 by reflexivity. cbn.
    apply insert_union_self.
Qed.

Lemma array_of_answered_same (ep : endpoint) (r : request) (resp : response) (a : array)
      (st : state) :
  array_of ep (answered ep r resp a st) = a.
Proof. destruct ep; reflexivity. Qed.

Lemma collection_set_same (url : string) (l : list k2_object) (a : array) :
  collection (set_collection url l a) url = l.
Proof. unfold collection, set_collection. cbn. rewrite lookup_insert_eq. reflexivity. Qed.

Lemma collection_set_other (url url' : string) (l : list k2_object) (a : array) :
  url <> url' -> collection (set_collection url l a) url' = collection a url'.
Proof.
  intros H. unfold collection, set_collection. cbn. rewrite lookup_insert_ne by assumption.
  reflexivity.
Qed.

Lemma found_elem (ep : endpoint) (url : string) (filters : list (string * value))
      (st : state) (o : k2_object) :
  o ∈ found ep url filters st -> o ∈ collection (array_of ep st) url.
Proof. unfold found. intros H. apply list_elem_of_In, filter_In in H as [H _].
       apply list_elem_of_In, H. Qed.

Lemma self_target_some (t : endpoint) (st : state) :
  target st = Some t -> self_target st = (Ok t, st).
Proof. intros H. unfold self_target. sim. rewrite H. reflexivity. Qed.

Lemma self_replica_some (rep : Replication) (st : state) :
  replica st = Some rep -> self_replica st = (Ok rep, st).
Proof. intros H. unfold self_replica. sim. rewrite H. reflexivity. Qed.

Ltac target_step Ht :=
  erewrite (bind_ok self_target)
    by (apply self_target_some; autorewrite with k2_state; exact Ht);
  sim.

Ltac replica_step Hr :=
  erewrite (bind_ok self_replica)
    by (apply self_replica_some; autorewrite with k2_state; exact Hr);
  sim.

Lemma failover_volume_quiet (t : endpoint) (v : cinder_volume) (st : state)
      (s : k2_object) (others : list k2_object) :
  quiet st -> target st = Some t ->
  NoDup (oid <$> sessions t st) ->
  found t "replication/sessions" (by_name (target_session_name v)) st = s :: others ->
  is_Some (fields s !! "state") ->
  exists st',
    _failover_volume v st = (Ok tt, st')
    /\ quiet st' /\ target st' = Some t /\ replica st' = replica st
    /\ (forall url, url <> "replication/sessions" ->
                    collection (array_of t st') url = collection (array_of t st) url)
    /\ Forall2 promoted (sessions t st) (sessions t st')
    /\ (fields s !! "state" = Some (VStr "in_sync") ->
        exists s', s' ∈ sessions t st' /\ oid s' = oid s
                   /\ fields s' = <[ "state" := VStr "failed_over" ]> (fields s)).
Proof.
  intros Hq Ht Hn Hf [sv Hsv].
  assert (Hin : s ∈ sessions t st).
  { apply (found_elem t _ (by_name (target_session_name v))). rewrite Hf. left. }
  unfold _failover_volume. sim. target_step Ht.
  search_step. fold (target_session_name v). fold (by_name (target_session_name v)).
  rewrite Hf. sim.
  attr_step Hsv.
  case_bool_decide as Hstate.
  - subst sv.
    destruct (patch_promotes _ s Hn Hin Hsv) as (HR & Hmem & Hid & Hfl).
    unfold save, setattr. sim.
    erewrite (bind_ok (_request _ _)).
    2:{ apply request_quiet; [auto with k2|].
        cbn [serve]. rewrite array_of_answered_search.
        fold (sessions t st). rewrite (find_has_id _ s Hn Hin). reflexivity. }
    sim. eexists. split; [reflexivity|].
    split; [auto with k2|]. split; [autorewrite with k2_state; exact Ht|].
    split; [autorewrite with k2_state; reflexivity|].
    unfold sessions. rewrite array_of_answered_same.
    split; [|split].
    + intros url Hu. rewrite collection_set_other by congruence.
      rewrite ?array_of_answered_search. reflexivity.
    + rewrite collection_set_same. exact HR.
    + intros _. rewrite collection_set_same. eexists. split; [exact Hmem|].
      split; assumption.
  - eexists. split; [reflexivity|].
    split; [auto with k2|]. split; [autorewrite with k2_state; exact Ht|].
    split; [autorewrite with k2_state; reflexivity|].
    unfold sessions. rewrite array_of_answered_search.
    split; [reflexivity|]. split; [apply Forall2_promoted_refl|].
    intros H. rewrite H in Hsv. congruence.
Qed.

Lemma promoted_keeps_state (o o' : k2_object) :
  promoted o o' -> is_Some (fields o !! "state") -> is_Some (fields o' !! "state").
Proof.
  intros (_ & [H | (_ & H)]) Hs; rewrite H; [exact Hs|].
  rewrite lookup_insert_eq. eauto.
Qed.

Lemma Forall2_promoted_keeps_state (l l' : list k2_object) :
  Forall2 promoted l l' ->
  Forall (fun o => is_Some (fields o !! "state")) l ->
  Forall (fun o => is_Some (fields o !! "state")) l'.
Proof.
  induction 1 as [|o o' l l' Ho Hl IH]; intros Hs; [constructor|].
  apply Forall_cons in Hs as [Hs1 Hs2]. constructor; eauto using promoted_keeps_state.
Qed.

Lemma promoted_persists (l l' : list k2_object) (s : k2_object) :
  Forall2 promoted l l' -> s ∈ l ->
  fields s !! "state" <> Some (VStr "in_sync") ->
  exists s', s' ∈ l' /\ oid s' = oid s /\ fields s' = fields s.
Proof.
  induction 1 as [|o o' l l' Ho Hl IH]; intros Hs Hst; [inversion Hs|].
  apply elem_of_cons in Hs as [-> | Hs].
  - exists o'. split; [left|]. destruct Ho as (Hid & [H | (H & _)]); [auto|contradiction].
  - destruct (IH Hs Hst) as (s' & Hin & H). exists s'. split; [right; exact Hin|exact H].
Qed.

Lemma has_target_volume_same (t : endpoint) (st st' : state) (v : cinder_volume) :
  collection (array_of t st') "volumes" = collection (array_of t st) "volumes" ->
  has_target_volume t st' v = has_target_volume t st v.
Proof. intros H. unfold has_target_volume, found. rewrite H. reflexivity. Qed.

Lemma expected_update_same (t : endpoint) (st st' : state) (v : cinder_volume) :
  collection (array_of t st') "volumes" = collection (array_of t st) "volumes" ->
  expected_update t st' v = expected_update t st v.
Proof. intros H. unfold expected_update. rewrite (has_target_volume_same t st st' v H).
       reflexivity. Qed.

Lemma found_sessions_promoted (t : endpoint) (name : string) (st st' : state) :
  Forall2 promoted (sessions t st) (sessions t st') ->
  Forall2 promoted (found t "replication/sessions" (by_name name) st)
                   (found t "replication/sessions" (by_name name) st').
Proof. apply found_by_name_promoted. Qed.

Lemma failover_volumes_quiet (t : endpoint) (volumes : list cinder_volume) :
  forall (acc : list volume_update) (st : state),
    quiet st -> target st = Some t ->
    NoDup (oid <$> sessions t st) ->
    Forall (fun o => is_Some (fields o !! "state")) (sessions t st) ->
    (forall v, v ∈ volumes -> has_target_volume t st v = true ->
               found t "replication/sessions" (by_name (target_session_name v)) st <> []) ->
    exists st',
      failover_volumes volumes acc st
      = (Ok (acc ++ (expected_update t st <$> volumes))%list, st')
      /\ quiet st' /\ target st' = Some t /\ replica st' = replica st
      /\ collection (array_of t st') "volumes" = collection (array_of t st) "volumes"
      /\ Forall2 promoted (sessions t st) (sessions t st')
      /\ (forall v s others,
             v ∈ volumes -> has_target_volume t st v = true ->
             found t "replication/sessions" (by_name (target_session_name v)) st
             = s :: others ->
             fields s !! "state" = Some (VStr "in_sync") ->
             exists s', s' ∈ sessions t st' /\ oid s' = oid s
                        /\ fields s' = <[ "state" := VStr "failed_over" ]> (fields s)).
Proof.
  induction volumes as [|v rest IH]; intros acc st Hq Ht Hn Hst Hss.
  - exists st. cbn. rewrite app_nil_r. split; [reflexivity|].
    repeat (split; [solve [auto using Forall2_promoted_refl]|]).
    intros v s others Hv. inversion Hv.
  - cbn [failover_volumes]. sim. target_step Ht. search_step.
    fold (target_volume_name v). fold (by_name (target_volume_name v)).
    set (st1 := answered t (Search "volumes" (by_name (target_volume_name v)))
                         (Hits (found t "volumes" (by_name (target_volume_name v)) st))
                         (array_of t st) st).
    assert (Hq1 : quiet st1) by (subst st1; auto with k2).
    assert (Ht1 : target st1 = Some t) by (subst st1; autorewrite with k2_state; exact Ht).
    assert (Ha1 : array_of t st1 = array_of t st)
      by (subst st1; apply array_of_answered_search).
    assert (Hr1 : replica st1 = replica st) by (subst st1; apply replica_answered).
    assert (Hs1 : sessions t st1 = sessions t st) by (unfold sessions; rewrite Ha1; reflexivity).
    assert (Hf1 : forall url f, found t url f st1 = found t url f st)
      by (intros; unfold found; rewrite Ha1; reflexivity).
    change (negb (Nat.eqb (List.length (found t "volumes" (by_name (target_volume_name v)) st)) 0))
      with (has_target_volume t st v).
    destruct (has_target_volume t st v) eqn:Hv.
    + (* the target volume exists *)
      destruct (found t "replication/sessions" (by_name (target_session_name v)) st)
        as [|s others] eqn:Hfs.
      { exfalso. apply (Hss v); [left|exact Hv|exact Hfs]. }
      assert (Hin : s ∈ sessions t st).
      { apply (found_elem t _ (by_name (target_session_name v))). rewrite Hfs. left. }
      destruct (failover_volume_quiet t v st1 s others Hq1 Ht1) as
        (st2 & Hrun & Hq2 & Ht2 & Hr2 & Hc2 & HR2 & Hp2).
      { rewrite Hs1. exact Hn. }
      { rewrite Hf1. exact Hfs. }
      { rewrite Forall_forall in Hst. apply Hst, Hin. }
      rewrite Hs1 in HR2.
      assert (Hvol2 : collection (array_of t st2) "volumes"
                      = collection (array_of t st) "volumes").
      { rewrite Hc2 by discriminate. rewrite Ha1. reflexivity. }
      erewrite (bind_ok (_failover_volume v)) by exact Hrun. sim.
      destruct (IH (acc ++ [{| volume_id := id v;
                               updates := [("replication_status", FAILED_OVER)] |}])%list
                   st2 Hq2 Ht2) as (st' & Hrun' & Hq' & Ht' & Hr' & Hvol' & HR' & Hp').
      { rewrite (Forall2_promoted_oids _ _ HR2). exact Hn. }
      { eapply Forall2_promoted_keeps_state; eauto. }
      { intros v' Hv' Htv'. rewrite (has_target_volume_same t st st2 v' Hvol2) in Htv'.
        pose proof (found_sessions_promoted t (target_session_name v') _ _ HR2) as HF.
        intros E. rewrite E in HF. inversion HF as [E'|]. 
        apply (Hss v'); [right; exact Hv'|exact Htv'|symmetry; exact E']. }
      exists st'. rewrite Hrun'.
      split.
      { f_equal. f_equal. rewrite <- app_assoc. f_equal. cbn [fmap list_fmap].
        unfold expected_update at 2. rewrite Hv. cbn. f_equal.
        apply list_fmap_ext. intros _ v' _. apply expected_update_same, Hvol2. }
      split; [exact Hq'|]. split; [exact Ht'|]. split; [congruence|].
      split; [congruence|]. split; [eapply Forall2_promoted_trans; eauto|].
      intros v' s0 others0 Hv' Htv' Hf0 Hsync.
      pose proof (found_sessions_promoted t (target_session_name v') _ _ HR2) as HF.
      rewrite Hf0 in HF. inversion HF as [|? s2 ? others2 Hps2 _ E0 E2]. subst.
      symmetry in E2.
      assert (Hin2 : s2 ∈ sessions t st2).
      { apply (found_elem t _ (by_name (target_session_name v'))). rewrite E2. left. }
      destruct Hps2 as (Hid2 & [Hsame | (_ & Hprom)]).
      * (* not yet promoted when the rest of the batch starts *)
        apply elem_of_cons in Hv' as [-> | Hv'].
        -- rewrite Hfs in Hf0. injection Hf0 as <- <-.
           destruct (Hp2 Hsync) as (s1 & Hin1 & Hid1 & Hfl1).
           assert (Hn2 : NoDup (oid <$> sessions t st2))
             by (rewrite (Forall2_promoted_oids _ _ HR2); exact Hn).
           assert (s1 = s2) as ->
               by (apply (NoDup_oid_eq (sessions t st2)); [exact Hn2|exact Hin1|exact Hin2|congruence]).
           assert (fields s !! "state" = Some (VStr "failed_over"))
             by (rewrite <- Hsame, Hfl1; apply lookup_insert_eq).
           congruence.
        -- destruct (Hp' v' s2 others2 Hv') as (s' & Hin' & Hid' & Hfl').
           { rewrite (has_target_volume_same t st st2 v' Hvol2). exact Htv'. }
           { exact E2. }
           { rewrite Hsame. exact Hsync. }
           exists s'. split; [exact Hin'|]. split; congruence.
      * (* promoted by the first volume of the batch *)
        destruct (promoted_persists _ _ s2 HR' Hin2) as (s' & Hin' & Hid' & Hfl').
        { rewrite Hprom, lookup_insert_eq. discriminate. }
        exists s'. split; [exact Hin'|]. split; congruence.
    + (* no target volume *)
      destruct (IH (acc ++ [{| volume_id := id v; updates := [("status", "error")] |}])%list
                   st1 Hq1 Ht1) as (st' & Hrun' & Hq' & Ht' & Hr' & Hvol' & HR' & Hp').
      { rewrite Hs1. exact Hn. }
      { rewrite Hs1. exact Hst. }
      { intros v' Hv' Htv'. rewrite Hf1. apply Hss; [right; exact Hv'|].
        rewrite <- Htv'. symmetry. apply has_target_volume_same. rewrite Ha1. reflexivity. }
      exists st'. rewrite Hrun'.
      assert (Hvol1 : collection (array_of t st1) "volumes"
                      = collection (array_of t st) "volumes") by (rewrite Ha1; reflexivity).
      split.
      { f_equal. f_equal. rewrite <- app_assoc. f_equal. cbn [fmap list_fmap].
        unfold expected_update at 2. rewrite Hv. cbn. f_equal.
        apply list_fmap_ext. intros _ v' _. apply expected_update_same, Hvol1. }
      split; [exact Hq'|]. split; [exact Ht'|]. split; [congruence|].
      split; [congruence|]. rewrite Hs1 in HR'. split; [exact HR'|].
      intros v' s0 others0 Hv' Htv' Hf0 Hsync.
      apply elem_of_cons in Hv' as [-> | Hv']; [congruence|].
      apply (Hp' v' s0 others0 Hv').
      * rewrite (has_target_volume_same t st st1 v' Hvol1). exact Htv'.
      * rewrite Hf1. exact Hf0.
      * exact Hsync.
Qed.



Example failover_promotes_in_sync_session :
  let run := failover_host [plain_volume "a"; plain_volume "b"] None
               (driver_on empty_array replica_target_array []) in
  (fields <$> sessions Target run.2)
  = [list_to_map [("name", VStr "rssn-a"); ("state", VStr "failed_over")]].
Proof. vm_compute. reflexivity. Qed.

Example failover_other_backend_rejected :
  let st := driver_on empty_array replica_target_array [] in
  failover_host [plain_volume "a"] (Some "10.9.9.9") st
  = (Raise (UnableToFailOver "Failover requested on non replicated backend."), st).
Proof. reflexivity. Qed.

(** ** The endpoint in use after a failed-over lookup *)

Lemma stays_refl (t : endpoint) (st : state) :
  client st = t -> target st = Some t -> stays t st st.
Proof.
  intros Hc Ht. split; [exact Hc|]. split; [exact Ht|].
  exists []. rewrite app_nil_r. split; [reflexivity|constructor].
Qed.

Lemma stays_trans (t : endpoint) (st1 st2 st3 : state) :
  stays t st1 st2 -> stays t st2 st3 -> stays t st1 st3.
Proof.
  intros (_ & _ & e1 & T1 & F1) (C & T & e2 & T2 & F2).
  split; [exact C|]. split; [exact T|].
  exists (e1 ++ e2)%list. rewrite T2, T1, app_assoc. split; [reflexivity|].
  apply Forall_app. split; assumption.
Qed.

Lemma stays_log (t : endpoint) (st : state) (ev : event) :
  client st = t -> target st = Some t -> on_endpoint t ev -> stays t st (log ev st).
Proof.
  intros Hc Ht He. split; [exact Hc|]. split; [exact Ht|].
  exists [ev]. split; [reflexivity|]. constructor; [exact He|constructor].
Qed.

Lemma keeps_ret {A} (t : endpoint) (a : A) (Q : A -> Prop) : Q a -> keeps t (ret a) Q.
Proof. intros H st Hc Ht. split; [apply stays_refl; assumption|exact H]. Qed.

Lemma keeps_raise {A} (t : endpoint) (e : exn) (Q : A -> Prop) : keeps t (raise e) Q.
Proof. intros st Hc Ht. split; [apply stays_refl; assumption|exact I]. Qed.

Lemma keeps_diverge {A} (t : endpoint) (Q : A -> Prop) : keeps t diverge Q.
Proof. intros st Hc Ht. split; [apply stays_refl; assumption|exact I]. Qed.

Lemma keeps_weaken {A} (t : endpoint) (m : M A) (Q R : A -> Prop) :
  keeps t m Q -> (forall a, Q a -> R a) -> keeps t m R.
Proof.
  intros H HQ st Hc Ht. destruct (H st Hc Ht) as [Hs Hr]. split; [exact Hs|].
  destruct (m st).1; auto.
Qed.

Lemma keeps_bind {A B} (t : endpoint) (m : M A) (k : A -> M B)
      (Q : A -> Prop) (R : B -> Prop) :
  keeps t m Q -> (forall a, Q a -> keeps t (k a) R) -> keeps t (bind m k) R.
Proof.
  intros Hm Hk st Hc Ht. destruct (Hm st Hc Ht) as [Hs Hq].
  unfold bind. destruct (m st) as [[a|e|] st1]; cbn in *; try (split; [exact Hs|exact I]).
  destruct Hs as (Hc1 & Ht1 & Hev).
  destruct (Hk a Hq st1 Hc1 Ht1) as [Hs2 Hr]. split; [|exact Hr].
  eapply stays_trans; [|exact Hs2]. split; [exact Hc1|]. split; [exact Ht1|exact Hev].
Qed.

Lemma keeps_try_except {A} (t : endpoint) (m : M A) (h : exn -> M A) (Q : A -> Prop) :
  keeps t m Q -> (forall e, keeps t (h e) Q) -> keeps t (try_except m h) Q.
Proof.
  intros Hm Hh st Hc Ht. destruct (Hm st Hc Ht) as [Hs Hq].
  unfold try_except. destruct (m st) as [[a|e|] st1]; cbn in *; try (split; assumption).
  destruct Hs as (Hc1 & Ht1 & Hev).
  destruct (Hh e st1 Hc1 Ht1) as [Hs2 Hr]. split; [|exact Hr].
  eapply stays_trans; [|exact Hs2]. split; [exact Hc1|]. split; [exact Ht1|exact Hev].
Qed.

Lemma keeps_get {A} (t : endpoint) (f : state -> A) : keeps t (get f) (fun _ => True).
Proof. intros st Hc Ht. split; [apply stays_refl; assumption|exact I]. Qed.

Lemma keeps_self_client (t : endpoint) : keeps t self_client (fun c => c = t).
Proof. intros st Hc Ht. split; [apply stays_refl; assumption|exact Hc]. Qed.

Lemma keeps_self_target (t : endpoint) : keeps t self_target (fun c => c = t).
Proof.
  intros st Hc Ht. unfold self_target, bind, get. rewrite Ht. cbn.
  split; [apply stays_refl; assumption|reflexivity].
Qed.

Lemma keeps_self_replica (t : endpoint) : keeps t self_replica (fun _ => True).
Proof.
  intros st Hc Ht. unfold self_replica, bind, get. destruct (replica st); cbn;
    (split; [apply stays_refl; assumption|exact I]).
Qed.

Lemma keeps_getattr (t : endpoint) (o : RestObject) (k : string) :
  keeps t (getattr o k) (fun _ => True).
Proof.
  intros st Hc Ht. unfold getattr. destruct (ro_attrs o !! k); cbn;
    (split; [apply stays_refl; assumption|exact I]).
Qed.

Lemma keeps_as_int (t : endpoint) (v : value) : keeps t (as_int v) (fun _ => True).
Proof.
  intros st Hc Ht. destruct v; cbn; (split; [apply stays_refl; assumption|exact I]).
Qed.

Lemma keeps_set_client (t : endpoint) : keeps t (modify (set_client t)) (fun _ => True).
Proof.
  intros st Hc Ht. cbn. split; [|exact I]. split; [reflexivity|]. split; [exact Ht|].
  exists []. rewrite app_nil_r. split; [reflexivity|constructor].
Qed.

Lemma keeps_sleep (t : endpoint) (n : nat) : keeps t (sleep n) (fun _ => True).
Proof.
  intros st Hc Ht. cbn. split; [|exact I]. split; [exact Hc|]. split; [exact Ht|].
  exists [Sleep n]. split; [reflexivity|]. constructor; [exact I|constructor].
Qed.

Lemma keeps_try_finally {A} (t : endpoint) (m : M A) (f : M unit) (Q : A -> Prop) :
  keeps t m Q -> keeps t f (fun _ => True) -> keeps t (try_finally m f) Q.
Proof.
  intros Hm Hf st Hc Ht. destruct (Hm st Hc Ht) as [Hs Hq].
  unfold try_finally. destruct (m st) as [r st1]; cbn in *.
  pose proof Hs as (Hc1 & Ht1 & _).
  destruct (Hf st1 Hc1 Ht1) as [Hs2 _].
  destruct r as [a|e|]; try (split; [exact Hs|exact I]);
    destruct (f st1) as [[u|e'|] st2]; cbn in *;
    (split; [eapply stays_trans; eassumption|]); try exact I; exact Hq.
Qed.

Lemma keeps_transport (t : endpoint) (r : request) :
  keeps t (transport t r) (fun _ => True).
Proof.
  intros st Hc Ht. unfold transport.
  assert (H : forall (out : outcome) (st0 : state),
             client st0 = t -> target st0 = Some t -> trace st0 = trace st ->
             stays t st (log (Call t r out) st0)).
  { intros out st0 Hc0 Ht0 Htr. split; [exact Hc0|]. split; [exact Ht0|].
    exists [Call t r out]. cbn. rewrite Htr. split; [reflexivity|].
    constructor; [reflexivity|constructor]. }
  destruct (faults st) as [|[e|] rest]; cbn.
  - destruct (serve r (array_of t _)) as [[resp a]|]; cbn;
      (split; [apply H; destruct t; assumption || reflexivity|exact I]).
  - split; [apply H; assumption || reflexivity|exact I].
  - destruct (serve r (array_of t _)) as [[resp a]|]; cbn;
      (split; [apply H; destruct t; assumption || reflexivity|exact I]).
Qed.

Lemma keeps_acquire (t : endpoint) : keeps t (krestlock_acquire t) (fun _ => True).
Proof.
  intros st Hc Ht. unfold krestlock_acquire. destruct (locked st t); cbn.
  - split; [apply stays_refl; assumption|exact I].
  - split; [|exact I]. split; [exact Hc|]. split; [exact Ht|].
    exists [Acquire t]. split; [reflexivity|]. constructor; [reflexivity|constructor].
Qed.

Lemma keeps_release (t : endpoint) : keeps t (krestlock_release t) (fun _ => True).
Proof.
  intros st Hc Ht. cbn. split; [|exact I]. split; [exact Hc|]. split; [exact Ht|].
  exists [Release t]. split; [reflexivity|]. constructor; [reflexivity|constructor].
Qed.

Lemma keeps_retry_attempts {A} (t : endpoint) (m : M A) (Q : A -> Prop) (n : nat) :
  keeps t m Q -> keeps t (retry_attempts n m) Q.
Proof.
  intros Hm. induction n as [|n IH]; intros st Hc Ht.
  - cbn [retry_attempts]. destruct (Hm st Hc Ht) as [Hs Hq].
    destruct (m st) as [[a|[]|] st1]; cbn in *; split; assumption.
  - cbn [retry_attempts]. destruct (Hm st Hc Ht) as [Hs Hq].
    destruct (m st) as [[a|e|] st1]; cbn in *; try (split; assumption).
    pose proof Hs as (Hc1 & Ht1 & _).
    destruct e; try (split; assumption).
    destruct (IH st1 Hc1 Ht1) as [Hs2 Hq2].
    split; [eapply stays_trans; eassumption|exact Hq2].
Qed.

Lemma keeps_request (t : endpoint) (r : request) :
  keeps t (_request t r) (fun _ => True).
Proof.
  unfold _request, retry. apply keeps_retry_attempts.
  unfold _request_body. apply keeps_try_finally; [|apply keeps_release].
  apply keeps_try_except.
  - eapply keeps_bind; [apply keeps_acquire|]. intros _ _. apply keeps_transport.
  - intros e. destruct e; try apply keeps_raise.
    destruct (_should_retry _ _); apply keeps_raise.
Qed.

Lemma keeps_search (t : endpoint) (url : string) (filters : list (string * value)) :
  keeps t (search t url filters) (hits_on t).
Proof.
  unfold search. eapply keeps_bind; [apply keeps_request|].
  intros resp _. destruct resp; try apply keeps_raise.
  apply keeps_ret. unfold hits_on. cbn. apply Forall_forall.
  intros o Ho. apply list_elem_of_In, in_map_iff in Ho as (x & <- & _). reflexivity.
Qed.

Lemma keeps_save (t : endpoint) (o : RestObject) :
  handle_on t o -> keeps t (save o) (handle_on t).
Proof.
  intros Ho. unfold save. rewrite Ho.
  eapply keeps_bind; [apply keeps_request|].
  intros resp _. destruct resp; try apply keeps_raise.
  apply keeps_ret. first [exact Ho | reflexivity].
Qed.

Lemma keeps_delete (t : endpoint) (o : RestObject) :
  handle_on t o -> keeps t (delete o) (fun _ => True).
Proof.
  intros Ho. unfold delete. rewrite Ho. destruct (ro_id o); [|apply keeps_raise].
  eapply keeps_bind; [apply keeps_request|]. intros _ _. apply keeps_ret. exact I.
Qed.

Lemma keeps_refresh (t : endpoint) (o : RestObject) :
  handle_on t o -> keeps t (refresh o) (handle_on t).
Proof.
  intros Ho. unfold refresh. rewrite Ho. destruct (ro_id o); [|apply keeps_raise].
  eapply keeps_bind; [apply keeps_request|].
  intros resp _. destruct resp; try apply keeps_raise.
  apply keeps_ret. first [exact Ho | reflexivity].
Qed.

Lemma keeps_first_hit (t : endpoint) (rs : ResultSet) :
  hits_on t rs -> keeps t (first_hit rs) (handle_on t).
Proof.
  intros H. unfold first_hit. unfold hits_on in H. destruct (hits rs) as [|o l].
  - apply keeps_raise.
  - apply keeps_ret. apply Forall_cons in H as [H _]. exact H.
Qed.

Lemma keeps_for_each {A} (t : endpoint) (P : A -> Prop) (l : list A) (body : A -> M unit) :
  Forall P l -> (forall x, P x -> keeps t (body x) (fun _ => True)) ->
  keeps t (for_each l body) (fun _ => True).
Proof.
  intros Hl Hb. induction Hl as [|x l Hx Hl IH]; cbn [for_each].
  - apply keeps_ret. exact I.
  - eapply keeps_bind; [apply Hb, Hx|]. intros _ _. exact IH.
Qed.

Lemma keeps_setattr (t : endpoint) (o : RestObject) (k : string) (v : value) :
  handle_on t o -> handle_on t (setattr o k v).
Proof. intros H. exact H. Qed.

Ltac handle :=
  first [ reflexivity | assumption
        | unfold hits_on in *; assumption
        | unfold handle_on in *; cbn in *; assumption ].

Ltac keeps_leaf :=
  first
    [ apply keeps_self_client | apply keeps_self_target | apply keeps_self_replica
    | apply keeps_get | apply keeps_getattr | apply keeps_as_int | apply keeps_search
    | apply keeps_first_hit; handle | apply keeps_save; handle
    | apply keeps_delete; handle | apply keeps_refresh; handle
    | apply keeps_sleep | apply keeps_set_client | apply keeps_raise | apply keeps_diverge
    | apply keeps_ret; first [exact I | handle | (split; handle)] ].

Ltac keeps_step :=
  lazymatch goal with
  | |- keeps _ (bind self_client _) _ =>
      eapply keeps_bind; [apply keeps_self_client | intros ? ->]
  | |- keeps _ (bind self_target _) _ =>
      eapply keeps_bind; [apply keeps_self_target | intros ? ->]
  | |- keeps ?t (bind (for_each _ delete) _) _ =>
      eapply (keeps_bind _ _ _ (fun _ => True));
      [ apply (keeps_for_each t (handle_on t));
        [handle | intros ? ?; apply keeps_delete; handle]
      | intros ? _ ]
  | |- keeps _ (bind (if ?b then _ else _) _) _ =>
      eapply (keeps_bind _ _ _ (fun _ => True)); [destruct b | intros ? _]
  | |- keeps _ (bind (bind _ _) _) _ =>
      eapply (keeps_bind _ _ _ (fun _ => True)); [ | intros ? _]
  | |- keeps _ (bind _ _) _ =>
      eapply keeps_bind; [keeps_leaf | intros ? ?]
  | |- keeps _ (if ?b then _ else _) _ => destruct b
  | |- keeps _ (try_except _ _) _ => apply keeps_try_except; [ | intros ?]
  | |- keeps ?t (for_each _ delete) _ =>
      apply (keeps_for_each t (handle_on t)); [handle | intros ? ?; apply keeps_delete; handle]
  | |- keeps _ _ (fun _ => True) =>
      first [ keeps_leaf | eapply keeps_weaken; [keeps_leaf | intros; exact I] ]
  | |- keeps _ _ _ => keeps_leaf
  end.

Ltac keeps_auto := repeat keeps_step.

Lemma keeps_delete_by_ref (t : endpoint) (url : string) (name : value) :
  keeps t (_delete_by_ref t url name) (fun _ => True).
Proof. unfold _delete_by_ref. keeps_auto. Qed.

Lemma keeps_update_volume_stats (t : endpoint) :
  keeps t update_volume_stats (fun _ => True).
Proof.
  unfold update_volume_stats. keeps_auto.
Qed.

Lemma keeps_manage_existing_get_size (t : endpoint) (existing_ref : gmap string string) :
  keeps t (manage_existing_get_size existing_ref) (fun _ => True).
Proof.
  unfold manage_existing_get_size. destruct (existing_ref !! "source-name"); keeps_auto.
Qed.

Lemma keeps_get_is_replica (t : endpoint) (vt : option volume_type) :
  keeps t (_get_is_replica vt) (fun _ => True).
Proof. unfold _get_is_replica. keeps_auto. Qed.

Lemma keeps_create_group_and_volume (t : endpoint) (volume : cinder_volume) :
  keeps t (create_group_and_volume volume)
        (fun created => handle_on t created.1 /\ handle_on t created.2).
Proof. unfold create_group_and_volume. keeps_auto. Qed.

Lemma keeps_replica_rollback (t : endpoint) (a b c : string) (d : value) (e : string)
      (f : value) (ex : exn) :
  keeps t (replica_rollback a b c d e f ex) (fun _ => True).
Proof.
  unfold replica_rollback.
  repeat first [ eapply keeps_bind; [apply keeps_delete_by_ref | intros ? _] | keeps_step ].
Qed.

Lemma keeps_create_volume_replica (t : endpoint) (volume : cinder_volume)
      (vg vol : RestObject) (rpo : value) :
  handle_on t vg -> handle_on t vol ->
  keeps t (_create_volume_replica volume vg vol rpo) (fun _ => True).
Proof.
  intros Hvg Hvol. unfold _create_volume_replica.
  repeat first [ apply keeps_replica_rollback | keeps_step ].
Qed.

Lemma keeps_create_volume (t : endpoint) (volume : cinder_volume) :
  keeps t (create_volume volume) (fun _ => True).
Proof.
  unfold create_volume.
  eapply keeps_bind; [apply keeps_create_group_and_volume|]. intros [vg vol] [Hvg Hvol].
  eapply keeps_bind; [apply keeps_get_is_replica|]. intros is_replica _.
  keeps_step. destruct is_replica, a; try (apply keeps_ret; exact I).
  apply keeps_create_volume_replica; assumption.
Qed.

Lemma keeps_failover_volume (t : endpoint) (v : cinder_volume) :
  keeps t (_failover_volume v) (fun _ => True).
Proof. unfold _failover_volume. keeps_auto. Qed.

Lemma keeps_failover_volumes (t : endpoint) (volumes : list cinder_volume)
      (acc : list volume_update) :
  keeps t (failover_volumes volumes acc) (fun _ => True).
Proof.
  revert acc. induction volumes as [|v rest IH]; intros acc; cbn [failover_volumes].
  - apply keeps_ret. exact I.
  - keeps_step. keeps_step. keeps_step; [|apply IH].
    eapply keeps_bind; [apply keeps_failover_volume|]. intros _ _. apply IH.
Qed.

Lemma keeps_failover_host (t : endpoint) (volumes : list cinder_volume)
      (secondary_id : option string) :
  keeps t (failover_host volumes secondary_id) (fun _ => True).
Proof.
  unfold failover_host.
  repeat first [ eapply keeps_bind; [apply keeps_failover_volumes | intros ? _] | keeps_step ].
Qed.

Lemma keeps_check_for_status (t : endpoint) (fuel : nat) (obj : RestObject)
      (status : string) :
  handle_on t obj -> keeps t (_check_for_status fuel obj status) (handle_on t).
Proof.
  revert obj. induction fuel as [|fuel IH]; intros obj Ho; cbn [_check_for_status].
  - keeps_auto.
  - keeps_step. keeps_step; [keeps_auto|].
    keeps_step. keeps_step. apply IH. assumption.
Qed.

Lemma keeps_delete_volume_replica (t : endpoint) (fuel : nat) (volume : cinder_volume)
      (vg_name vol_name : string) :
  keeps t (_delete_volume_replica fuel volume vg_name vol_name) (fun _ => True).
Proof.
  unfold _delete_volume_replica.
  repeat first
    [ eapply keeps_bind; [apply keeps_check_for_status; handle | intros ? ?]
    | eapply keeps_bind; [apply keeps_delete_by_ref | intros ? _]
    | apply keeps_delete_by_ref
    | keeps_step ].
Qed.

Lemma keeps_delete_volume (t : endpoint) (fuel : nat) (volume : cinder_volume) :
  keeps t (delete_volume fuel volume) (fun _ => True).
Proof.
  unfold delete_volume. apply keeps_try_except; [|intros; apply keeps_raise].
  eapply keeps_bind; [apply keeps_get_is_replica|]. intros is_replica _.
  keeps_step.
  eapply (keeps_bind _ _ _ (fun _ => True)).
  { destruct (_ && _); [apply keeps_delete_volume_replica|apply keeps_ret; exact I]. }
  intros _ _. keeps_auto.
Qed.

Lemma keeps_volume_lookup_name (t : endpoint) (volume : cinder_volume) :
  keeps t (volume_lookup_name volume) (fun _ => True).
Proof. unfold volume_lookup_name. keeps_auto. Qed.

Lemma keeps_found_volume (t : endpoint) (vol_name : string) :
  keeps t (let* c := self_client in
           let* vol_rs := search c "volumes" [("name", VStr vol_name)] in
           if Nat.eqb (total vol_rs) 0
           then raise (KaminarioCinderDriverException
                         ("Unable to find volume: " +:+ vol_name +:+ " from K2."))
           else first_hit vol_rs)%eff
        (fun _ => True).
Proof. keeps_auto. Qed.

Lemma keeps_get_volume_object (t : endpoint) (volume : cinder_volume) :
  keeps t (_get_volume_object volume) (fun _ => True).
Proof.
  unfold _get_volume_object.
  eapply keeps_bind; [apply keeps_volume_lookup_name|]. intros vol_name _.
  apply keeps_found_volume.
Qed.

Lemma keeps_unmap (t : endpoint) (connector : gmap string string) (volume : volume_arg) :
  keeps t (let host_name := get_initiator_host_name connector in
           let* c := self_client in
           let* host_rs := search c "hosts" [("name", VStr host_name)] in
           if negb (Nat.eqb (total host_rs) 0)
           then
             let* host := first_hit host_rs in
             let* c := self_client in
             let* map_rs := search c "mappings"
                              [("volume", volume_filter volume); ("host", ref host)] in
             exec (if negb (Nat.eqb (total map_rs) 0)
                   then let* h := first_hit map_rs in delete h
                   else ret tt) ;;;
             let* c := self_client in
             let* left := search c "mappings" [("host", ref host)] in
             if Nat.eqb (total left) 0 then delete host else ret tt
           else ret tt)%eff
        (fun _ => True).
Proof. cbv zeta. keeps_auto. Qed.

Lemma keeps_found_or_given (t : endpoint) (v : cinder_volume) (vol_name : string) :
  keeps t (let* c := self_client in
           let* volume_rs := search c "volumes" [("name", VStr vol_name)] in
           if negb (Nat.eqb (total volume_rs) 0)
           then let* h := first_hit volume_rs in ret (Rest h)
           else ret (Framework v))%eff
        (fun _ => True).
Proof. keeps_auto. Qed.

Lemma keeps_terminate_connection (t : endpoint) (volume : volume_arg)
      (connector : gmap string string) :
  keeps t (terminate_connection volume connector) (fun _ => True).
Proof.
  unfold terminate_connection.
  eapply (keeps_bind _ _ _ (fun _ => True)); [|intros vol _; apply keeps_unmap].
  destruct volume as [v|o].
  - eapply keeps_bind; [apply keeps_volume_lookup_name|]. intros vol_name _.
    apply keeps_found_or_given.
  - keeps_auto.
Qed.

Lemma keeps_perform (t : endpoint) (op : operation) :
  keeps t (perform op) (fun _ => True).
Proof.
  destruct op; cbn [perform].
  - apply keeps_create_volume.
  - apply keeps_delete_volume.
  - eapply keeps_bind; [apply keeps_failover_host|]. intros _ _. apply keeps_ret. exact I.
  - apply keeps_update_volume_stats.
  - eapply keeps_bind; [apply keeps_manage_existing_get_size|]. intros _ _.
    apply keeps_ret. exact I.
  - eapply keeps_bind; [apply keeps_get_volume_object|]. intros _ _. apply keeps_ret. exact I.
  - apply keeps_terminate_connection.
Qed.

Lemma stays_perform_all (t : endpoint) (ops : list operation) :
  forall st, client st = t -> target st = Some t -> stays t st (perform_all ops st).
Proof.
  induction ops as [|op ops IH]; intros st Hc Ht; cbn [perform_all].
  - apply stays_refl; assumption.
  - destruct (keeps_perform t op st Hc Ht) as [Hs _].
    pose proof Hs as (Hc1 & Ht1 & _).
    eapply stays_trans; [exact Hs|]. apply IH; assumption.
Qed.

Lemma volume_lookup_failed_over (t : endpoint) (volume : cinder_volume) (st : state) :
  target st = Some t ->
  replication_status volume = "failed-over" ->
  volume_lookup_name volume st
  = (Ok (get_rep_name (get_volume_name (id volume))), set_client t st).
Proof.
  intros Ht Hs. unfold volume_lookup_name. rewrite Hs.
  rewrite bool_decide_eq_true_2 by reflexivity.
  sim. target_step Ht. reflexivity.
Qed.

Lemma stays_after {A B} (t : endpoint) (m : M A) (k : A -> M B) (st st1 : state) (a : A) :
  m st = (Ok a, st1) -> client st1 = t -> target st1 = Some t ->
  keeps t (k a) (fun _ => True) ->
  client (bind m k st).2 = t /\ target (bind m k st).2 = Some t.
Proof.
  intros Hm Hc Ht Hk. rewrite (bind_ok _ _ _ _ _ Hm).
  destruct (Hk st1 Hc Ht) as [(Hc' & Ht' & _) _]. split; assumption.
Qed.

(** C10: for a volume whose [replication_status] is ['failed-over'], and
    with a target endpoint [t] set, [terminate_connection] and
    [_get_volume_object] leave [self.client] equal to [t]; from then on,
    through any sequence of the driver's calls, whatever volumes they are
    for and however they end, [self.client] remains [t] and every lock
    operation and every request is made on [t]. *)
Theorem failed_over_lookup_retargets_client (t : endpoint) (volume : cinder_volume)
        (connector : gmap string string) (st : state) (ops : list operation) :
  target st = Some t ->
  replication_status volume = "failed-over" ->
  let st1 := (terminate_connection (Framework volume) connector st).2 in
  let st2 := (_get_volume_object volume st).2 in
  client st1 = t /\ stays t st1 (perform_all ops st1)
  /\ client st2 = t /\ stays t st2 (perform_all ops st2).
Proof.
  intros Ht Hs st1 st2.
  assert (Hc0 : client (set_client t st) = t) by reflexivity.
  assert (Ht0 : target (set_client t st) = Some t) by exact Ht.
  assert (H1 : client st1 = t /\ target st1 = Some t).
  { subst st1. unfold terminate_connection. rewrite bind_assoc.
    apply (stays_after t _ _ st _ _ (volume_lookup_failed_over t volume st Ht Hs) Hc0 Ht0).
    eapply (keeps_bind _ _ _ (fun _ => True)); [|intros vol _; apply keeps_unmap].
    apply keeps_found_or_given. }
  assert (H2 : client st2 = t /\ target st2 = Some t).
  { subst st2. unfold _get_volume_object.
    apply (stays_after t _ _ st _ _ (volume_lookup_failed_over t volume st Ht Hs) Hc0 Ht0).
    apply keeps_found_volume. }
  destruct H1 as [Hc1 Ht1], H2 as [Hc2 Ht2].
  split; [exact Hc1|]. split; [apply stays_perform_all; assumption|].
  split; [exact Hc2|]. apply stays_perform_all; assumption.
Qed.

Lemma failed_over_lookup_retargets_client_witness :
  let st := driver_on (one_volume_array "cv-b" 1048576) replica_target_array [] in
  let failed := {| id := "a"; size := 1; vol_type := None;
                   replication_status := "failed-over" |} in
  let st1 := (terminate_connection (Framework failed) ∅ st).2 in
  client st = Source
  /\ target st = Some Target
  /\ client st1 = Target
  /\ stays Target st1
       (perform_all [ManageExistingGetSize {[ "source-name" := "cv-b" ]}; UpdateVolumeStats] st1).
Proof.
  intros st failed st1.
  split; [reflexivity|]. split; [reflexivity|].
  destruct (failed_over_lookup_retargets_client Target failed ∅ st
              [ManageExistingGetSize {[ "source-name" := "cv-b" ]}; UpdateVolumeStats]
              eq_refl eq_refl) as (H1 & H2 & _).
  split; [exact H1|exact H2].
Defined.

Example lookup_after_failed_over_call_misses_source_volume :
  let st := driver_on (one_volume_array "cv-b" 1048576) replica_target_array [] in
  let failed := {| id := "a"; size := 1; vol_type := None;
                   replication_status := "failed-over" |} in
  (manage_existing_get_size {[ "source-name" := "cv-b" ]} st).1 = Ok 1%Z
  /\ (manage_existing_get_size {[ "source-name" := "cv-b" ]}
        (terminate_connection (Framework failed) ∅ st).2).1
     = Raise (ManageExistingInvalidReference "Unable to get size of manage volume.").
Proof. vm_compute. split; reflexivity. Qed.

(** ** Rollback of a failed replica creation *)

Lemma without_without (ids1 ids2 : list nat) (l : list k2_object) :
  without ids2 (without ids1 l) = without (ids1 ++ ids2) l.
Proof.
  unfold without. induction l as [|o l IH]; [reflexivity|]. cbn.
  destruct (bool_decide (oid o ∈ ids1)) eqn:E1; cbn.
  - rewrite IH. rewrite bool_decide_eq_true_2; [reflexivity|].
    apply bool_decide_eq_true in E1. apply elem_of_app. left. exact E1.
  - apply bool_decide_eq_false in E1.
    destruct (bool_decide (oid o ∈ ids2)) eqn:E2; cbn.
    + apply bool_decide_eq_true in E2.
      rewrite bool_decide_eq_true_2 by (apply elem_of_app; right; exact E2). cbn. exact IH.
    + apply bool_decide_eq_false in E2.
      rewrite bool_decide_eq_false_2 by (rewrite elem_of_app; tauto). cbn. rewrite IH.
      reflexivity.
Qed.

Lemma without_nil (l : list k2_object) : without [] l = l.
Proof.
  unfold without. induction l as [|o l IH]; [reflexivity|]. cbn.
  rewrite bool_decide_eq_false_2 by apply not_elem_of_nil. cbn. rewrite IH. reflexivity.
Qed.

Lemma shrunk_refl (st : state) : shrunk st st.
Proof. intros ep url. exists []. rewrite without_nil. reflexivity. Qed.

Lemma shrunk_trans (st1 st2 st3 : state) : shrunk st1 st2 -> shrunk st2 st3 -> shrunk st1 st3.
Proof.
  intros H12 H23 ep url. destruct (H12 ep url) as [i1 E1], (H23 ep url) as [i2 E2].
  exists (i1 ++ i2)%list. rewrite E2, E1. apply without_without.
Qed.

Lemma filter_without (p : k2_object -> bool) (ids : list nat) (l : list k2_object) :
  List.filter p (without ids l) = without ids (List.filter p l).
Proof.
  unfold without. induction l as [|o l IH]; [reflexivity|]. cbn.
  destruct (bool_decide (oid o ∈ ids)) eqn:E, (p o) eqn:P; cbn; rewrite ?E, ?P; cbn;
    rewrite IH; reflexivity.
Qed.

Lemma absent_shrunk (ep : endpoint) (url : string) (name : value) (st st' : state) :
  shrunk st st' -> absent ep url name st -> absent ep url name st'.
Proof.
  intros Hs Ha. unfold absent, found in *. destruct (Hs ep url) as [ids E].
  rewrite E, filter_without, Ha. reflexivity.
Qed.

Lemma calls_app (e1 e2 : list event) : calls (e1 ++ e2) = (calls e1 ++ calls e2)%list.
Proof. unfold calls. apply omap_app. Qed.

Lemma cleaned_refl (st : state) : quiet st -> cleaned st st [].
Proof.
  intros Hq. split; [exact Hq|]. repeat (split; [reflexivity|]).
  split; [apply shrunk_refl|]. exists []. rewrite app_nil_r. split; reflexivity.
Qed.

Lemma cleaned_trans (st1 st2 st3 : state) (c1 c2 : list (endpoint * request)) :
  cleaned st1 st2 c1 -> cleaned st2 st3 c2 -> cleaned st1 st3 (c1 ++ c2).
Proof.
  intros (_ & C1 & T1 & R1 & S1 & e1 & E1 & K1) (Q & C2 & T2 & R2 & S2 & e2 & E2 & K2).
  split; [exact Q|]. split; [congruence|]. split; [congruence|]. split; [congruence|].
  split; [eapply shrunk_trans; eassumption|].
  exists (e1 ++ e2)%list. rewrite E2, E1, app_assoc, calls_app, K1, K2. split; reflexivity.
Qed.

Lemma cleaned_search (ep : endpoint) (url : string) (filters : list (string * value))
      (l : list k2_object) (st : state) :
  quiet st ->
  cleaned st (answered ep (Search url filters) (Hits l) (array_of ep st) st)
          [(ep, Search url filters)].
Proof.
  intros Hq. split; [auto with k2|]. autorewrite with k2_state.
  repeat (split; [reflexivity|]). split.
  - intros ep' url'. exists []. rewrite without_nil, array_of_answered_search. reflexivity.
  - rewrite trace_answered. eexists. split; reflexivity.
Qed.

Lemma without_singleton (i : nat) (l : list k2_object) :
  List.filter (fun o => negb (has_id i o)) l = without [i] l.
Proof.
  unfold without. apply filter_ext. intros o. unfold has_id. f_equal.
  apply bool_decide_ext. rewrite list_elem_of_singleton. reflexivity.
Qed.

Lemma cleaned_delete (ep : endpoint) (url : string) (i : nat) (st : state) :
  quiet st ->
  cleaned st
    (answered ep (Delete url i) Done
       (set_collection url (List.filter (fun o => negb (has_id i o))
                                        (collection (array_of ep st) url))
          (array_of ep st)) st)
    [(ep, Delete url i)].
Proof.
  intros Hq. split; [auto with k2|]. autorewrite with k2_state.
  repeat (split; [reflexivity|]). split.
  - intros ep' url'.
    destruct (decide (ep' = ep)) as [->|Hep].
    + rewrite array_of_answered_same.
      destruct (decide (url = url')) as [->|Hurl].
      * exists [i]. rewrite collection_set_same. apply without_singleton.
      * exists []. rewrite collection_set_other, without_nil by assumption. reflexivity.
    + exists []. rewrite without_nil. destruct ep, ep'; try contradiction; reflexivity.
  - rewrite trace_answered. eexists. split; reflexivity.
Qed.

Lemma delete_quiet (ep : endpoint) (url : string) (o : k2_object) (st : state) :
  quiet st ->
  exists st', delete (of_k2 ep url o) st = (Ok tt, st')
              /\ cleaned st st' [(ep, Delete url (oid o))]
              /\ collection (array_of ep st') url = without [oid o] (collection (array_of ep st) url).
Proof.
  intros Hq. unfold delete. cbn [ro_id of_k2 ro_ep ro_url].
  erewrite bind_ok by (apply request_quiet; [exact Hq|reflexivity]).
  eexists. split; [reflexivity|]. split; [apply cleaned_delete, Hq|].
  rewrite array_of_answered_same, collection_set_same. apply without_singleton.
Qed.

Lemma for_each_delete_quiet (ep : endpoint) (url : string) (l : list k2_object) :
  forall st, quiet st ->
    exists st', for_each (List.map (of_k2 ep url) l) delete st = (Ok tt, st')
                /\ cleaned st st' ((fun o => (ep, Delete url (oid o))) <$> l)
                /\ collection (array_of ep st') url
                   = without (oid <$> l) (collection (array_of ep st) url).
Proof.
  induction l as [|o l IH]; intros st Hq.
  - exists st. split; [reflexivity|]. split; [apply cleaned_refl, Hq|].
    rewrite without_nil. reflexivity.
  - cbn [List.map for_each].
    destruct (delete_quiet ep url o st Hq) as (st1 & Hd & Hc1 & Hw1).
    erewrite bind_ok by exact Hd.
    destruct (IH st1 (proj1 Hc1)) as (st2 & Hf & Hc2 & Hw2).
    exists st2. split; [exact Hf|]. split.
    + exact (cleaned_trans _ _ _ _ _ Hc1 Hc2).
    + rewrite Hw2, Hw1. apply without_without.
Qed.

Lemma without_all (ids : list nat) (l : list k2_object) :
  (forall o, o ∈ l -> oid o ∈ ids) -> without ids l = [].
Proof.
  intros H. unfold without. induction l as [|o l IH]; [reflexivity|]. cbn.
  rewrite bool_decide_eq_true_2 by (apply H; left). cbn.
  apply IH. intros o' Ho'. apply H. right. exact Ho'.
Qed.

Lemma delete_by_ref_quiet (ep : endpoint) (url : string) (name : value) (st : state) :
  quiet st ->
  exists st', _delete_by_ref ep url name st = (Ok tt, st')
              /\ cleaned st st' (deletion ep url name (found ep url [("name", name)] st))
              /\ absent ep url name st'.
Proof.
  intros Hq. unfold _delete_by_ref.
  erewrite bind_ok by (apply search_quiet; exact Hq). cbn [hits result_set].
  set (l := found ep url [("name", name)] st).
  set (st1 := answered ep _ _ _ st).
  assert (Hc1 : cleaned st st1 [(ep, Search url [("name", name)])])
    by (apply cleaned_search, Hq).
  destruct (for_each_delete_quiet ep url l st1 (proj1 Hc1)) as (st2 & Hf & Hc2 & Hw).
  exists st2. split; [exact Hf|]. split.
  - exact (cleaned_trans _ _ _ _ _ Hc1 Hc2).
  - unfold absent, found. rewrite Hw. subst st1. rewrite array_of_answered_search.
    rewrite filter_without. fold (found ep url [("name", name)] st). fold l.
    apply without_all. intros o Ho. apply list_elem_of_fmap. exists o. split; [reflexivity|exact Ho].
Qed.

Lemma replica_rollback_quiet (c t : endpoint) (session_name rsession_name rvol_name : string)
      (vol_name : value) (rvg_name : string) (vg_name : value) (ex : exn) (st : state) :
  quiet st -> client st = c -> target st = Some t ->
  exists st' h1 h2 h3 h4 h5 h6,
    replica_rollback session_name rsession_name rvol_name vol_name rvg_name vg_name ex st
    = (Raise (KaminarioCinderDriverException (message ex)), st')
    /\ cleaned st st'
         (deletion c "replication/sessions" (VStr session_name) h1
          ++ deletion t "replication/sessions" (VStr rsession_name) h2
          ++ deletion t "volumes" (VStr rvol_name) h3
          ++ deletion c "volumes" vol_name h4
          ++ deletion t "volume_groups" (VStr rvg_name) h5
          ++ deletion c "volume_groups" vg_name h6)
    /\ absent c "replication/sessions" (VStr session_name) st'
    /\ absent t "replication/sessions" (VStr rsession_name) st'
    /\ absent t "volumes" (VStr rvol_name) st'
    /\ absent c "volumes" vol_name st'
    /\ absent t "volume_groups" (VStr rvg_name) st'
    /\ absent c "volume_groups" vg_name st'.
Proof.
  intros Hq Hc Ht. unfold replica_rollback. sim. rewrite Hc.
  destruct (delete_by_ref_quiet c "replication/sessions" (VStr session_name) st Hq)
    as (st1 & R1 & C1 & A1).
  erewrite bind_ok by exact R1.
  pose proof C1 as (Q1 & Hc1 & Ht1 & _).
  target_step (eq_trans Ht1 Ht).
  destruct (delete_by_ref_quiet t "replication/sessions" (VStr rsession_name) st1 Q1)
    as (st2 & R2 & C2 & A2).
  erewrite bind_ok by exact R2.
  pose proof C2 as (Q2 & Hc2 & Ht2 & _ & S2 & _).
  target_step (eq_trans Ht2 (eq_trans Ht1 Ht)).
  destruct (delete_by_ref_quiet t "volumes" (VStr rvol_name) st2 Q2)
    as (st3 & R3 & C3 & A3).
  erewrite bind_ok by exact R3.
  pose proof C3 as (Q3 & Hc3 & Ht3 & _ & S3 & _).
  sim. rewrite Hc3, Hc2, Hc1, Hc.
  destruct (delete_by_ref_quiet c "volumes" vol_name st3 Q3) as (st4 & R4 & C4 & A4).
  erewrite bind_ok by exact R4.
  pose proof C4 as (Q4 & Hc4 & Ht4 & _ & S4 & _).
  target_step (eq_trans Ht4 (eq_trans Ht3 (eq_trans Ht2 (eq_trans Ht1 Ht)))).
  destruct (delete_by_ref_quiet t "volume_groups" (VStr rvg_name) st4 Q4)
    as (st5 & R5 & C5 & A5).
  erewrite bind_ok by exact R5.
  pose proof C5 as (Q5 & Hc5 & Ht5 & _ & S5 & _).
  sim. rewrite Hc5, Hc4, Hc3, Hc2, Hc1, Hc.
  destruct (delete_by_ref_quiet c "volume_groups" vg_name st5 Q5) as (st6 & R6 & C6 & A6).
  erewrite bind_ok by exact R6.
  pose proof C6 as (Q6 & _ & _ & _ & S6 & _).
  sim. exists st6. do 6 eexists. split; [reflexivity|]. split.
  { eapply cleaned_trans; [exact C1|]. eapply cleaned_trans; [exact C2|].
    eapply cleaned_trans; [exact C3|]. eapply cleaned_trans; [exact C4|].
    eapply cleaned_trans; [exact C5|exact C6]. }
  assert (S26 : shrunk st2 st6)
    by (repeat (eapply shrunk_trans; [eassumption|]); apply shrunk_refl).
  assert (S36 : shrunk st3 st6)
    by (repeat (eapply shrunk_trans; [eassumption|]); apply shrunk_refl).
  assert (S46 : shrunk st4 st6)
    by (repeat (eapply shrunk_trans; [eassumption|]); apply shrunk_refl).
  assert (S16 : shrunk st1 st6) by (eapply shrunk_trans; eassumption).
  assert (S56 : shrunk st5 st6) by exact S6.
  split; [exact (absent_shrunk _ _ _ _ _ S16 A1)|].
  split; [exact (absent_shrunk _ _ _ _ _ S26 A2)|].
  split; [exact (absent_shrunk _ _ _ _ _ S36 A3)|].
  split; [exact (absent_shrunk _ _ _ _ _ S46 A4)|].
  split; [exact (absent_shrunk _ _ _ _ _ S56 A5)|].
  exact A6.
Qed.

Lemma faults_answered (ep : endpoint) (r : request) (resp : response) (a : array)
      (st : state) :
  faults (answered ep r resp a st) = tail (faults st).
Proof. destruct ep; reflexivity. Qed.

Lemma locked_answered (ep ep' : endpoint) (r : request) (resp : response) (a : array)
      (st : state) :
  locked (answered ep r resp a st) ep' = locked st ep'.
Proof. destruct ep, ep'; reflexivity. Qed.

Lemma save_failed (o : RestObject) (st : state) (e : exn) (rest : list (option exn)) :
  locked st (ro_ep o) = false ->
  faults st = Some e :: rest ->
  transient_busy e = false ->
  is_retryable e = false ->
  save o st = (Raise e, failed_attempt (ro_ep o) (save_request o) e st).
Proof.
  intros Hl Hf Hb Hr. unfold save.
  erewrite bind_raise by (apply (request_failed _ _ _ e rest); assumption).
  reflexivity.
Qed.

Lemma save_answered (o : RestObject) (st : state) (s : k2_object) (a : array) :
  locked st (ro_ep o) = false ->
  reaches_array st = true ->
  serve (save_request o) (array_of (ro_ep o) st) = Some (Object s, a) ->
  save o st = (Ok (of_k2 (ro_ep o) (ro_url o) s),
               answered (ro_ep o) (save_request o) (Object s) a st).
Proof.
  intros Hl Hr Hs. unfold save.
  erewrite bind_ok by (apply request_answered; eassumption). reflexivity.
Qed.

Lemma quiet_failed_attempt (ep : endpoint) (r : request) (e : exn) (st : state) :
  source_locked st = false -> target_locked st = false -> faults st = [Some e] ->
  quiet (failed_attempt ep r e st).
Proof. intros Hs Ht Hf. unfold quiet. cbn. rewrite Hf. auto. Qed.

Lemma calls_attempt (ep : endpoint) (r : request) (out : outcome) :
  calls (attempt ep r out) = [(ep, r)].
Proof. reflexivity. Qed.

Lemma client_failed_attempt (ep : endpoint) (r : request) (e : exn) (st : state) :
  client (failed_attempt ep r e st) = client st.
Proof. reflexivity. Qed.

Lemma target_failed_attempt (ep : endpoint) (r : request) (e : exn) (st : state) :
  target (failed_attempt ep r e st) = target st.
Proof. reflexivity. Qed.

Lemma trace_failed_attempt (ep : endpoint) (r : request) (e : exn) (st : state) :
  trace (failed_attempt ep r e st) = (trace st ++ attempt ep r (Failed e))%list.
Proof. reflexivity. Qed.

Lemma source_locked_answered (ep : endpoint) (r : request) (resp : response) (a : array)
      (st : state) :
  source_locked (answered ep r resp a st) = source_locked st.
Proof. destruct ep; reflexivity. Qed.

Lemma target_locked_answered (ep : endpoint) (r : request) (resp : response) (a : array)
      (st : state) :
  target_locked (answered ep r resp a st) = target_locked st.
Proof. destruct ep; reflexivity. Qed.

#[export] Hint Rewrite faults_answered locked_answered source_locked_answered
  target_locked_answered trace_answered trace_failed_attempt calls_app calls_attempt
  client_failed_attempt target_failed_attempt
  : k2_state.

(** The guarded sequence of [_create_volume_replica] (lines 260-276) with
    the [k]-th of its three requests failing. *)
Lemma guarded_sequence_fails (c : endpoint) (k2peer vg vol : RestObject)
      (session_name rsession_name rvg_name rvol_name : string) (rpo : value)
      (st : state) (k : nat) (e : exn) :
  client st = c ->
  source_locked st = false -> target_locked st = false ->
  faults st = (replicate k None ++ [Some e])%list -> k < 3 ->
  transient_busy e = false -> is_retryable e = false ->
  exists st_f evs,
    (let* c := self_client in
     let src_ssn := new c "replication/sessions" [] in
     let src_ssn := setattr src_ssn "replication_peer_k2array" (ref k2peer) in
     let src_ssn := setattr src_ssn "auto_configure_peer_volumes" (VStr "False") in
     let src_ssn := setattr src_ssn "local_volume_group" (ref vg) in
     let src_ssn := setattr src_ssn "replication_peer_volume_group_name" (VStr rvg_name) in
     let src_ssn := setattr src_ssn "remote_replication_session_name" (VStr rsession_name) in
     let src_ssn := setattr src_ssn "name" (VStr session_name) in
     let src_ssn := setattr src_ssn "rpo" rpo in
     let* src_ssn := save src_ssn in
     let* c := self_client in
     exec save (new c "replication/peer_volumes"
                  [("local_volume", ref vol); ("name", VStr rvol_name);
                   ("replication_session", ref src_ssn)]) ;;;
     let src_ssn := setattr src_ssn "state" (VStr "in_sync") in
     exec save src_ssn ;;;
     ret tt)%eff st
    = (Raise e, st_f)
    /\ quiet st_f /\ client st_f = c /\ target st_f = target st
    /\ trace st_f = (trace st ++ evs)%list
    /\ List.length (calls evs) = S k.
Proof.
  intros Hc Hsl Htl Hf Hk Hb Hr.
  assert (Hl : forall s, source_locked s = false -> target_locked s = false ->
                         locked s c = false) by (intros s; destruct c; auto).
  destruct k as [|[|[|k]]]; [| | |lia]; cbn in Hf.
  - (* saving the source session fails *)
    sim. rewrite Hc.
    erewrite bind_raise by (eapply save_failed; eauto).
    do 2 eexists. split; [reflexivity|].
    split; [apply quiet_failed_attempt; assumption|].
    split; [exact Hc|]. split; [reflexivity|]. split; [reflexivity|reflexivity].
  - (* creating the peer volume fails *)
    sim. rewrite Hc.
    erewrite bind_ok
      by (eapply save_answered; [apply Hl; assumption|unfold reaches_array; rewrite Hf; reflexivity|reflexivity]).
    sim. autorewrite with k2_state. rewrite Hc.
    erewrite bind_raise
      by (eapply save_failed; [apply Hl; autorewrite with k2_state; assumption
                              |autorewrite with k2_state; rewrite Hf; reflexivity|assumption..]).
    do 2 eexists. split; [reflexivity|].
    split.
    { apply quiet_failed_attempt; autorewrite with k2_state; try assumption.
      rewrite Hf. reflexivity. }
    split; [autorewrite with k2_state; exact Hc|].
    split; [autorewrite with k2_state; reflexivity|].
    split; [autorewrite with k2_state; rewrite <- app_assoc; reflexivity|].
    autorewrite with k2_state. reflexivity.
  - (* setting the session in_sync fails *)
    sim. rewrite Hc.
    erewrite bind_ok
      by (eapply save_answered; [apply Hl; assumption|unfold reaches_array; rewrite Hf; reflexivity|reflexivity]).
    sim. autorewrite with k2_state. rewrite Hc.
    erewrite bind_ok
      by (eapply save_answered;
          [apply Hl; autorewrite with k2_state; assumption
          |unfold reaches_array; autorewrite with k2_state; rewrite Hf; reflexivity
          |reflexivity]).
    sim.
    erewrite bind_raise
      by (eapply save_failed; [apply Hl; autorewrite with k2_state; assumption
                              |autorewrite with k2_state; rewrite Hf; reflexivity|assumption..]).
    do 2 eexists. split; [reflexivity|].
    split.
    { apply quiet_failed_attempt; autorewrite with k2_state; try assumption.
      rewrite Hf. reflexivity. }
    split; [autorewrite with k2_state; exact Hc|].
    split; [autorewrite with k2_state; reflexivity|].
    split; [autorewrite with k2_state; rewrite <- !app_assoc; reflexivity|].
    autorewrite with k2_state. reflexivity.
Qed.

Lemma try_except_raise {A} (m : M A) (h : exn -> M A) (st st' : state) (e : exn) :
  m st = (Raise e, st') -> try_except m h st = h e st'.
Proof. intros H. unfold try_except. rewrite H. reflexivity. Qed.




Example replicated_volume_fully_rolled_back :
  let run := create_volume replicated_volume
               (driver_on peer_array empty_array
                  [None; None; None; None; Some (server_error "boom")]) in
  run.1 = Raise (KaminarioCinderDriverException "boom")
  /\ collection (source_array run.2) "volumes" = []
  /\ collection (source_array run.2) "volume_groups" = []
  /\ collection (source_array run.2) "replication/sessions" = []
  /\ snd <$> calls (trace run.2)
     = [ Create "volume_groups"
           (list_to_map [("name", VStr "cvg-v1"); ("quota", VInt 0); ("is_dedup", VBool true)]);
         Create "volumes"
           (list_to_map [("name", VStr "cv-v1"); ("size", VInt 1048576);
                         ("volume_group", VRef 1)]);
         Search "replication/peer_k2arrays" [("mgmt_host", VStr "10.0.0.2")];
         Create "replication/sessions"
           (list_to_map [("replication_peer_k2array", VRef 0);
                         ("auto_configure_peer_volumes", VStr "False");
                         ("local_volume_group", VRef 1);
                         ("replication_peer_volume_group_name", VStr "rcvg-v1");
                         ("remote_replication_session_name", VStr "rssn-v1");
                         ("name", VStr "ssn-v1"); ("rpo", VInt 60)]);
         Create "replication/peer_volumes"
           (list_to_map [("local_volume", VRef 2); ("name", VStr "rcv-v1");
                         ("replication_session", VRef 3)]);
         Search "replication/sessions" [("name", VStr "ssn-v1")];
         Delete "replication/sessions" 3;
         Search "replication/sessions" [("name", VStr "rssn-v1")];
         Search "volumes" [("name", VStr "rcv-v1")];
         Search "volumes" [("name", VStr "cv-v1")];
         Delete "volumes" 2;
         Search "volume_groups" [("name", VStr "rcvg-v1")];
         Search "volume_groups" [("name", VStr "cvg-v1")];
         Delete "volume_groups" 1 ].
Proof. vm_compute. repeat split; reflexivity. Qed.


(** ** The teardown handshake *)

Section Handshake.
Variable t : endpoint.
Variable rname : string.

Lemma tracks_ret {A} (a : A) (w : watcher) (Q : A -> watcher -> Prop) :
  Q a w -> tracks t rname (ret a) w Q.
Proof.
  intros H st Ht. split; [exact Ht|]. exists []. rewrite app_nil_r.
  split; [reflexivity|exact H].
Qed.

Lemma tracks_raise {A} (e : exn) (w : watcher) (Q : A -> watcher -> Prop) :
  phase w <> Violated -> tracks t rname (raise e) w Q.
Proof.
  intros H st Ht. split; [exact Ht|]. exists []. rewrite app_nil_r.
  split; [reflexivity|exact H].
Qed.

Lemma tracks_diverge {A} (w : watcher) (Q : A -> watcher -> Prop) :
  phase w <> Violated -> tracks t rname diverge w Q.
Proof.
  intros H st Ht. split; [exact Ht|]. exists []. rewrite app_nil_r.
  split; [reflexivity|exact H].
Qed.

Lemma tracks_weaken {A} (m : M A) (w : watcher) (Q R : A -> watcher -> Prop) :
  tracks t rname m w Q -> (forall a w', Q a w' -> R a w') -> tracks t rname m w R.
Proof.
  intros H HQ st Ht. destruct (H st Ht) as (Ht' & evs & Htr & Hq).
  split; [exact Ht'|]. exists evs. split; [exact Htr|].
  cbv zeta in *. destruct (m st).1; auto.
Qed.

Lemma tracks_bind {A B} (m : M A) (k : A -> M B) (w : watcher)
      (Q : A -> watcher -> Prop) (R : B -> watcher -> Prop) :
  tracks t rname m w Q ->
  (forall a w', Q a w' -> tracks t rname (k a) w' R) ->
  tracks t rname (bind m k) w R.
Proof.
  intros Hm Hk st Ht. destruct (Hm st Ht) as (Ht1 & evs1 & Htr1 & Hq).
  unfold bind. destruct (m st) as [[a|e|] st1]; cbn in *.
  - destruct (Hk a _ Hq st1 Ht1) as (Ht2 & evs2 & Htr2 & Hr).
    split; [exact Ht2|]. exists (evs1 ++ evs2)%list.
    rewrite Htr2, Htr1, app_assoc, fold_left_app. split; [reflexivity|exact Hr].
  - split; [exact Ht1|]. exists evs1. split; [exact Htr1|exact Hq].
  - split; [exact Ht1|]. exists evs1. split; [exact Htr1|exact Hq].
Qed.

Lemma reading_silent (w : watcher) (evs : list event) :
  Forall (silent t rname w) evs -> fold_left (watch t rname) evs w = w.
Proof.
  induction 1 as [|ev evs Hev _ IH]; [reflexivity|]. cbn. rewrite Hev. exact IH.
Qed.

Lemma silent_acquire (w : watcher) (ep : endpoint) : silent t rname w (Acquire ep).
Proof. unfold silent, watch. destruct (phase w); reflexivity. Qed.

Lemma silent_release (w : watcher) (ep : endpoint) : silent t rname w (Release ep).
Proof. unfold silent, watch. destruct (phase w); reflexivity. Qed.

Lemma silent_sleep (w : watcher) (n : nat) : silent t rname w (Sleep n).
Proof. unfold silent, watch. destruct (phase w); reflexivity. Qed.

Lemma silent_may_delete (w : watcher) (ev : event) :
  phase w = MayDelete -> silent t rname w ev.
Proof. intros H. unfold silent, watch. rewrite H. reflexivity. Qed.

Lemma silent_failed (w : watcher) (ep : endpoint) (r : request) (e : exn) :
  harmless r \/ phase w = MayDelete -> silent t rname w (Call ep r (Failed e)).
Proof.
  intros [H | H]; [|apply silent_may_delete, H].
  unfold silent, watch. destruct (phase w); try reflexivity;
    destruct r; try reflexivity; cbn in H;
    rewrite bool_decide_eq_false_2 by assumption; reflexivity.
Qed.

Lemma reading_failed_attempt (w : watcher) (ep : endpoint) (r : request) (e : exn) :
  harmless r \/ phase w = MayDelete ->
  fold_left (watch t rname) (attempt ep r (Failed e)) w = w.
Proof.
  intros H. apply reading_silent. unfold attempt.
  repeat constructor; auto using silent_acquire, silent_release, silent_failed.
Qed.

Lemma reading_answered_attempt (w : watcher) (ep : endpoint) (r : request)
      (resp : response) :
  fold_left (watch t rname) (attempt ep r (Answered resp)) w
  = watch t rname w (Call ep r (Answered resp)).
Proof.
  unfold attempt. cbn [fold_left]. rewrite (silent_acquire w ep).
  apply silent_release.
Qed.

Lemma request_body_locked (ep : endpoint) (r : request) (st : state) :
  locked st ep = true -> _request_body ep r st = (Diverge, st).
Proof.
  intros H. unfold _request_body, try_finally, try_except, bind, krestlock_acquire.
  rewrite H. reflexivity.
Qed.

(** The three ways an attempt of [_request] ends. *)
Lemma request_body_cases (ep : endpoint) (r : request) (st : state) :
  _request_body ep r st = (Diverge, st)
  \/ (exists e, _request_body ep r st = (Raise (surfaced e), failed_attempt ep r e st))
  \/ (exists resp a, serve r (array_of ep st) = Some (resp, a)
                     /\ _request_body ep r st = (Ok resp, answered ep r resp a st)).
Proof.
  destruct (locked st ep) eqn:Hl; [left; apply request_body_locked, Hl|right].
  destruct (reaches_array st) eqn:Hr.
  - destruct (serve r (array_of ep st)) as [[resp a]|] eqn:Hs.
    + right. exists resp, a. split; [reflexivity|].
      apply request_body_answered; assumption.
    + left. exists not_found. apply request_body_rejected; assumption.
  - left. unfold reaches_array in Hr.
    destruct (faults st) as [|[e|] rest] eqn:Hf; try discriminate Hr.
    exists e. eapply request_body_failed; eassumption.
Qed.

Lemma target_failed (ep : endpoint) (r : request) (e : exn) (st : state) :
  target (failed_attempt ep r e st) = target st.
Proof. reflexivity. Qed.

Lemma trace_failed (ep : endpoint) (r : request) (e : exn) (st : state) :
  trace (failed_attempt ep r e st) = (trace st ++ attempt ep r (Failed e))%list.
Proof. reflexivity. Qed.

(** What the attempts of a request add to a reading: nothing unless the
    array answers, and then the answer. *)
Lemma retry_attempts_reading (ep : endpoint) (r : request) (w : watcher) (n : nat) :
  harmless r \/ phase w = MayDelete ->
  forall st, target st = Some t ->
    let run := retry_attempts n (_request_body ep r) st in
    target run.2 = Some t
    /\ exists evs,
         trace run.2 = (trace st ++ evs)%list
         /\ match run.1 with
            | Ok resp =>
                fold_left (watch t rname) evs w
                = watch t rname w (Call ep r (Answered resp))
                /\ exists a a', serve r a = Some (resp, a')
            | _ => fold_left (watch t rname) evs w = w
            end.
Proof.
  intros Hp. induction n as [|n IH]; intros st Ht; cbn zeta; cbn [retry_attempts];
    destruct (request_body_cases ep r st) as [E | [[e E] | (resp & a & Hs & E)]];
    rewrite E.
  - cbn [fst snd]. split; [exact Ht|]. exists []. rewrite app_nil_r. split; reflexivity.
  - assert (H : target (failed_attempt ep r e st) = Some t
                /\ exists evs, trace (failed_attempt ep r e st) = (trace st ++ evs)%list
                               /\ fold_left (watch t rname) evs w = w).
    { split; [exact Ht|]. exists (attempt ep r (Failed e)).
      split; [reflexivity|apply reading_failed_attempt, Hp]. }
    destruct (surfaced e); exact H.
  - cbn [fst snd]. rewrite target_answered, trace_answered. split; [exact Ht|].
    exists (attempt ep r (Answered resp)). split; [reflexivity|].
    split; [apply reading_answered_attempt|eauto].
  - cbn [fst snd]. split; [exact Ht|]. exists []. rewrite app_nil_r. split; reflexivity.
  - assert (H : target (failed_attempt ep r e st) = Some t
                /\ exists evs, trace (failed_attempt ep r e st) = (trace st ++ evs)%list
                               /\ fold_left (watch t rname) evs w = w).
    { split; [exact Ht|]. exists (attempt ep r (Failed e)).
      split; [reflexivity|apply reading_failed_attempt, Hp]. }
    destruct (surfaced e) eqn:Es; try exact H.
    destruct (IH (failed_attempt ep r e st) Ht) as (Ht2 & evs2 & Htr2 & Hq).
    split; [exact Ht2|]. exists (attempt ep r (Failed e) ++ evs2)%list.
    rewrite Htr2, trace_failed, app_assoc, fold_left_app, reading_failed_attempt by exact Hp.
    split; [reflexivity|exact Hq].
  - cbn [fst snd]. rewrite target_answered, trace_answered. split; [exact Ht|].
    exists (attempt ep r (Answered resp)). split; [reflexivity|].
    split; [apply reading_answered_attempt|eauto].
Qed.

Lemma tracks_request (ep : endpoint) (r : request) (w : watcher) :
  permitted w r ->
  tracks t rname (_request ep r) w
         (fun resp w' => w' = watch t rname w (Call ep r (Answered resp))
                         /\ exists a a', serve r a = Some (resp, a')).
Proof.
  intros [Hv Hp] st Ht. unfold _request, retry.
  destruct (retry_attempts_reading ep r w (Nat.pred MAX_K2_RETRY) Hp st Ht)
    as (Ht' & evs & Htr & Hq).
  split; [exact Ht'|]. exists evs. split; [exact Htr|]. cbn zeta in *.
  destruct (retry_attempts _ _ st).1; [exact Hq| |]; rewrite Hq; exact Hv.
Qed.


Lemma tracks_request_silent (ep : endpoint) (r : request) (w : watcher) :
  permitted w r ->
  (forall resp, silent t rname w (Call ep r (Answered resp))) ->
  tracks t rname (_request ep r) w
         (fun resp w' => w' = w /\ exists a a', serve r a = Some (resp, a')).
Proof.
  intros Hp Hs. eapply tracks_weaken; [apply tracks_request, Hp|].
  intros resp w' [-> H]. split; [apply Hs|exact H].
Qed.

Lemma tracks_self_client (w : watcher) :
  tracks t rname self_client w (fun _ w' => w' = w).
Proof.
  intros st Ht. split; [exact Ht|]. exists []. rewrite app_nil_r. split; reflexivity.
Qed.

Lemma tracks_self_target (w : watcher) :
  tracks t rname self_target w (fun ep w' => ep = t /\ w' = w).
Proof.
  intros st Ht. unfold self_target, bind, get. rewrite Ht. cbn.
  split; [exact Ht|]. exists []. rewrite app_nil_r. repeat split.
Qed.

Lemma tracks_getattr (o : RestObject) (k : string) (w : watcher) :
  phase w <> Violated ->
  tracks t rname (getattr o k) w (fun v w' => ro_attrs o !! k = Some v /\ w' = w).
Proof.
  intros Hv. unfold getattr. destruct (ro_attrs o !! k);
    [apply tracks_ret; auto | apply tracks_raise, Hv].
Qed.

Lemma tracks_first_hit (rs : ResultSet) (w : watcher) :
  phase w <> Violated ->
  tracks t rname (first_hit rs) w (fun o w' => (exists l, hits rs = o :: l) /\ w' = w).
Proof.
  intros Hv. unfold first_hit. destruct (hits rs) as [|o l];
    [apply tracks_raise, Hv | apply tracks_ret; eauto].
Qed.

Lemma tracks_sleep (n : nat) (w : watcher) :
  tracks t rname (sleep n) w (fun _ w' => w' = w).
Proof.
  intros st Ht. split; [exact Ht|]. exists [Sleep n]. split; [reflexivity|].
  cbn. apply silent_sleep.
Qed.

Lemma tracks_search (ep : endpoint) (url : string) (filters : list (string * value))
      (w : watcher) :
  phase w <> Violated ->
  tracks t rname (search ep url filters) w
         (fun rs w' => exists l, rs = result_set ep url l
                                 /\ w' = watch t rname w
                                           (Call ep (Search url filters) (Answered (Hits l)))).
Proof.
  intros Hv. unfold search.
  eapply tracks_bind; [apply tracks_request; split; [exact Hv|left; exact I]|].
  intros resp w' [-> (a & a' & Hs)]. cbn in Hs. injection Hs as <- _.
  apply tracks_ret. eexists. split; reflexivity.
Qed.

(** A search that is not the one for the target session adds nothing to
    a reading. *)
Lemma tracks_search_other (ep : endpoint) (url : string) (filters : list (string * value))
      (w : watcher) :
  phase w <> Violated ->
  filters <> by_name rname \/ url <> sessions_url \/ phase w = MayDelete ->
  tracks t rname (search ep url filters) w
         (fun rs w' => (exists l, rs = result_set ep url l) /\ w' = w).
Proof.
  intros Hv Ho. eapply tracks_weaken; [apply tracks_search, Hv|].
  intros rs w' (l & -> & ->). split; [eauto|].
  destruct Ho as [Ho | [Ho | Ho]]; [| |apply silent_may_delete, Ho];
    unfold watch; destruct (phase w); try reflexivity; destruct l; try reflexivity;
    rewrite bool_decide_eq_false_2; try reflexivity; intros (_ & ? & ?); contradiction.
Qed.

Lemma tracks_save (o : RestObject) (w : watcher) :
  phase w <> Violated ->
  tracks t rname (save o) w (fun _ w' => w' = w).
Proof.
  intros Hv. unfold save.
  eapply tracks_bind.
  - apply tracks_request_silent.
    + split; [exact Hv|]. left. destruct (ro_id o); exact I.
    + intros resp. unfold silent, watch.
      destruct (phase w), (ro_id o); reflexivity.
  - intros resp w' [-> _]. destruct resp; try (apply tracks_raise, Hv).
    apply tracks_ret. reflexivity.
Qed.

Lemma tracks_delete (o : RestObject) (w : watcher) :
  phase w <> Violated ->
  ro_url o <> sessions_url \/ phase w = MayDelete ->
  tracks t rname (delete o) w (fun _ w' => w' = w).
Proof.
  intros Hv Ho. unfold delete. destruct (ro_id o) as [i|]; [|apply tracks_raise, Hv].
  eapply tracks_bind.
  - apply tracks_request_silent.
    + split; [exact Hv|]. destruct Ho as [Ho | Ho]; [left; exact Ho|right; exact Ho].
    + intros resp. destruct Ho as [Ho | Ho]; [|apply silent_may_delete, Ho].
      unfold silent, watch. destruct (phase w); try reflexivity;
        rewrite bool_decide_eq_false_2 by exact Ho; reflexivity.
  - intros resp w' [-> _]. apply tracks_ret. reflexivity.
Qed.

Lemma tracks_for_each_delete (l : list RestObject) (w : watcher) :
  phase w <> Violated ->
  Forall (fun o => ro_url o <> sessions_url \/ phase w = MayDelete) l ->
  tracks t rname (for_each l delete) w (fun _ w' => w' = w).
Proof.
  intros Hv Hl. induction Hl as [|o l Ho _ IH]; cbn [for_each].
  - apply tracks_ret. reflexivity.
  - eapply tracks_bind; [apply tracks_delete; assumption|].
    intros _ w' ->. exact IH.
Qed.

Lemma tracks_delete_by_ref (ep : endpoint) (url : string) (name : value) (w : watcher) :
  phase w <> Violated ->
  url <> sessions_url \/ phase w = MayDelete ->
  tracks t rname (_delete_by_ref ep url name) w (fun _ w' => w' = w).
Proof.
  intros Hv Ho. unfold _delete_by_ref.
  eapply tracks_bind.
  - apply tracks_search_other; [exact Hv|]. destruct Ho; auto.
  - intros rs w' [[l ->] ->]. apply tracks_for_each_delete; [exact Hv|].
    cbn. apply Forall_forall. intros o Hin.
    apply list_elem_of_In, in_map_iff in Hin as (x & <- & _). exact Ho.
Qed.

Lemma tracks_refresh (o : RestObject) (i : nat) (w : watcher) :
  phase w <> Violated ->
  ro_id o = Some i ->
  tracks t rname (refresh o) w
         (fun o' w' => exists s, o' = of_k2 (ro_ep o) (ro_url o) s /\ oid s = i
                                 /\ w' = watch t rname w
                                           (Call (ro_ep o) (Refresh (ro_url o) i)
                                                 (Answered (Object s)))).
Proof.
  intros Hv Hi. unfold refresh. rewrite Hi.
  eapply tracks_bind; [apply tracks_request; split; [exact Hv|left; exact I]|].
  intros resp w' [-> (a & a' & Hs)]. cbn in Hs.
  destruct (List.find (has_id i) (collection a (ro_url o))) as [s|] eqn:E; [|discriminate].
  injection Hs as <- _. apply tracks_ret. exists s. split; [reflexivity|].
  split; [|reflexivity].
  apply find_some in E as [_ E]. apply bool_decide_eq_true in E. exact E.
Qed.

(** The answer to refreshing the watched session is an observation. *)
Lemma watch_refresh (w : watcher) (i : nat) (s : k2_object) :
  phase w = AwaitSuspended \/ phase w = AwaitIdle ->
  watched w = Some i ->
  watch t rname w (Call t (Refresh sessions_url i) (Answered (Object s)))
  = {| phase := observe (fields s !! "state") (phase w); watched := Some i |}.
Proof.
  intros Hp Hw. unfold watch. rewrite bool_decide_eq_true_2 by auto. rewrite Hw.
  destruct Hp as [-> | ->]; reflexivity.
Qed.

(** The loop of [_check_for_status] on the watched session: it ends only
    with the awaited state seen. *)
Lemma tracks_check_for_status (wait next : handshake_phase) (status : string) (i : nat) :
  (forall s, observe s wait = if bool_decide (s = Some (VStr status)) then next else wait) ->
  wait = AwaitSuspended \/ wait = AwaitIdle ->
  next <> Violated ->
  forall (fuel : nat) (obj : RestObject) (w : watcher),
    ro_ep obj = t -> ro_url obj = sessions_url -> ro_id obj = Some i ->
    watched w = Some i ->
    phase w = (if bool_decide (ro_attrs obj !! "state" = Some (VStr status))
               then next else wait) ->
    tracks t rname (_check_for_status fuel obj status) w
           (fun obj' w' => ro_ep obj' = t /\ ro_url obj' = sessions_url
                           /\ ro_id obj' = Some i
                           /\ ro_attrs obj' !! "state" = Some (VStr status)
                           /\ watched w' = Some i /\ phase w' = next).
Proof.
  intros Hobs Hwait Hnext.
  assert (Hwv : wait <> Violated) by (destruct Hwait; congruence).
  induction fuel as [|fuel IH]; intros obj w He Hu Hi Hw Hp;
    cbn [_check_for_status];
    (assert (Hv : phase w <> Violated)
      by (rewrite Hp; destruct (bool_decide _); assumption));
    (eapply tracks_bind; [apply tracks_getattr, Hv|]);
    intros v w' [Hattr ->];
    destruct (bool_decide (v = VStr status)) eqn:Ev.
  - apply bool_decide_eq_true in Ev. subst v. apply tracks_ret.
    rewrite Hattr, bool_decide_eq_true_2 in Hp by reflexivity. auto 10.
  - apply tracks_diverge, Hv.
  - apply bool_decide_eq_true in Ev. subst v. apply tracks_ret.
    rewrite Hattr, bool_decide_eq_true_2 in Hp by reflexivity. auto 10.
  - apply bool_decide_eq_false in Ev.
    rewrite Hattr, bool_decide_eq_false_2 in Hp by congruence.
    eapply tracks_bind; [apply (tracks_refresh obj i), Hi; exact Hv|].
    intros obj' w' (s & -> & Hs & ->).
    eapply tracks_bind; [apply tracks_sleep|]. intros _ w'' ->.
    rewrite He, Hu, watch_refresh by (rewrite ?Hp; assumption).
    apply IH; cbn [of_k2 ro_ep ro_url ro_id ro_attrs phase watched]; auto;
      try congruence.
    rewrite Hp. apply Hobs.
Qed.

End Handshake.

Lemma rep_name_differs (name : string) : get_rep_name name <> name.
Proof.
  intros H. apply (f_equal String.length) in H.
  change (S (String.length name) = String.length name) in H. lia.
Qed.

Lemma observe_safe (s : option value) (p : handshake_phase) :
  p <> Violated -> phase {| phase := observe s p; watched := None |} <> Violated.
Proof.
  intros H. cbn. destruct p; cbn; try destruct (bool_decide _); congruence.
Qed.

(** The answer to the search for the target session starts the watch. *)
Lemma watch_search_target (t : endpoint) (rname : string) (o : k2_object)
      (l : list k2_object) :
  watch t rname unwatched
        (Call t (Search sessions_url (by_name rname)) (Answered (Hits (o :: l))))
  = {| phase := observe (fields o !! "state") AwaitSuspended; watched := Some (oid o) |}.
Proof. unfold watch. cbn [phase unwatched]. rewrite bool_decide_eq_true_2 by auto. reflexivity. Qed.

Lemma tracks_bind_ret {A B} (t : endpoint) (rname : string) (a : A) (k : A -> M B)
      (w : watcher) (R : B -> watcher -> Prop) :
  tracks t rname (k a) w R -> tracks t rname (bind (ret a) k) w R.
Proof. intros H. exact H. Qed.

Ltac settled Hm :=
  first
    [ eapply tracks_weaken;
      [ apply tracks_delete_by_ref; [rewrite Hm; discriminate | right; exact Hm]
      | intros ? ? ->; exact Hm ]
    | eapply tracks_bind; [apply tracks_self_client | intros ? ? ->]
    | eapply tracks_bind; [apply tracks_self_target | intros ? ? [-> ->]]
    | eapply tracks_bind;
      [ apply tracks_search_other; [rewrite Hm; discriminate | right; right; exact Hm]
      | intros ? ? [[? ->] ->] ]
    | eapply tracks_bind;
      [ apply tracks_delete; [rewrite Hm; discriminate | right; exact Hm]
      | intros ? ? -> ]
    | eapply tracks_bind;
      [ apply tracks_for_each_delete;
        [rewrite Hm; discriminate | apply Forall_forall; intros; right; exact Hm]
      | intros ? ? -> ]
    | eapply tracks_bind;
      [ apply tracks_delete_by_ref; [rewrite Hm; discriminate | right; exact Hm]
      | intros ? ? -> ] ].

(** The teardown never brings the reading of its log to [Violated], and
    returns only with the handshake complete. *)
Lemma tracks_delete_volume_replica (t : endpoint) (fuel : nat) (volume : cinder_volume)
      (vg_name vol_name : string) :
  tracks t (target_session_name volume)
         (_delete_volume_replica fuel volume vg_name vol_name) unwatched
         (fun _ w => phase w = MayDelete).
Proof.
  unfold _delete_volume_replica.
  assert (Hu : phase unwatched <> Violated) by discriminate.
  eapply tracks_bind; [apply tracks_self_client|]. intros c w ->.
  eapply tracks_bind.
  { apply tracks_search_other; [exact Hu|]. left. unfold by_name, target_session_name.
    intros H.
    assert (E : get_rep_name (get_session_name (id volume)) = get_session_name (id volume))
      by congruence.
    exact (rep_name_differs _ E). }
  intros src_rs w [_ ->].
  eapply tracks_bind; [apply tracks_first_hit, Hu|]. intros src_ssn w [_ ->].
  eapply tracks_bind; [apply tracks_self_target|]. intros t' w [-> ->].
  eapply tracks_bind; [apply tracks_search, Hu|]. intros tgt_rs w (l & -> & ->).
  destruct l as [|o l]; [apply tracks_raise; cbn; discriminate|].
  change (Search "replication/sessions" [("name", VStr (get_rep_name (get_session_name (id volume))))])
    with (Search sessions_url (by_name (target_session_name volume))).
  rewrite watch_search_target.
  cbn [first_hit result_set hits List.map].
  apply tracks_bind_ret.
  assert (Hs : phase {| phase := observe (fields o !! "state") AwaitSuspended;
                        watched := Some (oid o) |} <> Violated).
  { cbn. destruct (bool_decide _); discriminate. }
  eapply tracks_bind; [apply tracks_save, Hs|]. intros src_ssn1 w ->.
  eapply tracks_bind.
  { apply (tracks_check_for_status t _ AwaitSuspended AwaitIdle "suspended" (oid o));
      try reflexivity; auto; discriminate. }
  intros tgt_ssn1 w (He & Hurl & Hi & Hst & Hw & Hp).
  eapply tracks_bind; [apply tracks_save; rewrite Hp; discriminate|]. intros src_ssn2 w' ->.
  eapply tracks_bind.
  { apply (tracks_check_for_status t _ AwaitIdle MayDelete "idle" (oid o));
      try reflexivity; auto; try discriminate.
    rewrite Hst, Hp. reflexivity. }
  intros tgt_ssn2 w2 (_ & _ & _ & _ & _ & Hm).
  repeat settled Hm.
Qed.

Lemma violated_sticks (t : endpoint) (rname : string) (evs : list event) (w : watcher) :
  phase w = Violated -> phase (fold_left (watch t rname) evs w) = Violated.
Proof.
  revert w. induction evs as [|ev evs IH]; intros w H; [exact H|].
  cbn [fold_left]. apply IH. unfold watch. rewrite H. exact H.
Qed.

(** In a log whose reading is not [Violated], every deletion of a session
    comes after the handshake. *)
Lemma deletion_after_handshake (t : endpoint) (rname : string) (w : watcher)
      (pre post : list event) (ep : endpoint) (i : nat) (out : outcome) :
  phase (fold_left (watch t rname)
                   (pre ++ Call ep (Delete sessions_url i) out :: post) w) <> Violated ->
  phase (fold_left (watch t rname) pre w) = MayDelete.
Proof.
  rewrite fold_left_app. cbn [fold_left].
  generalize (fold_left (watch t rname) pre w). intros w1 H.
  destruct (phase w1) eqn:E; try reflexivity;
    exfalso; apply H, violated_sticks; unfold watch; rewrite E;
    rewrite ?bool_decide_eq_true_2 by reflexivity; try reflexivity; exact E.
Qed.


Section Emits.
Variables c t : endpoint.

Lemma answers_app (e1 e2 : list event) : answers (e1 ++ e2) = (answers e1 ++ answers e2)%list.
Proof. apply List.filter_app. Qed.

Lemma emits_ret {A} (a : A) (Q : A -> list event -> Prop) : Q a [] -> emits c t (ret a) Q.
Proof.
  intros H st Hc Ht. split; [exact Hc|]. split; [exact Ht|].
  exists []. rewrite app_nil_r. split; [reflexivity|exact H].
Qed.

Lemma emits_raise {A} (e : exn) (Q : A -> list event -> Prop) : emits c t (raise e) Q.
Proof.
  intros st Hc Ht. split; [exact Hc|]. split; [exact Ht|].
  exists []. rewrite app_nil_r. split; [reflexivity|exact I].
Qed.

Lemma emits_diverge {A} (Q : A -> list event -> Prop) : emits c t diverge Q.
Proof.
  intros st Hc Ht. split; [exact Hc|]. split; [exact Ht|].
  exists []. rewrite app_nil_r. split; [reflexivity|exact I].
Qed.

Lemma emits_weaken {A} (m : M A) (Q R : A -> list event -> Prop) :
  emits c t m Q -> (forall a l, Q a l -> R a l) -> emits c t m R.
Proof.
  intros H HQ st Hc Ht. destruct (H st Hc Ht) as (Hc' & Ht' & evs & Htr & Hq).
  split; [exact Hc'|]. split; [exact Ht'|]. exists evs. split; [exact Htr|].
  destruct (m st).1; auto.
Qed.

Lemma emits_bind {A B} (m : M A) (k : A -> M B)
      (Q : A -> list event -> Prop) (R : B -> list event -> Prop) :
  emits c t m Q ->
  (forall a l1, Q a l1 -> emits c t (k a) (fun b l2 => R b (l1 ++ l2)%list)) ->
  emits c t (bind m k) R.
Proof.
  intros Hm Hk st Hc Ht. destruct (Hm st Hc Ht) as (Hc1 & Ht1 & evs1 & Htr1 & Hq).
  unfold bind. destruct (m st) as [[a|e|] st1]; cbn [fst snd] in *.
  - destruct (Hk a _ Hq st1 Hc1 Ht1) as (Hc2 & Ht2 & evs2 & Htr2 & Hr).
    split; [exact Hc2|]. split; [exact Ht2|]. exists (evs1 ++ evs2)%list.
    rewrite Htr2, Htr1, app_assoc, answers_app. split; [reflexivity|exact Hr].
  - split; [exact Hc1|]. split; [exact Ht1|]. exists evs1. split; [exact Htr1|exact I].
  - split; [exact Hc1|]. split; [exact Ht1|]. exists evs1. split; [exact Htr1|exact I].
Qed.

Lemma emits_bind_ret {A B} (a : A) (k : A -> M B) (R : B -> list event -> Prop) :
  emits c t (k a) R -> emits c t (bind (ret a) k) R.
Proof. intros H. exact H. Qed.

Lemma emits_self_client : emits c t self_client (fun x l => x = c /\ l = []).
Proof.
  intros st Hc Ht. split; [exact Hc|]. split; [exact Ht|].
  exists []. rewrite app_nil_r. split; [reflexivity|]. split; [exact Hc|reflexivity].
Qed.

Lemma emits_self_target : emits c t self_target (fun x l => x = t /\ l = []).
Proof.
  intros st Hc Ht. unfold self_target, bind, get. rewrite Ht. cbn.
  split; [exact Hc|]. split; [exact Ht|].
  exists []. rewrite app_nil_r. repeat split.
Qed.

Lemma emits_getattr (o : RestObject) (k : string) :
  emits c t (getattr o k) (fun v l => ro_attrs o !! k = Some v /\ l = []).
Proof.
  unfold getattr. destruct (ro_attrs o !! k); [apply emits_ret; auto | apply emits_raise].
Qed.

Lemma emits_first_hit (rs : ResultSet) :
  emits c t (first_hit rs) (fun o l => (exists tl, hits rs = o :: tl) /\ l = []).
Proof.
  unfold first_hit. destruct (hits rs) as [|o tl]; [apply emits_raise | apply emits_ret; eauto].
Qed.

Lemma emits_sleep (n : nat) : emits c t (sleep n) (fun _ l => l = [Sleep n]).
Proof.
  intros st Hc Ht. split; [exact Hc|]. split; [exact Ht|].
  exists [Sleep n]. split; reflexivity.
Qed.

Lemma emits_retry_attempts (ep : endpoint) (r : request) (n : nat) :
  emits c t (retry_attempts n (_request_body ep r))
        (fun resp l => l = [Call ep r (Answered resp)]
                       /\ exists a a', serve r a = Some (resp, a')).
Proof.
  induction n as [|n IH]; intros st Hc Ht; cbn [retry_attempts];
    destruct (request_body_cases ep r st) as [E | [[e E] | (resp & a & Hs & E)]];
    rewrite E.
  - cbn [fst snd]. split; [exact Hc|]. split; [exact Ht|].
    exists []. rewrite app_nil_r. split; [reflexivity|exact I].
  - assert (H : client (failed_attempt ep r e st) = c
                /\ target (failed_attempt ep r e st) = Some t
                /\ exists evs, trace (failed_attempt ep r e st) = (trace st ++ evs)%list
                               /\ True).
    { split; [exact Hc|]. split; [exact Ht|]. exists (attempt ep r (Failed e)).
      split; [reflexivity|exact I]. }
    destruct (surfaced e); exact H.
  - cbn [fst snd]. rewrite client_answered, target_answered, trace_answered.
    split; [exact Hc|]. split; [exact Ht|].
    exists (attempt ep r (Answered resp)). split; [reflexivity|].
    split; [reflexivity|eauto].
  - cbn [fst snd]. split; [exact Hc|]. split; [exact Ht|].
    exists []. rewrite app_nil_r. split; [reflexivity|exact I].
  - assert (H : client (failed_attempt ep r e st) = c
                /\ target (failed_attempt ep r e st) = Some t
                /\ exists evs, trace (failed_attempt ep r e st) = (trace st ++ evs)%list
                               /\ True).
    { split; [exact Hc|]. split; [exact Ht|]. exists (attempt ep r (Failed e)).
      split; [reflexivity|exact I]. }
    destruct (surfaced e) eqn:Es; try exact H.
    destruct (IH (failed_attempt ep r e st) Hc Ht) as (Hc2 & Ht2 & evs2 & Htr2 & Hq).
    split; [exact Hc2|]. split; [exact Ht2|].
    exists (attempt ep r (Failed e) ++ evs2)%list.
    rewrite Htr2, trace_failed, app_assoc, answers_app.
    split; [reflexivity|exact Hq].
  - cbn [fst snd]. rewrite client_answered, target_answered, trace_answered.
    split; [exact Hc|]. split; [exact Ht|].
    exists (attempt ep r (Answered resp)). split; [reflexivity|].
    split; [reflexivity|eauto].
Qed.

Lemma emits_request (ep : endpoint) (r : request) :
  emits c t (_request ep r)
        (fun resp l => l = [Call ep r (Answered resp)]
                       /\ exists a a', serve r a = Some (resp, a')).
Proof. apply emits_retry_attempts. Qed.

Lemma emits_search (ep : endpoint) (url : string) (filters : list (string * value)) :
  emits c t (search ep url filters)
        (fun rs l => exists hs, rs = result_set ep url hs
                                /\ l = [Call ep (Search url filters) (Answered (Hits hs))]).
Proof.
  unfold search. eapply emits_bind; [apply emits_request|].
  intros resp l [-> (a & a' & Hs)]. cbn in Hs. injection Hs as <- _.
  apply emits_ret. eexists. split; reflexivity.
Qed.

Lemma serve_update_oid (url : string) (i : nat) (attrs : gmap string value)
      (a a' : array) (s : k2_object) :
  serve (Update url i attrs) a = Some (Object s, a') -> oid s = i.
Proof.
  cbn. destruct (List.find (has_id i) (collection a url)) as [o|] eqn:E; [|discriminate].
  intros H. injection H as <- _. apply find_some in E as [_ E].
  unfold patch. rewrite E. cbn. apply bool_decide_eq_true in E. exact E.
Qed.

Lemma emits_save (o : RestObject) :
  emits c t (save o)
        (fun o' l => exists s, o' = of_k2 (ro_ep o) (ro_url o) s
                               /\ l = [Call (ro_ep o) (save_request o) (Answered (Object s))]
                               /\ forall i, ro_id o = Some i -> oid s = i).
Proof.
  unfold save. fold (save_request o). eapply emits_bind; [apply emits_request|].
  intros resp l [-> (a & a' & Hs)]. destruct resp as [|s|]; try apply emits_raise.
  apply emits_ret. exists s. split; [reflexivity|]. split; [reflexivity|].
  intros i Hi. unfold save_request in Hs. rewrite Hi in Hs.
  eapply serve_update_oid, Hs.
Qed.

Lemma emits_refresh (o : RestObject) (i : nat) :
  ro_id o = Some i ->
  emits c t (refresh o)
        (fun o' l => exists s, o' = of_k2 (ro_ep o) (ro_url o) s /\ oid s = i
                               /\ l = [Call (ro_ep o) (Refresh (ro_url o) i)
                                            (Answered (Object s))]).
Proof.
  intros Hi. unfold refresh. rewrite Hi. eapply emits_bind; [apply emits_request|].
  intros resp l [-> (a & a' & Hs)]. cbn in Hs.
  destruct (List.find (has_id i) (collection a (ro_url o))) as [s|] eqn:E; [|discriminate].
  injection Hs as <- _. apply emits_ret. exists s. split; [reflexivity|].
  split; [|reflexivity].
  apply find_some in E as [_ E]. apply bool_decide_eq_true in E. exact E.
Qed.

Lemma emits_delete (o : RestObject) :
  emits c t (delete o)
        (fun _ l => exists i, ro_id o = Some i
                              /\ l = [Call (ro_ep o) (Delete (ro_url o) i) (Answered Done)]).
Proof.
  unfold delete. destruct (ro_id o) as [i|]; [|apply emits_raise].
  eapply emits_bind; [apply emits_request|].
  intros resp l [-> (a & a' & Hs)]. cbn in Hs. injection Hs as <- _.
  apply emits_ret. exists i. split; reflexivity.
Qed.

Lemma emits_any {A} (m : M A) (Q : A -> list event -> Prop) :
  emits c t m Q -> emits c t m (fun _ _ => True).
Proof. intros H. eapply emits_weaken; [exact H|]. intros; exact I. Qed.

Lemma emits_for_each_delete (l : list RestObject) :
  emits c t (for_each l delete) (fun _ _ => True).
Proof.
  induction l as [|o l IH]; cbn [for_each].
  - apply emits_ret. exact I.
  - eapply emits_bind; [apply emits_delete|]. intros _ l1 _.
    eapply emits_weaken; [exact IH|]. intros; exact I.
Qed.

Lemma emits_delete_by_ref (ep : endpoint) (url : string) (name : value) :
  emits c t (_delete_by_ref ep url name) (fun _ _ => True).
Proof.
  unfold _delete_by_ref. eapply emits_bind; [apply emits_search|].
  intros rs l1 _. eapply emits_weaken; [apply emits_for_each_delete|]. intros; exact I.
Qed.

(** The loop of [_check_for_status]: rounds of fetching and pausing one
    second, exactly until the awaited state is seen. *)
Lemma emits_check_for_status (status : string) (ep : endpoint) (i : nat) (fuel : nat) :
  forall obj : RestObject,
    ro_ep obj = ep -> ro_url obj = sessions_url -> ro_id obj = Some i ->
    emits c t (_check_for_status fuel obj status)
          (fun obj' l => exists seen,
               l = polls ep i seen
               /\ awaited status (ro_attrs obj !! "state") seen
               /\ ro_ep obj' = ep /\ ro_url obj' = sessions_url /\ ro_id obj' = Some i
               /\ ro_attrs obj' !! "state" = Some (VStr status)).
Proof.
  induction fuel as [|fuel IH]; intros obj He Hu Hi; cbn [_check_for_status];
    (eapply emits_bind; [apply emits_getattr|]);
    intros v l [Hattr ->];
    destruct (bool_decide (v = VStr status)) eqn:Ev.
  - apply bool_decide_eq_true in Ev. subst v. apply emits_ret.
    exists []. rewrite Hattr. cbn. auto 10.
  - apply emits_diverge.
  - apply bool_decide_eq_true in Ev. subst v. apply emits_ret.
    exists []. rewrite Hattr. cbn. auto 10.
  - apply bool_decide_eq_false in Ev.
    eapply emits_bind; [apply (emits_refresh obj i), Hi|].
    intros obj' l (s & -> & Hs & ->).
    eapply emits_bind; [apply emits_sleep|]. intros _ l ->.
    eapply emits_weaken; [apply (IH (of_k2 (ro_ep obj) (ro_url obj) s)); cbn; congruence|].
    intros obj' l (seen & -> & Haw & H1 & H2 & H3 & H4).
    exists (s :: seen). rewrite He, Hu, Hattr. cbn [ro_attrs of_k2] in Haw.
    split; [reflexivity|]. split; [|auto]. split; [congruence|exact Haw].
Qed.

End Emits.



Lemma emits_delete_volume_replica (c t : endpoint) (fuel : nat) (volume : cinder_volume)
      (vg_name vol_name : string) :
  emits c t (_delete_volume_replica fuel volume vg_name vol_name)
        (fun _ l => teardown_log c t volume l).
Proof.
  unfold _delete_volume_replica.
  eapply emits_bind; [apply emits_self_client|]. intros c' l [-> ->].
  eapply emits_bind; [apply emits_search|]. intros src_rs l (hs & -> & ->).
  destruct hs as [|s ls]; [apply emits_raise|].
  cbn [first_hit result_set hits List.map]. apply emits_bind_ret.
  eapply emits_bind; [apply emits_self_target|]. intros t' l [-> ->].
  eapply emits_bind; [apply emits_search|]. intros tgt_rs l (ho & -> & ->).
  destruct ho as [|o lo]; [apply emits_raise|].
  cbn [first_hit result_set hits List.map]. apply emits_bind_ret.
  eapply emits_bind; [apply emits_save|]. intros src1 l (s1 & -> & -> & Hid1).
  specialize (Hid1 (oid s) eq_refl).
  eapply emits_bind;
    [apply (emits_check_for_status c t "suspended" t (oid o)); reflexivity|].
  intros tgt1 l (seen1 & -> & Haw1 & He & Hu & Hi & Hst).
  eapply emits_bind; [apply emits_save|]. intros src2 l (s2 & -> & -> & Hid2).
  specialize (Hid2 (oid s1) eq_refl).
  eapply emits_bind;
    [apply (emits_check_for_status c t "idle" t (oid o)); assumption|].
  intros tgt2 l (seen2 & -> & Haw2 & He2 & Hu2 & Hi2 & Hst2).
  eapply emits_bind; [apply emits_delete|]. intros _ l (i & Hi' & ->).
  eapply emits_bind; [apply emits_delete|]. intros _ l (j & Hj & ->).
  eapply emits_weaken.
  { repeat first
      [ apply emits_delete_by_ref
      | eapply (emits_bind c t _ _ (fun _ _ => True) (fun _ _ => True));
        [ first [ eapply emits_any; apply emits_self_client
                | eapply emits_any; apply emits_self_target
                | eapply emits_any; apply emits_search
                | apply emits_for_each_delete
                | apply emits_delete_by_ref ]
        | intros ? ? _ ] ]. }
  intros u rest _. cbn beta.
  rewrite Hi2 in Hi'. injection Hi' as <-.
  cbn [of_k2 ro_id ro_ep ro_url] in Hj. injection Hj as <-.
  rewrite Hst in Haw2. rewrite He2, Hu2.
  exists s, ls, o, lo, s1, s2, seen1, seen2, rest.
  split; [|split; assumption].
  cbn [of_k2 setattr save_request ro_id ro_ep ro_url ro_attrs app].
  rewrite Hid2, Hid1. rewrite <- ?app_assoc. reflexivity.
Qed.


(** C2: the teardown of a volume's replication, run with a target
    endpoint [t].  On every run (whatever the arrays hold and do on their
    own, whichever exchanges fail, however long the polling is allowed to
    go on), a deletion of a replication session is attempted only after
    the target session was seen [suspended] and then [idle] in the answers
    of its array.  And a teardown that returns has set the source session
    to [suspended], fetched the target session again with a pause of one
    second after each fetch until it was seen [suspended], set the source
    session to [idle], polled the target session in the same way until it
    was seen [idle], and only then deleted the target session and the
    source session, in this order. *)
Theorem sessions_deleted_after_handshake (t : endpoint) (fuel : nat)
        (volume : cinder_volume) (vg_name vol_name : string) (st : state) :
  target st = Some t ->
  let run := _delete_volume_replica fuel volume vg_name vol_name st in
  exists evs,
    trace run.2 = (trace st ++ evs)%list
    /\ (forall pre ep i out post,
          evs = (pre ++ Call ep (Delete sessions_url i) out :: post)%list ->
          phase (handshake t (target_session_name volume) pre) = MayDelete)
    /\ (forall u, run.1 = Ok u -> teardown_log (client st) t volume (answers evs)).
Proof.
  intros Ht run.
  destruct (tracks_delete_volume_replica t fuel volume vg_name vol_name st Ht)
    as (_ & evs & Htr & Hq).
  destruct (emits_delete_volume_replica (client st) t fuel volume vg_name vol_name st
              eq_refl Ht) as (_ & _ & evs' & Htr' & Hl).
  fold run in Htr, Hq, Htr', Hl.
  assert (evs' = evs) as -> by (eapply app_inv_head; rewrite <- Htr, <- Htr'; reflexivity).
  exists evs. split; [exact Htr|]. cbv zeta in Hq.
  assert (Hv : phase (handshake t (target_session_name volume) evs) <> Violated).
  { unfold handshake. destruct run.1; [rewrite Hq; discriminate|exact Hq|exact Hq]. }
  split.
  - intros pre ep i out post ->. eapply deletion_after_handshake. exact Hv.
  - intros u Hu. rewrite Hu in Hl. exact Hl.
Qed.

Lemma sessions_deleted_after_handshake_witness :
  let run := _delete_volume_replica 2 replicated_volume "cvg-v1" "cv-v1" lagging_pair in
  target lagging_pair = Some Target
  /\ run.1 = Ok tt
  /\ exists evs,
       trace run.2 = (trace lagging_pair ++ evs)%list
       /\ (forall pre ep i out post,
             evs = (pre ++ Call ep (Delete sessions_url i) out :: post)%list ->
             phase (handshake Target (target_session_name replicated_volume) pre) = MayDelete)
       /\ teardown_log Source Target replicated_volume (answers evs).
Proof.
  intros run. split; [reflexivity|]. split; [vm_compute; reflexivity|].
  destruct (sessions_deleted_after_handshake Target 2 replicated_volume "cvg-v1" "cv-v1"
              lagging_pair eq_refl) as (evs & Htr & Hsafe & Hlog).
  exists evs. split; [exact Htr|]. split; [exact Hsafe|].
  apply (Hlog tt). vm_compute. reflexivity.
Defined.

(** A target session that lags one second behind is polled twice for
    each state; with too little time allowed, the teardown is still
    polling and has deleted nothing. *)
Example lagging_target_is_polled :
  let run := _delete_volume_replica 2 replicated_volume "cvg-v1" "cv-v1" lagging_pair in
  let short := _delete_volume_replica 1 replicated_volume "cvg-v1" "cv-v1" lagging_pair in
  run.1 = Ok tt
  /\ answers (trace run.2)
     = ([Call Source (Search sessions_url (by_name "ssn-v1"))
              (Answered (Hits [session_object 0 "ssn-v1" "in_sync"]));
         Call Target (Search sessions_url (by_name "rssn-v1"))
              (Answered (Hits [session_object 0 "rssn-v1" "in_sync"]));
         Call Source (Update sessions_url 0 (fields (session_object 0 "ssn-v1" "suspended")))
              (Answered (Object (session_object 0 "ssn-v1" "suspended")))]
        ++ polls Target 0 [session_object 0 "rssn-v1" "in_sync";
                           session_object 0 "rssn-v1" "suspended"]
        ++ [Call Source (Update sessions_url 0 (fields (session_object 0 "ssn-v1" "idle")))
                 (Answered (Object (session_object 0 "ssn-v1" "idle")))]
        ++ polls Target 0 [session_object 0 "rssn-v1" "suspended";
                           session_object 0 "rssn-v1" "idle"]
        ++ [Call Target (Delete sessions_url 0) (Answered Done);
            Call Source (Delete sessions_url 0) (Answered Done);
            Call Source (Search "volume_groups" (by_name "cvg-v1")) (Answered (Hits []));
            Call Target (Search "volume_groups" (by_name "rcvg-v1")) (Answered (Hits []));
            Call Source (Search "snapshots" [("volume_group", VRefs [])]) (Answered (Hits []));
            Call Target (Search "snapshots" [("volume_group", VRefs [])]) (Answered (Hits []));
            Call Target (Search "volumes" (by_name "rcv-v1")) (Answered (Hits []));
            Call Target (Search "volume_groups" (by_name "rcvg-v1")) (Answered (Hits []))])%list
  /\ short.1 = Diverge
  /\ calls (trace short.2)
     = [(Source, Search sessions_url (by_name "ssn-v1"));
        (Target, Search sessions_url (by_name "rssn-v1"));
        (Source, Update sessions_url 0 (fields (session_object 0 "ssn-v1" "suspended")));
        (Target, Refresh sessions_url 0)].
Proof. vm_compute. repeat split; reflexivity. Qed.

(** ** More about the resilient client *)

Lemma starts_with_prefix (p q s : string) :
  starts_with (p +:+ q) s = true -> starts_with p s = true.
Proof.
  revert s. induction p as [|a p IH]; intros s H; [reflexivity|].
  destruct s as [|b s]; [discriminate H|].
  change ((if ascii_dec a b then starts_with (p +:+ q) s else false) = true) in H.
  cbn [starts_with]. destruct (ascii_dec a b); [apply IH, H|discriminate H].
Qed.

Lemma contains_prefix (p q s : string) :
  contains (p +:+ q) s = true -> contains p s = true.
Proof.
  induction s as [|b s IH]; intros H.
  - cbn [contains] in *. rewrite orb_false_r in *. eapply starts_with_prefix, H.
  - cbn [contains] in *. apply orb_true_iff in H as [H | H].
    + rewrite (starts_with_prefix _ _ _ H). reflexivity.
    + rewrite (IH H). apply orb_true_r.
Qed.

(** X1: a failure is retried exactly when its status is 400 and its body
    contains [MC_ERR_BUSY], [MC_ERR_INPROGRESS] or [MC_ERR_START_TIMEOUT].
    The fourth marker of [K2_RETRY_ERRORS], [MC_ERR_BUSY_SPECIFIC], never
    decides: a body that contains it contains [MC_ERR_BUSY]. *)
Theorem should_retry_markers (err_code : Z) (err_msg : string) :
  _should_retry err_code err_msg
  = (err_code =? 400)%Z
    && (contains "MC_ERR_BUSY" err_msg || contains "MC_ERR_INPROGRESS" err_msg
        || contains "MC_ERR_START_TIMEOUT" err_msg).
Proof.
  unfold _should_retry, K2_RETRY_ERRORS. destruct (err_code =? 400)%Z; [|reflexivity].
  cbn [existsb andb]. rewrite orb_false_r.
  destruct (contains "MC_ERR_BUSY" err_msg) eqn:E1; [reflexivity|].
  destruct (contains "MC_ERR_BUSY_SPECIFIC" err_msg) eqn:E2; [|reflexivity].
  apply (contains_prefix "MC_ERR_BUSY" "_SPECIFIC") in E2. congruence.
Qed.

Lemma request_body_unlocked (ep : endpoint) (r : request) (st : state) :
  locked st ep = false ->
  (exists e, _request_body ep r st = (Raise (surfaced e), failed_attempt ep r e st))
  \/ (exists resp a, serve r (array_of ep st) = Some (resp, a)
                     /\ _request_body ep r st = (Ok resp, answered ep r resp a st)).
Proof.
  intros Hl. destruct (reaches_array st) eqn:Hr.
  - destruct (serve r (array_of ep st)) as [[resp a]|] eqn:Hs.
    + right. exists resp, a. split; [reflexivity|].
      apply request_body_answered; assumption.
    + left. exists not_found. apply request_body_rejected; assumption.
  - left. unfold reaches_array in Hr.
    destruct (faults st) as [|[e|] rest] eqn:Hf; try discriminate Hr.
    exists e. eapply request_body_failed; eassumption.
Qed.

Lemma locked_failed_attempt (ep ep' : endpoint) (r : request) (e : exn) (st : state) :
  locked (failed_attempt ep r e st) ep' = locked st ep'.
Proof. destruct ep'; reflexivity. Qed.

Lemma retry_attempts_bracketed (ep : endpoint) (r : request) (n : nat) :
  forall st, locked st ep = false ->
    let run := retry_attempts n (_request_body ep r) st in
    run.1 <> Diverge
    /\ (forall ep', locked run.2 ep' = locked st ep')
    /\ exists outs,
         trace run.2 = (trace st ++ List.flat_map (attempt ep r) outs)%list
         /\ 1 <= List.length outs <= S n.
Proof.
  induction n as [|n IH]; intros st Hl; cbn zeta; cbn [retry_attempts];
    destruct (request_body_unlocked ep r st Hl) as [[e E] | (resp & a & Hs & E)];
    rewrite E.
  - assert (H : (forall ep', locked (failed_attempt ep r e st) ep' = locked st ep')
                /\ exists outs,
                     trace (failed_attempt ep r e st)
                     = (trace st ++ List.flat_map (attempt ep r) outs)%list
                     /\ 1 <= List.length outs <= 1).
    { split; [intros ep'; apply locked_failed_attempt|].
      exists [Failed e]. split; [reflexivity|cbn; lia]. }
    destruct (surfaced e); (split; [discriminate|exact H]).
  - cbn [fst snd]. split; [discriminate|].
    split; [intros ep'; apply locked_answered|].
    exists [Answered resp]. rewrite trace_answered. split; [reflexivity|cbn; lia].
  - assert (H : (forall ep', locked (failed_attempt ep r e st) ep' = locked st ep')
                /\ exists outs,
                     trace (failed_attempt ep r e st)
                     = (trace st ++ List.flat_map (attempt ep r) outs)%list
                     /\ 1 <= List.length outs <= S (S n)).
    { split; [intros ep'; apply locked_failed_attempt|].
      exists [Failed e]. split; [reflexivity|cbn; lia]. }
    destruct (surfaced e) eqn:Es; try (split; [discriminate|exact H]).
    destruct (IH (failed_attempt ep r e st)) as (Hd & Hlk & outs & Htr & Hn).
    { rewrite locked_failed_attempt. exact Hl. }
    split; [exact Hd|]. split.
    + intros ep'. rewrite Hlk. apply locked_failed_attempt.
    + exists (Failed e :: outs). rewrite Htr, trace_failed. cbn [List.flat_map List.length].
      rewrite <- app_assoc. split; [reflexivity|lia].
  - cbn [fst snd]. split; [discriminate|].
    split; [intros ep'; apply locked_answered|].
    exists [Answered resp]. rewrite trace_answered. split; [reflexivity|cbn; lia].
Qed.

(** X2: a call through [_request] that finds the endpoint's lock free
    comes back (it returns or raises), leaves both locks as it found them,
    and has made between one and five attempts, each logged as taking the
    lock, one exchange for this request on this endpoint, and releasing the
    lock: whatever the network does. *)
Theorem request_releases_lock (ep : endpoint) (r : request) (st : state) :
  locked st ep = false ->
  let run := _request ep r st in
  run.1 <> Diverge
  /\ (forall ep', locked run.2 ep' = locked st ep')
  /\ exists outs,
       trace run.2 = (trace st ++ List.flat_map (attempt ep r) outs)%list
       /\ 1 <= List.length outs <= MAX_K2_RETRY.
Proof. intros Hl. apply (retry_attempts_bracketed ep r 4 st Hl). Qed.

Lemma request_releases_lock_witness :
  let st := driver_on empty_array empty_array [Some busy; Some busy; None] in
  let run := _request Source (Search "volumes" []) st in
  locked st Source = false
  /\ run.1 <> Diverge
  /\ (forall ep', locked run.2 ep' = locked st ep')
  /\ exists outs,
       trace run.2 = (trace st ++ List.flat_map (attempt Source (Search "volumes" [])) outs)%list
       /\ 1 <= List.length outs <= MAX_K2_RETRY.
Proof.
  intros st run. split; [reflexivity|].
  exact (request_releases_lock Source (Search "volumes" []) st eq_refl).
Defined.

(** A call that finds the lock taken waits for it: nothing is sent. *)
Example request_waits_for_lock :
  let st := set_locked Source true (driver_on empty_array empty_array []) in
  _request Source (Search "volumes" []) st = (Diverge, st).
Proof. reflexivity. Qed.

(** ** What the driver's calls send, on every run *)

Section Sends.
Variable R : request -> Prop.

Lemma sends_ret {A} (a : A) (Q : A -> Prop) : Q a -> sends R (ret a) Q.
Proof.
  intros H st. exists []. rewrite app_nil_r. split; [reflexivity|].
  split; [constructor|]. split; [reflexivity|exact H].
Qed.

Lemma sends_raise {A} (e : exn) (Q : A -> Prop) : sends R (raise e) Q.
Proof.
  intros st. exists []. rewrite app_nil_r. split; [reflexivity|].
  split; [constructor|]. split; [reflexivity|exact I].
Qed.

Lemma sends_weaken {A} (m : M A) (Q Q' : A -> Prop) :
  sends R m Q -> (forall a, Q a -> Q' a) -> sends R m Q'.
Proof.
  intros H HQ st. destruct (H st) as (evs & Htr & Hev & Harr & Hq).
  exists evs. split; [exact Htr|]. split; [exact Hev|]. split; [exact Harr|].
  destruct (m st).1; auto.
Qed.

Lemma sends_bind {A B} (m : M A) (k : A -> M B) (Q : A -> Prop) (Q' : B -> Prop) :
  sends R m Q -> (forall a, Q a -> sends R (k a) Q') -> sends R (bind m k) Q'.
Proof.
  intros Hm Hk st. destruct (Hm st) as (evs1 & Htr1 & Hev1 & Harr1 & Hq).
  unfold bind. destruct (m st) as [[a|e|] st1]; cbn [fst snd] in *.
  - destruct (Hk a Hq st1) as (evs2 & Htr2 & Hev2 & Harr2 & Hq').
    exists (evs1 ++ evs2)%list. rewrite Htr2, Htr1, app_assoc.
    split; [reflexivity|]. split; [apply Forall_app; split; assumption|].
    split; [|exact Hq'].
    intros Hi. apply Forall_app in Hi as [Hi1 Hi2].
    rewrite (Harr2 Hi2). exact (Harr1 Hi1).
  - exists evs1. split; [exact Htr1|]. split; [exact Hev1|]. split; [exact Harr1|exact I].
  - exists evs1. split; [exact Htr1|]. split; [exact Hev1|]. split; [exact Harr1|exact I].
Qed.

Lemma sends_try_except {A} (m : M A) (h : exn -> M A) (Q : A -> Prop) :
  sends R m Q -> (forall e, sends R (h e) Q) -> sends R (try_except m h) Q.
Proof.
  intros Hm Hh st. destruct (Hm st) as (evs1 & Htr1 & Hev1 & Harr1 & Hq).
  unfold try_except. destruct (m st) as [[a|e|] st1]; cbn [fst snd] in *.
  - exists evs1. split; [exact Htr1|]. split; [exact Hev1|]. split; [exact Harr1|exact Hq].
  - destruct (Hh e st1) as (evs2 & Htr2 & Hev2 & Harr2 & Hq').
    exists (evs1 ++ evs2)%list. rewrite Htr2, Htr1, app_assoc.
    split; [reflexivity|]. split; [apply Forall_app; split; assumption|].
    split; [|exact Hq'].
    intros Hi. apply Forall_app in Hi as [Hi1 Hi2].
    rewrite (Harr2 Hi2). exact (Harr1 Hi1).
  - exists evs1. split; [exact Htr1|]. split; [exact Hev1|]. split; [exact Harr1|exact I].
Qed.

(** A computation that leaves log and arrays alone. *)
Lemma sends_silent {A} (m : M A) (Q : A -> Prop) :
  (forall st, trace (m st).2 = trace st /\ arrays (m st).2 = arrays st
              /\ match (m st).1 with Ok a => Q a | _ => True end) ->
  sends R m Q.
Proof.
  intros H st. destruct (H st) as (Htr & Harr & Hq).
  exists []. rewrite app_nil_r. split; [exact Htr|]. split; [constructor|].
  split; [intros _; exact Harr|exact Hq].
Qed.

Lemma sends_get {A} (f : state -> A) : sends R (get f) (fun _ => True).
Proof. apply sends_silent. intros st. repeat split. Qed.

Lemma sends_self_client : sends R self_client (fun _ => True).
Proof. apply sends_get. Qed.

Lemma sends_self_target : sends R self_target (fun _ => True).
Proof.
  apply sends_silent. intros st. unfold self_target, bind, get.
  destruct (target st); repeat split.
Qed.

Lemma sends_self_replica : sends R self_replica (fun _ => True).
Proof.
  apply sends_silent. intros st. unfold self_replica, bind, get.
  destruct (replica st); repeat split.
Qed.

Lemma sends_getattr (o : RestObject) (k : string) :
  sends R (getattr o k) (fun v => ro_attrs o !! k = Some v).
Proof.
  unfold getattr. destruct (ro_attrs o !! k); [apply sends_ret; reflexivity|apply sends_raise].
Qed.

Lemma sends_as_int (v : value) : sends R (as_int v) (fun _ => True).
Proof. destruct v; first [apply sends_ret; exact I | apply sends_raise]. Qed.

Lemma sends_first_hit (rs : ResultSet) :
  sends R (first_hit rs) (fun o => o ∈ hits rs).
Proof.
  unfold first_hit. destruct (hits rs) as [|o l]; [apply sends_raise|].
  apply sends_ret. apply elem_of_cons. left. reflexivity.
Qed.

Lemma sends_set_client (ep : endpoint) : sends R (modify (set_client ep)) (fun _ => True).
Proof. apply sends_silent. intros st. repeat split. Qed.

Lemma sends_set_stats (s : stats_dict) : sends R (modify (set_stats s)) (fun _ => True).
Proof. apply sends_silent. intros st. repeat split. Qed.

Lemma inert_answer (ep : endpoint) (r : request) (resp : response) (a a' : array) :
  inert (Call ep r (Answered resp)) -> serve r a = Some (resp, a') -> a' = a.
Proof.
  destruct r; cbn; try contradiction; intros _.
  - intros H. injection H as _ <-. reflexivity.
  - destruct (List.find _ _); [|discriminate]. intros H. injection H as _ <-. reflexivity.
Qed.

Lemma arrays_failed_attempt (ep : endpoint) (r : request) (e : exn) (st : state) :
  arrays (failed_attempt ep r e st) = arrays st.
Proof. reflexivity. Qed.

Lemma arrays_answered_same (ep : endpoint) (r : request) (resp : response) (st : state) :
  arrays (answered ep r resp (array_of ep st) st) = arrays st.
Proof. destruct ep; reflexivity. Qed.

Lemma sends_retry_attempts (ep : endpoint) (r : request) (n : nat) :
  R r ->
  sends R (retry_attempts n (_request_body ep r))
        (fun resp => exists a a', serve r a = Some (resp, a')).
Proof.
  intros Hr.
  assert (Hfail : forall e, Forall (allowing R) (attempt ep r (Failed e)))
    by (intros e; repeat constructor; exact Hr).
  induction n as [|n IH]; intros st; cbn [retry_attempts];
    destruct (request_body_cases ep r st) as [E | [[e E] | (resp & a & Hs & E)]];
    rewrite E.
  - exists []. rewrite app_nil_r. cbn [fst snd]. split; [reflexivity|].
    split; [constructor|]. split; [reflexivity|exact I].
  - assert (H : exists evs,
               trace (failed_attempt ep r e st) = (trace st ++ evs)%list
               /\ Forall (allowing R) evs
               /\ (Forall inert evs -> arrays (failed_attempt ep r e st) = arrays st)
               /\ True).
    { exists (attempt ep r (Failed e)). split; [reflexivity|]. split; [apply Hfail|].
      split; [reflexivity|exact I]. }
    destruct (surfaced e); exact H.
  - exists (attempt ep r (Answered resp)). cbn [fst snd]. rewrite trace_answered.
    split; [reflexivity|]. split; [repeat constructor; exact Hr|].
    split; [|eauto].
    intros Hi. apply Forall_cons in Hi as [_ Hi]. apply Forall_cons in Hi as [Hi _].
    rewrite (inert_answer _ _ _ _ _ Hi Hs). apply arrays_answered_same.
  - exists []. rewrite app_nil_r. cbn [fst snd]. split; [reflexivity|].
    split; [constructor|]. split; [reflexivity|exact I].
  - assert (H : exists evs,
               trace (failed_attempt ep r e st) = (trace st ++ evs)%list
               /\ Forall (allowing R) evs
               /\ (Forall inert evs -> arrays (failed_attempt ep r e st) = arrays st)
               /\ True).
    { exists (attempt ep r (Failed e)). split; [reflexivity|]. split; [apply Hfail|].
      split; [reflexivity|exact I]. }
    destruct (surfaced e) eqn:Es; try exact H.
    destruct (IH (failed_attempt ep r e st)) as (evs2 & Htr2 & Hev2 & Harr2 & Hq).
    exists (attempt ep r (Failed e) ++ evs2)%list.
    rewrite Htr2, trace_failed, app_assoc.
    split; [reflexivity|]. split; [apply Forall_app; split; [apply Hfail|exact Hev2]|].
    split; [|exact Hq].
    intros Hi. apply Forall_app in Hi as [_ Hi2]. rewrite (Harr2 Hi2). reflexivity.
  - exists (attempt ep r (Answered resp)). cbn [fst snd]. rewrite trace_answered.
    split; [reflexivity|]. split; [repeat constructor; exact Hr|].
    split; [|eauto].
    intros Hi. apply Forall_cons in Hi as [_ Hi]. apply Forall_cons in Hi as [Hi _].
    rewrite (inert_answer _ _ _ _ _ Hi Hs). apply arrays_answered_same.
Qed.

Lemma sends_request (ep : endpoint) (r : request) :
  R r -> sends R (_request ep r) (fun resp => exists a a', serve r a = Some (resp, a')).
Proof. apply sends_retry_attempts. Qed.

Lemma sends_search (ep : endpoint) (url : string) (filters : list (string * value)) :
  R (Search url filters) ->
  sends R (search ep url filters) (fun rs => exists l, rs = result_set ep url l).
Proof.
  intros Hr. unfold search. eapply sends_bind; [apply sends_request, Hr|].
  intros resp (a & a' & Hs). cbn in Hs. injection Hs as <- _.
  apply sends_ret. eexists. reflexivity.
Qed.

Lemma sends_save (o : RestObject) :
  R (save_request o) ->
  sends R (save o) (fun o' => ro_ep o' = ro_ep o /\ ro_url o' = ro_url o).
Proof.
  intros Hr. unfold save. fold (save_request o).
  eapply sends_bind; [apply sends_request, Hr|].
  intros resp _. destruct resp; try apply sends_raise. apply sends_ret. split; reflexivity.
Qed.

Lemma sends_delete (o : RestObject) :
  (forall i, ro_id o = Some i -> R (Delete (ro_url o) i)) ->
  sends R (delete o) (fun _ => True).
Proof.
  intros Hr. unfold delete. destruct (ro_id o) as [i|]; [|apply sends_raise].
  eapply sends_bind; [apply sends_request, Hr; reflexivity|].
  intros _ _. apply sends_ret. exact I.
Qed.

Lemma hit_url (ep : endpoint) (url : string) (l : list k2_object) (o : RestObject) :
  o ∈ hits (result_set ep url l) -> ro_url o = url /\ ro_ep o = ep /\ is_Some (ro_id o).
Proof.
  cbn. intros H. apply list_elem_of_fmap in H as (x & -> & _). cbn. eauto.
Qed.

End Sends.

Ltac sends_leaf :=
  first
    [ apply sends_self_client | apply sends_self_target | apply sends_self_replica
    | apply sends_get | apply sends_getattr | apply sends_as_int
    | apply sends_search; exact I | apply sends_first_hit
    | apply sends_set_client | apply sends_set_stats | apply sends_raise
    | apply sends_ret; exact I ].

Ltac sends_step :=
  lazymatch goal with
  | |- sends _ (bind (if ?b then _ else _) _) _ =>
      eapply (sends_bind _ _ _ (fun _ => True)); [destruct b | intros ? _]
  | |- sends _ (bind (bind _ _) _) _ =>
      eapply (sends_bind _ _ _ (fun _ => True)); [ | intros ? _]
  | |- sends _ (bind _ _) _ => eapply sends_bind; [sends_leaf | intros ? _]
  | |- sends _ (if ?b then _ else _) _ => destruct b
  | |- sends _ (try_except _ _) _ => apply sends_try_except; [ | intros ?]
  | |- sends _ _ (fun _ => True) =>
      first [ sends_leaf | eapply sends_weaken; [sends_leaf | intros; exact I] ]
  end.

Lemma allowing_search_inert (ev : event) : allowing is_search ev -> inert ev.
Proof. destruct ev as [| |ep r out|]; cbn; try tauto. destruct r; cbn; tauto. Qed.

Lemma sends_reads_only {A} (m : M A) (Q : A -> Prop) :
  sends is_search m Q -> reads_only m.
Proof.
  intros H st. destruct (H st) as (evs & Htr & Hev & Harr & _).
  split; [|exists evs; split; assumption].
  apply Harr. eapply Forall_impl; [exact Hev|]. apply allowing_search_inert.
Qed.

Lemma sends_update_volume_stats : sends is_search update_volume_stats (fun _ => True).
Proof. unfold update_volume_stats. repeat sends_step. Qed.

Lemma sends_manage_existing_get_size (existing_ref : gmap string string) :
  sends is_search (manage_existing_get_size existing_ref) (fun _ => True).
Proof.
  unfold manage_existing_get_size. destruct (existing_ref !! "source-name");
    repeat sends_step.
Qed.

Lemma sends_get_volume_object (volume : cinder_volume) :
  sends is_search (_get_volume_object volume) (fun _ => True).
Proof. unfold _get_volume_object, volume_lookup_name. repeat sends_step. Qed.

Lemma sends_get_policy : sends is_search get_policy (fun _ => True).
Proof. unfold get_policy. repeat sends_step. Qed.

Lemma sends_get_replica_status (vg_name : string) :
  sends is_search (_get_replica_status vg_name) (fun _ => True).
Proof. unfold _get_replica_status. repeat sends_step. Qed.

(** X3: refreshing the statistics, sizing a volume to be managed, looking
    a volume up, fetching the retention policy and asking whether a group
    is replicated send nothing but searches and change neither array,
    however they end. *)
Theorem lookups_change_nothing :
  reads_only update_volume_stats
  /\ (forall existing_ref, reads_only (manage_existing_get_size existing_ref))
  /\ (forall volume, reads_only (_get_volume_object volume))
  /\ reads_only get_policy
  /\ (forall vg_name, reads_only (_get_replica_status vg_name)).
Proof.
  split; [|split; [|split; [|split]]]; intros;
    eapply sends_reads_only;
    first [ apply sends_update_volume_stats | apply sends_manage_existing_get_size
          | apply sends_get_volume_object | apply sends_get_policy
          | apply sends_get_replica_status ].
Qed.

Lemma sends_mono {A} (R R' : request -> Prop) (m : M A) (Q : A -> Prop) :
  (forall r, R r -> R' r) -> sends R m Q -> sends R' m Q.
Proof.
  intros HR H st. destruct (H st) as (evs & Htr & Hev & Harr & Hq).
  exists evs. split; [exact Htr|]. split; [|split; assumption].
  eapply Forall_impl; [exact Hev|]. intros [| |ep r out|]; cbn; auto.
Qed.

Lemma sends_delete_hit (R : request -> Prop) (ep : endpoint) (url : string)
      (l : list k2_object) (o : RestObject) :
  o ∈ hits (result_set ep url l) ->
  (forall i, R (Delete url i)) ->
  sends R (delete o) (fun _ => True).
Proof.
  intros Hin Hr. apply hit_url in Hin as (Hu & _ & _).
  apply sends_delete. intros i _. rewrite Hu. apply Hr.
Qed.

Lemma sends_volume_lookup_name (R : request -> Prop) (volume : cinder_volume) :
  sends R (volume_lookup_name volume) (fun _ => True).
Proof. unfold volume_lookup_name. repeat sends_step. Qed.

(** X4: detaching a volume from a host sends nothing but searches and
    deletions of mappings and of hosts, on every run: it never creates or
    updates an object, and never deletes a volume. *)
Theorem terminate_connection_deletes_only_mappings_and_hosts
        (volume : volume_arg) (connector : gmap string string) (st : state) :
  exists evs,
    trace (terminate_connection volume connector st).2 = (trace st ++ evs)%list
    /\ Forall (allowing (fun r => is_search r \/ deletes_from ["mappings"; "hosts"] r)) evs.
Proof.
  set (R := fun r => is_search r \/ deletes_from ["mappings"; "hosts"] r).
  assert (Hs : forall url filters, R (Search url filters)) by (intros; left; exact I).
  assert (Hm : forall i, R (Delete "mappings" i)) by (intros; right; cbn; set_solver).
  assert (Hh : forall i, R (Delete "hosts" i)) by (intros; right; cbn; set_solver).
  assert (H : sends R (terminate_connection volume connector) (fun _ => True)).
  { unfold terminate_connection.
    eapply (sends_bind _ _ _ (fun _ => True)).
    { destruct volume as [v|o].
      - eapply sends_bind; [apply sends_volume_lookup_name|]. intros vol_name _.
        eapply sends_bind; [apply sends_self_client|]. intros c _.
        eapply sends_bind; [apply sends_search, Hs|]. intros rs _.
        destruct (negb _); [|apply sends_ret; exact I].
        eapply sends_bind; [apply sends_first_hit|]. intros h _. apply sends_ret. exact I.
      - eapply sends_bind; [apply sends_getattr|]. intros _ _. apply sends_ret. exact I. }
    intros vol _.
    eapply sends_bind; [apply sends_self_client|]. intros c _.
    eapply sends_bind; [apply sends_search, Hs|]. intros host_rs [lh ->].
    destruct (negb _); [|apply sends_ret; exact I].
    eapply sends_bind; [apply sends_first_hit|]. intros host Hhost.
    eapply sends_bind; [apply sends_self_client|]. intros c' _.
    eapply sends_bind; [apply sends_search, Hs|]. intros map_rs [lm ->].
    eapply (sends_bind _ _ _ (fun _ => True)).
    { destruct (negb _); [|apply sends_ret; exact I].
      eapply sends_bind; [apply sends_first_hit|]. intros h Hin.
      eapply sends_delete_hit; [exact Hin|exact Hm]. }
    intros _ _.
    eapply sends_bind; [apply sends_self_client|]. intros c'' _.
    eapply sends_bind; [apply sends_search, Hs|]. intros left_rs _.
    destruct (Nat.eqb _ 0); [|apply sends_ret; exact I].
    eapply sends_delete_hit; [exact Hhost|exact Hh]. }
  destruct (H st) as (evs & Htr & Hev & _). exists evs. split; assumption.
Qed.

Lemma sends_failover_volume (v : cinder_volume) :
  sends (fun r => is_search r \/ sets_session "failed_over" r) (_failover_volume v)
        (fun _ => True).
Proof.
  set (R := fun r => is_search r \/ sets_session "failed_over" r).
  unfold _failover_volume.
  eapply sends_bind; [apply sends_self_target|]. intros t _.
  eapply sends_bind; [apply sends_search; left; exact I|]. intros rs [l ->].
  eapply sends_bind; [apply sends_first_hit|]. intros tgt Hin.
  apply hit_url in Hin as (Hu & _ & [i Hi]).
  eapply sends_bind; [apply sends_getattr|]. intros state _.
  destruct (bool_decide _); [|apply sends_ret; exact I].
  eapply sends_bind; [|intros _ _; apply sends_ret; exact I].
  apply sends_save. right. unfold save_request. cbn [setattr ro_id ro_url ro_attrs].
  rewrite Hi, Hu. split; [reflexivity|]. apply lookup_insert_eq.
Qed.

Lemma sends_failover_volumes (volumes : list cinder_volume) (acc : list volume_update) :
  sends (fun r => is_search r \/ sets_session "failed_over" r)
        (failover_volumes volumes acc) (fun _ => True).
Proof.
  revert acc. induction volumes as [|v rest IH]; intros acc; cbn [failover_volumes].
  - apply sends_ret. exact I.
  - eapply sends_bind; [apply sends_self_target|]. intros t _.
    eapply sends_bind; [apply sends_search; left; exact I|]. intros rs _.
    destruct (negb _); [|apply IH].
    eapply sends_bind; [apply sends_failover_volume|]. intros _ _. apply IH.
Qed.

(** X5: a failover sends nothing but searches and updates that set a
    replication session to [failed_over], on every run: it never deletes
    or creates anything. *)
Theorem failover_host_only_promotes_sessions
        (volumes : list cinder_volume) (secondary_id : option string) (st : state) :
  exists evs,
    trace (failover_host volumes secondary_id st).2 = (trace st ++ evs)%list
    /\ Forall (allowing (fun r => is_search r \/ sets_session "failed_over" r)) evs.
Proof.
  assert (H : sends (fun r => is_search r \/ sets_session "failed_over" r)
                    (failover_host volumes secondary_id) (fun _ => True)).
  { unfold failover_host.
    eapply (sends_bind _ _ _ (fun _ => True)).
    { destruct (match secondary_id with Some s => _ | None => _ end);
        [|apply sends_ret; exact I].
      eapply sends_bind; [apply sends_self_replica|]. intros rep _.
      apply sends_ret. exact I. }
    intros rejected _. destruct rejected; [apply sends_raise|].
    eapply sends_bind; [apply sends_failover_volumes|]. intros ups _.
    eapply sends_bind; [apply sends_self_replica|]. intros rep _.
    apply sends_ret. exact I. }
  destruct (H st) as (evs & Htr & Hev & _). exists evs. split; assumption.
Qed.

(** ** Creating and deleting a volume *)

Lemma collection_added_same (url : string) (o : k2_object) (a : array) :
  collection (added url o a) url = (collection a url ++ [o])%list.
Proof. unfold collection at 1, added. cbn. rewrite lookup_insert_eq. reflexivity. Qed.

Lemma collection_added_other (url url' : string) (o : k2_object) (a : array) :
  url <> url' -> collection (added url o a) url' = collection a url'.
Proof.
  intros H. unfold collection, added. cbn. rewrite lookup_insert_ne by assumption.
  reflexivity.
Qed.

Lemma save_new_quiet (ep : endpoint) (url : string) (attrs : list (string * value))
      (st : state) :
  locked st ep = false -> reaches_array st = true ->
  let o := {| oid := next_id (array_of ep st); fields := list_to_map attrs |} in
  save (new ep url attrs) st
  = (Ok (of_k2 ep url o),
     answered ep (Create url (list_to_map attrs)) (Object o) (added url o (array_of ep st)) st).
Proof. intros Hl Hr o. apply (save_answered (new ep url attrs)); auto. Qed.

Lemma delete_hit_quiet (ep : endpoint) (url : string) (o : k2_object) (st : state) :
  quiet st ->
  delete (of_k2 ep url o) st
  = (Ok tt,
     answered ep (Delete url (oid o)) Done
       (set_collection url (List.filter (fun x => negb (has_id (oid o) x))
                                        (collection (array_of ep st) url))
                       (array_of ep st)) st).
Proof.
  intros Hq. unfold delete. cbn [ro_id of_k2 ro_ep ro_url].
  erewrite bind_ok by (apply request_quiet; [exact Hq|reflexivity]). reflexivity.
Qed.

Lemma get_is_replica_without_replica (vt : option volume_type) (st : state) :
  replica st = None -> _get_is_replica vt st = (Ok false, st).
Proof.
  intros H. unfold _get_is_replica, bind, get, ret. rewrite H.
  destruct vt as [[n [specs|]]|]; cbn; try reflexivity.
  destruct (bool_decide (specs = ∅)); [reflexivity|].
  rewrite andb_false_r. reflexivity.
Qed.

Lemma array_of_answered_other (ep ep' : endpoint) (r : request) (resp : response)
      (a : array) (st : state) :
  ep' <> ep -> array_of ep' (answered ep r resp a st) = array_of ep' st.
Proof. destruct ep, ep'; intros H; try contradiction; reflexivity. Qed.

Lemma create_group_and_volume_quiet (volume : cinder_volume) (st : state) :
  quiet st ->
  let c := client st in
  let n := next_id (array_of c st) in
  exists st',
    create_group_and_volume volume st
    = (Ok (of_k2 c "volume_groups" (group_of volume n),
           of_k2 c "volumes" (volume_of volume n)), st')
    /\ quiet st' /\ client st' = c /\ replica st' = replica st /\ target st' = target st
    /\ array_of c st'
       = added "volumes" (volume_of volume n)
               (added "volume_groups" (group_of volume n) (array_of c st))
    /\ (forall ep, ep <> c -> array_of ep st' = array_of ep st).
Proof.
  intros Hq c n. unfold create_group_and_volume, try_except. sim.
  erewrite bind_ok by (apply save_new_quiet; auto with k2).
  sim. autorewrite with k2_state.
  erewrite bind_ok by (apply save_new_quiet; auto with k2).
  sim. eexists. split.
  { rewrite array_of_answered_same. reflexivity. }
  split; [auto with k2|]. autorewrite with k2_state.
  split; [reflexivity|]. split; [reflexivity|]. split; [reflexivity|].
  split.
  - rewrite !array_of_answered_same. reflexivity.
  - intros ep Hep. rewrite !array_of_answered_other by exact Hep. reflexivity.
Qed.

(** X6: on a driver without a replica and with the network quiet,
    [create_volume] stores a group [cvg-<id>] with unlimited quota and the
    dedup setting of the volume's type, and a volume [cv-<id>] of the
    requested size in MiB-sized units that refers to this group; nothing
    else in the array changes, and the other array is not touched. *)
Theorem create_volume_stores_group_and_volume (volume : cinder_volume) (st : state) :
  quiet st -> replica st = None ->
  let c := client st in
  let n := next_id (array_of c st) in
  exists st',
    create_volume volume st = (Ok tt, st')
    /\ array_of c st'
       = added "volumes" (volume_of volume n)
               (added "volume_groups" (group_of volume n) (array_of c st))
    /\ (forall ep, ep <> c -> array_of ep st' = array_of ep st).
Proof.
  intros Hq Hr c n.
  destruct (create_group_and_volume_quiet volume st Hq)
    as (st' & Hc & Hq' & Hcl & Hrep & _ & Ha & Ho).
  exists st'. unfold create_volume.
  erewrite bind_ok by exact Hc.
  erewrite bind_ok by (apply get_is_replica_without_replica; congruence).
  sim. split; [reflexivity|]. split; assumption.
Qed.

Lemma group_of_name (volume : cinder_volume) (n : nat) :
  fields (group_of volume n) !! "name" = Some (VStr (get_volume_group_name (id volume))).
Proof. reflexivity. Qed.

Lemma volume_of_name (volume : cinder_volume) (n : nat) :
  fields (volume_of volume n) !! "name" = Some (VStr (get_volume_name (id volume))).
Proof. reflexivity. Qed.

Lemma accepts_named (name : string) (o : k2_object) :
  fields o !! "name" = Some (VStr name) -> accepts (by_name name) o = true.
Proof.
  intros H. unfold accepts, by_name, filter_accepts. cbn. rewrite H.
  rewrite bool_decide_eq_true_2 by reflexivity. reflexivity.
Qed.

(** Searching, and deleting the first hit if there is one. *)
Lemma delete_first_hit_quiet (url : string) (filters : list (string * value)) (st : state) :
  quiet st ->
  exists st',
    (let* rs := search (client st) url filters in
     if negb (Nat.eqb (total rs) 0)
     then let* h := first_hit rs in delete h
     else ret tt)%eff st = (Ok tt, st')
    /\ quiet st' /\ client st' = client st /\ replica st' = replica st
    /\ target st' = target st
    /\ array_of (client st) st' = without_first_hit url filters (array_of (client st) st)
    /\ (forall ep, ep <> client st -> array_of ep st' = array_of ep st).
Proof.
  intros Hq. search_step. unfold without_first_hit.
  fold (found (client st) url filters st).
  destruct (found (client st) url filters st) as [|o l] eqn:Hf; sim.
  - eexists. split; [reflexivity|]. split; [auto with k2|].
    autorewrite with k2_state. repeat split.
    + apply array_of_answered_search.
    + intros ep _. apply array_of_answered_search.
  - erewrite delete_hit_quiet by auto with k2.
    eexists. split; [reflexivity|]. split; [auto with k2|].
    autorewrite with k2_state. repeat split.
    + rewrite array_of_answered_same, array_of_answered_search. reflexivity.
    + intros ep Hep. rewrite array_of_answered_other by exact Hep.
      apply array_of_answered_search.
Qed.

Lemma delete_volume_quiet (fuel : nat) (volume : cinder_volume) (st : state) :
  quiet st -> replica st = None ->
  let c := client st in
  exists st',
    delete_volume fuel volume st = (Ok tt, st')
    /\ quiet st' /\ client st' = c /\ replica st' = None /\ target st' = target st
    /\ array_of c st'
       = without_first_hit "volume_groups" (by_name (get_volume_group_name (id volume)))
           (without_first_hit "volumes" (by_name (get_volume_name (id volume)))
                              (array_of c st))
    /\ (forall ep, ep <> c -> array_of ep st' = array_of ep st).
Proof.
  intros Hq Hr c. unfold delete_volume, try_except.
  erewrite bind_ok by (apply get_is_replica_without_replica; exact Hr).
  sim.
  destruct (delete_first_hit_quiet "volumes" (by_name (get_volume_name (id volume))) st Hq)
    as (st1 & E1 & Hq1 & Hc1 & Hr1 & Ht1 & Ha1 & Ho1).
  destruct (delete_first_hit_quiet "volume_groups"
              (by_name (get_volume_group_name (id volume))) st1 Hq1)
    as (st2 & E2 & Hq2 & Hc2 & Hr2 & Ht2 & Ha2 & Ho2).
  rewrite <- bind_assoc. erewrite bind_ok by exact E1. sim.
  unfold by_name in E2. rewrite E2.
  exists st2. split; [reflexivity|]. split; [exact Hq2|].
  subst c. rewrite Hc1 in *.
  split; [congruence|]. split; [congruence|]. split; [congruence|].
  split; [rewrite Ha2, Ha1; reflexivity|].
  intros ep Hep. rewrite Ho2, Ho1 by exact Hep. reflexivity.
Qed.

Lemma without_first_hit_absent (url : string) (filters : list (string * value))
      (a : array) :
  List.filter (accepts filters) (collection a url) = [] ->
  without_first_hit url filters a = a.
Proof. intros H. unfold without_first_hit. rewrite H. reflexivity. Qed.

(** X7: deleting a volume that the array does not have (neither the
    volume nor its group) succeeds and changes nothing. *)
Theorem delete_volume_of_missing_volume (fuel : nat) (volume : cinder_volume) (st : state) :
  quiet st -> replica st = None ->
  absent (client st) "volumes" (VStr (get_volume_name (id volume))) st ->
  absent (client st) "volume_groups" (VStr (get_volume_group_name (id volume))) st ->
  exists st',
    delete_volume fuel volume st = (Ok tt, st')
    /\ forall ep, array_of ep st' = array_of ep st.
Proof.
  intros Hq Hr Hv Hg.
  destruct (delete_volume_quiet fuel volume st Hq Hr)
    as (st' & E & _ & _ & _ & _ & Ha & Ho).
  exists st'. split; [exact E|]. intros ep.
  destruct (decide (ep = client st)) as [->|Hne]; [|apply Ho, Hne].
  rewrite Ha. rewrite (without_first_hit_absent "volumes") by exact Hv.
  apply without_first_hit_absent. exact Hg.
Qed.

Lemma delete_volume_of_missing_volume_witness :
  let st0 := State empty_array empty_array (fun aa => aa) [] false false [] Source
                   (Some Target) None (the_conf true) None in
  quiet st0 /\ replica st0 = None
  /\ exists st',
       delete_volume 0 (plain_volume "a") st0 = (Ok tt, st')
       /\ forall ep, array_of ep st' = array_of ep st0.
Proof.
  intros st0.
  assert (Hq : quiet st0) by (repeat split).
  split; [exact Hq|]. split; [reflexivity|].
  exact (delete_volume_of_missing_volume 0 (plain_volume "a") st0 Hq eq_refl eq_refl eq_refl).
Defined.

Lemma filter_other_ids (i : nat) (l : list k2_object) :
  (forall o, o ∈ l -> oid o <> i) ->
  List.filter (fun x => negb (has_id i x)) l = l.
Proof.
  induction l as [|o l IH]; intros H; [reflexivity|]. cbn.
  unfold has_id at 1. rewrite bool_decide_eq_false_2 by (apply H; left). cbn.
  rewrite IH; [reflexivity|]. intros x Hx. apply H. right. exact Hx.
Qed.

(** Removing the first hit of a search from an array that just stored the
    only object the search finds gives back the objects there were. *)
Lemma without_first_hit_added (url : string) (filters : list (string * value))
      (o : k2_object) (a : array) :
  List.filter (accepts filters) (collection a url) = [] ->
  accepts filters o = true ->
  (forall x, x ∈ collection a url -> oid x <> oid o) ->
  same_objects (without_first_hit url filters (added url o a)) a.
Proof.
  intros Habs Hacc Hfresh url'. unfold without_first_hit.
  rewrite collection_added_same, List.filter_app, Habs. cbn [List.filter app].
  rewrite Hacc. rewrite List.filter_app.
  rewrite (filter_other_ids _ _ Hfresh). cbn [List.filter].
  unfold has_id. rewrite bool_decide_eq_true_2 by reflexivity. cbn [negb].
  rewrite app_nil_r.
  destruct (decide (url = url')) as [<-|Hne].
  - apply collection_set_same.
  - rewrite collection_set_other by exact Hne. apply collection_added_other. exact Hne.
Qed.

Lemma without_first_hit_same (url : string) (filters : list (string * value)) (a b : array) :
  same_objects a b ->
  same_objects (without_first_hit url filters a) (without_first_hit url filters b).
Proof.
  intros H url'. unfold without_first_hit. rewrite (H url).
  destruct (List.filter _ _) as [|o l]; [apply H|].
  destruct (decide (url = url')) as [<-|Hne].
  - rewrite !collection_set_same. reflexivity.
  - rewrite !collection_set_other by exact Hne. apply H.
Qed.

Lemma same_objects_trans (a b c : array) :
  same_objects a b -> same_objects b c -> same_objects a c.
Proof. intros H1 H2 url. rewrite (H1 url). apply H2. Qed.

Lemma fresh_other_id (a : array) (url : string) (n : nat) (x : k2_object) :
  fresh_ids a -> next_id a <= n -> x ∈ collection a url -> oid x <> n.
Proof. intros Hf Hn Hx. specialize (Hf url x Hx). lia. Qed.

(** X8: on a quiet network and without a replica, deleting a volume that
    was just created gives back the objects the array had before, when the
    array had no volume or group of these names: creation and deletion
    undo each other. *)
Theorem create_then_delete_volume (fuel : nat) (volume : cinder_volume) (st : state) :
  quiet st -> replica st = None ->
  fresh_ids (array_of (client st) st) ->
  absent (client st) "volumes" (VStr (get_volume_name (id volume))) st ->
  absent (client st) "volume_groups" (VStr (get_volume_group_name (id volume))) st ->
  exists st1 st2,
    create_volume volume st = (Ok tt, st1)
    /\ delete_volume fuel volume st1 = (Ok tt, st2)
    /\ same_objects (array_of (client st) st2) (array_of (client st) st)
    /\ (forall ep, ep <> client st -> array_of ep st2 = array_of ep st).
Proof.
  intros Hq Hr Hfresh Hv Hg.
  destruct (create_group_and_volume_quiet volume st Hq)
    as (st1 & Hc & Hq1 & Hcl & Hrep & _ & Ha & Ho).
  assert (E1 : create_volume volume st = (Ok tt, st1)).
  { unfold create_volume. erewrite bind_ok by exact Hc.
    erewrite bind_ok by (apply get_is_replica_without_replica; congruence).
    reflexivity. }
  destruct (delete_volume_quiet fuel volume st1 Hq1 (eq_trans Hrep Hr))
    as (st2 & E2 & _ & _ & _ & _ & Ha2 & Ho2).
  exists st1, st2. split; [exact E1|]. split; [exact E2|].
  rewrite Hcl in Ha2, Ho2. split.
  - rewrite Ha2, Ha.
    set (a := array_of (client st) st).
    set (n := next_id a).
    eapply same_objects_trans.
    { apply without_first_hit_same.
      apply (without_first_hit_added "volumes" _ (volume_of volume n)).
      - rewrite collection_added_other by discriminate. exact Hv.
      - apply accepts_named, volume_of_name.
      - intros x Hx. rewrite collection_added_other in Hx by discriminate.
        apply (fresh_other_id a "volumes"); [exact Hfresh|cbn; lia|exact Hx]. }
    apply (without_first_hit_added "volume_groups" _ (group_of volume n)).
    + exact Hg.
    + apply accepts_named, group_of_name.
    + intros x Hx. apply (fresh_other_id a "volume_groups"); [exact Hfresh|cbn; lia|exact Hx].
  - intros ep Hep. rewrite Ho2, Ho by exact Hep. reflexivity.
Qed.

Lemma create_then_delete_volume_witness :
  let st0 := State (one_volume_array "cv-b" 1048576) empty_array (fun aa => aa) []
                   false false [] Source (Some Target) None (the_conf true) None in
  quiet st0 /\ replica st0 = None /\ fresh_ids (array_of (client st0) st0)
  /\ exists st1 st2,
       create_volume (plain_volume "a") st0 = (Ok tt, st1)
       /\ delete_volume 0 (plain_volume "a") st1 = (Ok tt, st2)
       /\ same_objects (array_of (client st0) st2) (array_of (client st0) st0)
       /\ (forall ep, ep <> client st0 -> array_of ep st2 = array_of ep st0).
Proof.
  intros st0.
  assert (Hq : quiet st0) by (repeat split).
  assert (Hf : fresh_ids (array_of (client st0) st0)).
  { intros url o Ho. cbn in Ho. unfold collection in Ho. cbn in Ho.
    destruct (decide (url = "volumes")) as [->|Hne].
    - rewrite lookup_singleton_eq in Ho. cbn in Ho.
      apply list_elem_of_singleton in Ho as ->. cbn. lia.
    - rewrite lookup_singleton_ne in Ho by congruence. cbn in Ho. inversion Ho. }
  split; [exact Hq|]. split; [reflexivity|]. split; [exact Hf|].
  exact (create_then_delete_volume 0 (plain_volume "a") st0 Hq eq_refl Hf eq_refl eq_refl).
Defined.



(** ** Resizing *)

Lemma find_has_id_some (l : list k2_object) (o : k2_object) :
  o ∈ l -> exists x, List.find (has_id (oid o)) l = Some x.
Proof.
  intros Ho. destruct (List.find (has_id (oid o)) l) as [x|] eqn:E; [eauto|].
  exfalso. apply list_elem_of_In in Ho.
  pose proof (find_none _ _ E o Ho) as H. unfold has_id in H.
  rewrite bool_decide_eq_false in H. auto.
Qed.

Lemma patch_self (attrs : gmap string value) (k : string) (v : value) (o : k2_object) :
  patch (oid o) (<[k := v]> (fields o)) o = {| oid := oid o; fields := <[k := v]> (fields o) |}.
Proof.
  unfold patch, has_id. rewrite bool_decide_eq_true_2 by reflexivity.
  rewrite insert_union_self. reflexivity.
Qed.


(** A volume of 3 GiB is "extended" to 1 GiB without complaint. *)
Example extend_volume_shrinks :
  let st := driver_on (one_volume_array "cv-a" (3 * 1048576)) empty_array [] in
  let run := extend_volume (plain_volume "a") 1 st in
  run.1 = Ok tt
  /\ collection (source_array run.2) "volumes" = [volume_object 0 "cv-a" 1048576].
Proof. vm_compute. split; reflexivity. Qed.

(** ** Snapshots *)

Lemma get_policy_quiet (st : state) :
  quiet st ->
  get_policy st
  = (match found (client st) "retention_policies" best_effort st with
     | [] => Raise no_hit
     | p :: _ => Ok (of_k2 (client st) "retention_policies" p)
     end,
     answered (client st) (Search "retention_policies" best_effort)
              (Hits (found (client st) "retention_policies" best_effort st))
              (array_of (client st) st) st).
Proof.
  intros Hq. unfold get_policy, try_except. sim. search_step.
  fold (by_name "Best_Effort_Retention"). fold best_effort.
  destruct (found (client st) "retention_policies" best_effort st); reflexivity.
Qed.

Lemma create_snapshot_quiet (snapshot : cinder_snapshot) (st : state) :
  quiet st ->
  let c := client st in
  exists st',
    match found c "retention_policies" best_effort st,
          found c "volume_groups"
                (by_name (get_volume_group_name (snap_volume_id snapshot))) st with
    | p :: _, g :: _ =>
        create_snapshot snapshot st = (Ok tt, st')
        /\ array_of c st'
           = added "snapshots"
                   (snapshot_of snapshot (oid g) (oid p) (next_id (array_of c st)))
                   (array_of c st)
        /\ (forall ep, ep <> c -> array_of ep st' = array_of ep st)
    | _, _ =>
        create_snapshot snapshot st = (Raise no_hit, st')
        /\ forall ep, array_of ep st' = array_of ep st
    end
    /\ quiet st' /\ client st' = c.
Proof.
  intros Hq c. unfold create_snapshot.
  pose proof (get_policy_quiet st Hq) as Hpol. fold c in Hpol.
  destruct (found c "retention_policies" best_effort st) as [|p ps] eqn:Hp.
  - erewrite bind_raise by exact Hpol.
    eexists. split; [split; [reflexivity|]|].
    + intros ep. apply array_of_answered_search.
    + split; [auto with k2|apply client_answered].
  - erewrite bind_ok by exact Hpol.
    unfold try_except. sim. autorewrite with k2_state. fold c.
    search_step. fold (by_name (get_volume_group_name (snap_volume_id snapshot))).
    rewrite found_answered_search.
    destruct (found c "volume_groups"
                    (by_name (get_volume_group_name (snap_volume_id snapshot))) st)
      as [|g gs] eqn:Hg; sim.
    + eexists. split; [split; [reflexivity|]|].
      * intros ep. rewrite !array_of_answered_search. reflexivity.
      * split; [auto with k2|rewrite !client_answered; reflexivity].
    + autorewrite with k2_state. fold c.
      erewrite bind_ok by (apply save_new_quiet; auto with k2).
      sim. eexists. split; [split; [reflexivity|]|].
      * rewrite !array_of_answered_search, array_of_answered_same.
        split; [reflexivity|].
        intros ep Hep. rewrite !array_of_answered_other by exact Hep. reflexivity.
      * split; [auto with k2|rewrite !client_answered; reflexivity].
Qed.




Lemma delete_snapshot_quiet (snapshot : cinder_snapshot) (st : state) :
  quiet st ->
  exists st',
    delete_snapshot snapshot st = (Ok tt, st')
    /\ array_of (client st) st'
       = without_first_hit "snapshots" (by_short_name (get_snap_name (snap_id snapshot)))
                           (array_of (client st) st)
    /\ (forall ep, ep <> client st -> array_of ep st' = array_of ep st).
Proof.
  intros Hq. unfold delete_snapshot, try_except. sim.
  destruct (delete_first_hit_quiet "snapshots"
              (by_short_name (get_snap_name (snap_id snapshot))) st Hq)
    as (st' & E & _ & _ & _ & _ & Ha & Ho).
  unfold by_short_name in E. rewrite E. exists st'. auto.
Qed.

Lemma accepts_attr (k v : string) (o : k2_object) :
  fields o !! k = Some (VStr v) -> accepts [(k, VStr v)] o = true.
Proof.
  intros H. unfold accepts, filter_accepts. cbn. rewrite H.
  rewrite bool_decide_eq_true_2 by reflexivity. reflexivity.
Qed.

Lemma snapshot_of_short_name (snapshot : cinder_snapshot) (g p n : nat) :
  accepts (by_short_name (get_snap_name (snap_id snapshot))) (snapshot_of snapshot g p n)
  = true.
Proof. apply accepts_attr. reflexivity. Qed.

(** X12: on a quiet network, deleting a snapshot that was just created
    gives back the objects the array had before, when the array had no
    snapshot of that name: [create_snapshot] and [delete_snapshot] undo
    each other; and deleting a snapshot that is not there succeeds and
    changes nothing. *)
Theorem create_then_delete_snapshot (snapshot : cinder_snapshot) (st : state)
        (p g : k2_object) (ps gs : list k2_object) :
  quiet st ->
  fresh_ids (array_of (client st) st) ->
  found (client st) "retention_policies" best_effort st = p :: ps ->
  found (client st) "volume_groups"
        (by_name (get_volume_group_name (snap_volume_id snapshot))) st = g :: gs ->
  found (client st) "snapshots" (by_short_name (get_snap_name (snap_id snapshot))) st = [] ->
  (exists st0,
     delete_snapshot snapshot st = (Ok tt, st0)
     /\ forall ep, array_of ep st0 = array_of ep st)
  /\ exists st1 st2,
       create_snapshot snapshot st = (Ok tt, st1)
       /\ delete_snapshot snapshot st1 = (Ok tt, st2)
       /\ same_objects (array_of (client st) st2) (array_of (client st) st)
       /\ (forall ep, ep <> client st -> array_of ep st2 = array_of ep st).
Proof.
  intros Hq Hfresh Hp Hg Hs. split.
  - destruct (delete_snapshot_quiet snapshot st Hq) as (st0 & E & Ha & Ho).
    exists st0. split; [exact E|]. intros ep.
    destruct (decide (ep = client st)) as [->|Hne]; [|apply Ho, Hne].
    rewrite Ha. apply without_first_hit_absent. exact Hs.
  - destruct (create_snapshot_quiet snapshot st Hq) as (st1 & H1 & Hq1 & Hc1).
    cbv zeta in H1. rewrite Hp, Hg in H1. destruct H1 as (E1 & Ha1 & Ho1).
    destruct (delete_snapshot_quiet snapshot st1 Hq1) as (st2 & E2 & Ha2 & Ho2).
    rewrite Hc1 in Ha2, Ho2.
    exists st1, st2. split; [exact E1|]. split; [exact E2|]. split.
    + rewrite Ha2, Ha1. apply without_first_hit_added.
      * exact Hs.
      * apply snapshot_of_short_name.
      * intros x Hx.
        apply (fresh_other_id (array_of (client st) st) "snapshots");
          [exact Hfresh|cbn; lia|exact Hx].
    + intros ep Hep. rewrite Ho2, Ho1 by exact Hep. reflexivity.
Qed.

Lemma create_then_delete_snapshot_witness :
  let policy := {| oid := 0; fields := {[ "name" := VStr "Best_Effort_Retention" ]} |} in
  let group := {| oid := 1; fields := {[ "name" := VStr "cvg-a" ]} |} in
  let a := {| objects := {[ "retention_policies" := [policy]; "volume_groups" := [group] ]};
              next_id := 2 |} in
  let st := driver_on a empty_array [] in
  let snapshot := {| snap_id := "s"; snap_volume_id := "a" |} in
  quiet st /\ fresh_ids a
  /\ exists st1 st2,
       create_snapshot snapshot st = (Ok tt, st1)
       /\ collection (array_of Source st1) "snapshots" = [snapshot_of snapshot 1 0 2]
       /\ delete_snapshot snapshot st1 = (Ok tt, st2)
       /\ same_objects (array_of Source st2) a.
Proof.
  intros policy group a st snapshot.
  assert (Hq : quiet st) by (repeat split).
  assert (Hf : fresh_ids a).
  { intros url o Ho. unfold collection in Ho. cbn in Ho.
    destruct (decide (url = "retention_policies")) as [->|H1].
    { vm_compute in Ho. apply list_elem_of_singleton in Ho as ->. cbn. lia. }
    destruct (decide (url = "volume_groups")) as [->|H2].
    { vm_compute in Ho. apply list_elem_of_singleton in Ho as ->. cbn. lia. }
    rewrite lookup_insert_ne, lookup_singleton_ne in Ho by congruence.
    inversion Ho. }
  split; [exact Hq|]. split; [exact Hf|].
  destruct (create_then_delete_snapshot snapshot st policy group [] [] Hq Hf
              eq_refl eq_refl eq_refl) as (_ & st1 & st2 & E1 & E2 & Hs & _).
  exists st1, st2. split; [exact E1|]. split.
  { assert (H : (create_snapshot snapshot st).2 = st1) by (rewrite E1; reflexivity).
    rewrite <- H. vm_compute. reflexivity. }
  split; [exact E2|exact Hs].
Defined.

(** ** Retyping *)

Lemma get_is_replica_total (vt : option volume_type) (st : state) :
  exists b, _get_is_replica vt st = (Ok b, st).
Proof. unfold _get_is_replica, bind, get, ret. eexists. reflexivity. Qed.


(** Retyping an unreplicated volume to its own type gives no answer. *)
Example retype_to_same_type :
  let a := {| objects := {[ "volume_groups" :=
                              [{| oid := 0; fields := {[ "name" := VStr "cvg-a" ]} |}] ]};
              next_id := 1 |} in
  (retype 0 (plain_volume "a") None (driver_on a empty_array [])).1 = Ok None.
Proof. vm_compute. reflexivity. Qed.

(** ** More about names *)

Lemma rep_name_injective (a b : string) : get_rep_name a = get_rep_name b -> a = b.
Proof. unfold get_rep_name. apply append_injective. Qed.

(** X14: names of different kinds never coincide, whatever the
    identifiers: a volume's name is not a group's name, a snapshot's name
    is not a view's name (both are short names of the [snapshots]
    collection), and the replica-side name of a volume, group or session
    is not the source-side name of any volume, group or session; and
    [get_rep_name] maps different names to different names. *)
Theorem names_of_different_kinds_differ (id1 id2 : string) :
  get_volume_name id1 <> get_volume_group_name id2
  /\ get_snap_name id1 <> get_view_name id2
  /\ get_rep_name (get_volume_name id1) <> get_volume_name id2
  /\ get_rep_name (get_volume_group_name id1) <> get_volume_group_name id2
  /\ get_rep_name (get_session_name id1) <> get_session_name id2
  /\ (get_rep_name id1 = get_rep_name id2 -> id1 = id2).
Proof.
  repeat split; try (intros H; discriminate H).
  apply rep_name_injective.
Qed.

(** ** Deleting by name *)

(** X15: on a quiet network [_delete_by_ref] leaves no object of the
    given name in the collection, removes objects only, and a second call
    finds nothing: it only searches and changes nothing. *)
Theorem delete_by_ref_removes_the_name (ep : endpoint) (url : string) (name : value)
        (st : state) :
  quiet st ->
  exists st' st'',
    _delete_by_ref ep url name st = (Ok tt, st')
    /\ absent ep url name st'
    /\ shrunk st st'
    /\ _delete_by_ref ep url name st' = (Ok tt, st'')
    /\ (forall ep', array_of ep' st'' = array_of ep' st')
    /\ trace st'' = (trace st' ++ attempt ep (Search url [("name", name)])
                                          (Answered (Hits [])))%list.
Proof.
  intros Hq.
  destruct (delete_by_ref_quiet ep url name st Hq) as (st' & E & Hc & Habs).
  destruct Hc as (Hq' & _ & _ & _ & Hsh & _).
  exists st'. eexists. split; [exact E|]. split; [exact Habs|]. split; [exact Hsh|].
  unfold _delete_by_ref. erewrite bind_ok by (apply search_quiet; exact Hq').
  unfold absent in Habs. rewrite Habs. cbn [result_set hits List.map for_each ret].
  split; [reflexivity|]. split.
  - intros ep'. apply array_of_answered_search.
  - apply trace_answered.
Qed.

Lemma delete_by_ref_removes_the_name_witness :
  let st := driver_on (one_volume_array "cv-a" 1048576) empty_array [] in
  quiet st
  /\ exists st' st'',
       _delete_by_ref Source "volumes" (VStr "cv-a") st = (Ok tt, st')
       /\ absent Source "volumes" (VStr "cv-a") st'
       /\ _delete_by_ref Source "volumes" (VStr "cv-a") st' = (Ok tt, st'')
       /\ (forall ep', array_of ep' st'' = array_of ep' st').
Proof.
  intros st. assert (Hq : quiet st) by (repeat split). split; [exact Hq|].
  destruct (delete_by_ref_removes_the_name Source "volumes" (VStr "cv-a") st Hq)
    as (st' & st'' & E1 & Ha & _ & E2 & Hs & _).
  exists st', st''. auto.
Defined.

(** ** More about the statistics *)



(** ** Detaching *)

Lemma volume_lookup_plain (volume : cinder_volume) (st : state) :
  replication_status volume <> "failed-over" ->
  volume_lookup_name volume st = (Ok (get_volume_name (id volume)), st).
Proof.
  intros H. unfold volume_lookup_name. rewrite bool_decide_eq_false_2 by exact H.
  reflexivity.
Qed.

(** X17: on a quiet network, detaching a volume that is not failed over
    and is found on the array removes the first mapping of this volume to
    the first host with the connector's sanitized name, and then removes
    that host if (and only if) the array is left with no mapping of it;
    when no host of that name is found, nothing changes. *)
Theorem terminate_connection_detaches (volume : cinder_volume)
        (connector : gmap string string) (st : state)
        (vol : k2_object) (vols : list k2_object) :
  quiet st ->
  replication_status volume <> "failed-over" ->
  found (client st) "volumes" (by_name (get_volume_name (id volume))) st = vol :: vols ->
  exists st',
    terminate_connection (Framework volume) connector st = (Ok tt, st')
    /\ array_of (client st) st'
       = detached (oid vol) (get_initiator_host_name connector) (array_of (client st) st)
    /\ (forall ep, ep <> client st -> array_of ep st' = array_of ep st).
Proof.
  intros Hq Hs Hv. set (c := client st) in *. set (a := array_of c st).
  unfold terminate_connection.
  rewrite bind_assoc. erewrite bind_ok by (apply volume_lookup_plain, Hs).
  sim. search_step. fold (by_name (get_volume_name (id volume))). fold c.
  rewrite Hv. sim. autorewrite with k2_state. fold c.
  search_step. fold (by_name (get_initiator_host_name connector)).
  rewrite found_answered_search.
  assert (Hd : detached (oid vol) (get_initiator_host_name connector) a
               = match found c "hosts" (by_name (get_initiator_host_name connector)) st with
                 | [] => a
                 | h :: _ =>
                     let a1 := without_first_hit "mappings"
                                 [("volume", VRef (oid vol)); ("host", VRef (oid h))] a in
                     match List.filter (accepts [("host", VRef (oid h))])
                                       (collection a1 "mappings") with
                     | [] =>
                         set_collection "hosts"
                           (List.filter (fun x => negb (has_id (oid h) x))
                                        (collection a1 "hosts")) a1
                     | _ :: _ => a1
                     end
                 end) by reflexivity.
  rewrite Hd. clear Hd. cbv zeta.
  destruct (found c "hosts" (by_name (get_initiator_host_name connector)) st)
    as [|h hs] eqn:Hh; sim.
  - eexists. split; [reflexivity|]. split.
    + rewrite array_of_answered_search. apply array_of_answered_search.
    + intros ep _. rewrite array_of_answered_search. apply array_of_answered_search.
  - autorewrite with k2_state. fold c.
    match goal with
    | |- context [answered c (Search "hosts" ?f) ?r ?x ?s] =>
        set (st2 := answered c (Search "hosts" f) r x s)
    end.
    assert (Hq2 : quiet st2) by (subst st2; auto with k2).
    assert (Hc2 : client st2 = c) by (subst st2; rewrite !client_answered; reflexivity).
    assert (Ha2 : forall ep, array_of ep st2 = array_of ep st).
    { intros ep. subst st2. rewrite array_of_answered_search.
      apply array_of_answered_search. }
    destruct (delete_first_hit_quiet "mappings"
                [("volume", VRef (oid vol)); ("host", VRef (oid h))] st2 Hq2)
      as (st3 & E3 & Hq3 & Hc3 & _ & _ & Ha3 & Ho3).
    rewrite Hc2 in E3, Ha3, Ho3, Hc3. rewrite Ha2 in Ha3. fold a in Ha3.
    rewrite <- bind_assoc. erewrite bind_ok by exact E3.
    sim. rewrite Hc3. search_step. fold (found c "mappings" [("host", VRef (oid h))] st3).
    unfold found at 1. rewrite Hc3 || idtac. rewrite Ha3.
    destruct (List.filter (accepts [("host", VRef (oid h))])
                (collection
                   (without_first_hit "mappings"
                      [("volume", VRef (oid vol)); ("host", VRef (oid h))] a) "mappings"))
      as [|m ms] eqn:Hm; sim.
    + erewrite delete_hit_quiet by auto with k2.
      eexists. split; [reflexivity|]. split.
      * rewrite !array_of_answered_same. reflexivity.
      * intros ep Hep. rewrite !array_of_answered_other by exact Hep.
        rewrite Ho3, Ha2 by exact Hep. reflexivity.
    + eexists. split; [reflexivity|]. split.
      * rewrite array_of_answered_same. reflexivity.
      * intros ep Hep. rewrite array_of_answered_other by exact Hep.
        rewrite Ho3, Ha2 by exact Hep. reflexivity.
Qed.

Lemma terminate_connection_detaches_witness :
  let st := driver_on attached_volume_array empty_array [] in
  let volume := plain_volume "src" in
  let connector : gmap string string := {[ "host" := "compute1" ]} in
  quiet st /\ replication_status volume <> "failed-over"
  /\ exists st',
       terminate_connection (Framework volume) connector st = (Ok tt, st')
       /\ collection (array_of Source st') "mappings" = []
       /\ collection (array_of Source st') "hosts" = []
       /\ collection (array_of Source st') "volumes" = [volume_object 0 "cv-src" 1048576].
Proof.
  intros st volume connector.
  assert (Hq : quiet st) by (repeat split).
  assert (Hs : replication_status volume <> "failed-over") by discriminate.
  split; [exact Hq|]. split; [exact Hs|].
  destruct (terminate_connection_detaches volume connector st
              (volume_object 0 "cv-src" 1048576) [] Hq Hs eq_refl)
    as (st' & E & Ha & _).
  exists st'. split; [exact E|]. change (client st) with Source in Ha.
  rewrite Ha. vm_compute. repeat split; reflexivity.
Defined.

Lemma create_volume_stores_group_and_volume_witness :
  let st := State empty_array empty_array (fun aa => aa) [] false false [] Source
                  (Some Target) None (the_conf true) None in
  let volume := plain_volume "a" in
  quiet st /\ replica st = None
  /\ exists st',
       create_volume volume st = (Ok tt, st')
       /\ collection (array_of Source st') "volume_groups" = [group_of volume 0]
       /\ collection (array_of Source st') "volumes" = [volume_of volume 0]
       /\ array_of Target st' = empty_array.
Proof.
  intros st volume.
  assert (Hq : quiet st) by (repeat split).
  split; [exact Hq|]. split; [reflexivity|].
  destruct (create_volume_stores_group_and_volume volume st Hq eq_refl)
    as (st' & E & Ha & Ho).
  exists st'. split; [exact E|]. change (client st) with Source in Ha, Ho.
  rewrite Ha. split; [reflexivity|]. split; [reflexivity|].
  apply (Ho Target). discriminate.
Defined.

(** ** How failures surface *)

Lemma wrapped_outcome {A} (m : M A) (st : state) :
  driver_outcome
    (try_except m (fun ex => raise (KaminarioCinderDriverException (message ex))) st).1.
Proof.
  unfold try_except. destruct (m st) as [[a|e|] st']; exact I.
Qed.


(** [update_volume_stats] has no handler: on an array that reports no
    capacity, the missing hit surfaces as it is. *)
Example stats_failure_is_not_wrapped :
  (update_volume_stats (driver_on empty_array empty_array [])).1 = Raise IndexError.
Proof. reflexivity. Qed.
